(** * Verification of the sprite demo: loading screen, scene transition and
      movement chain of [Game.ts]

    The program is one class, [Game], orchestrating two collaborators: the
    PIXI scene graph (containers, sprites, text labels, the asset loader) and
    the gsap tween engine (timelines of tweens).  The embedding below keeps
    the structure of the class: every method is one definition in a small
    state-and-exception monad over a [World] holding the display objects, the
    animations gsap is still playing, the console and the loader requests.

    Conventions.
    - The value of a JavaScript number is a rational ([Q]).  Every
      coordinate the program computes is a small integer and every opacity
      it assigns is 0 or 1, on which the arithmetic of doubles is exact.  The
      percentages of the loading label are computed from a progress that is
      any double between 0 and 1: there every product and sum is rounded to
      the nearest double ([round64]) before [Math.floor] is taken.  Values
      written while a tween is in flight are arbitrary rationals.
    - A JavaScript string is a [string]; one [ascii] stands for one code unit.
    - Objects shared by reference (the scenes, the label, the sprite) live in
      a store indexed by [ref]; closures capture references.
    - An [await] is a suspension point: the frames the ticker delivers while
      the method is suspended come from the [frames] oracle of the world, so
      all interleavings of the fire-and-forget animations are covered by
      quantifying over the oracle. *)

From Stdlib Require Import ZArith QArith Qround Qminmax Qabs Qpower Lia Lqa Ascii.
From Stdlib Require Import SpecFloat.
From stdpp Require Import base tactics option list strings gmap pretty.

Local Open Scope Q_scope.

(** ** Values *)

Definition ref := nat.

(** Whatever a rejected promise or a failed property access carries. *)
Inductive Error :=
| TypeError (message : string)
| Rejection (reason : string).

(** What an awaited promise of the environment does. *)
Inductive Promise (A : Type) :=
| Resolves (a : A)
| Rejects (e : Error)
| Pending.
Arguments Resolves {A} a.
Arguments Rejects {A} e.
Arguments Pending {A}.

Module PIXI.

(** An opaque handle to decoded image data. *)
Inductive Texture :=
| texture (url : string).

Record TextStyle := { fontFamily : string; fontSize : Z; fill : Z }.

Inductive Node :=
| Container (children : list ref)
| Sprite (tex : Texture)
| Text (text : string) (style : TextStyle).

Record DisplayObject := {
  node : Node;
  x : Q;
  y : Q;
  alpha : Q;
  anchor : Q * Q
}.

(** A display object as its constructor leaves it. *)
Definition create (n : Node) : DisplayObject :=
  {| node := n; x := 0; y := 0; alpha := 1; anchor := (0, 0) |}.

Definition children (o : DisplayObject) : list ref :=
  match node o with
  | Container cs => cs
  | _ => []
  end.

Record Application := {
  width : Q;
  height : Q;
  backgroundColor : Z;
  resolution : Q;
  stage : ref
}.

End PIXI.

(** The closures the program hands to gsap, each with the references it
    captures. *)
Inductive Callback :=
| rampUpdate (loadingText : ref)         (* loadAssets, first onUpdate *)
| finishUpdate (loadingText : ref)       (* loadAssets, second onUpdate *)
| finishComplete (loadingText : ref)     (* loadAssets, onComplete *)
| transitionComplete (loadingScene : ref) (* transitionToGame, onComplete *)
| reportFinal (sprite : ref).            (* createAnimationTimeline, then *)

Module gsap.

(** One entry of the property map of a tween: [{x: v}] or [{alpha: v}]. *)
Inductive Var :=
| to_x (v : Q)
| to_alpha (v : Q).

Record Tween := {
  target : option ref;            (* [None] is the anonymous object [{}] *)
  vars : list Var;
  duration : Q;
  ease : string;
  delay : Q;
  onUpdate : option Callback;
  onComplete : option Callback
}.

(** Children with their start times, in the order they were appended. *)
Record Timeline := {
  children : list (Q * Tween);
  completed : option Callback;    (* [gsap.timeline({onComplete})] *)
  thenCallback : option Callback       (* [timeline.then(f)] *)
}.

(** The position parameter of [timeline.to]: absent, or ["-=d"]. *)
Inductive Position :=
| AtEnd
| BeforeEnd (d : Q).

Definition endTime (c : Q * Tween) : Q := c.1 + duration c.2.

Definition latest (cs : list (Q * Tween)) : Q :=
  foldr (fun c acc => Qmax (endTime c) acc) 0 cs.

(** The duration of a timeline is the latest end of its children. *)
Definition totalDuration (tl : Timeline) : Q := latest (children tl).

Definition timeline (onComplete : option Callback) : Timeline :=
  {| children := []; completed := onComplete; thenCallback := None |}.

(** [tl.to(target, vars, position)]: the child starts at the resolved
    position plus its own delay. *)
Definition to (tl : Timeline) (tw : Tween) (position : Position) : Timeline :=
  let at_ := match position with
             | AtEnd => totalDuration tl
             | BeforeEnd d => totalDuration tl - d
             end in
  {| children := children tl ++ [(at_ + delay tw, tw)];
     completed := completed tl;
     thenCallback := thenCallback tl |}.

Definition then_ (tl : Timeline) (f : Callback) : Timeline :=
  {| children := children tl;
     completed := completed tl;
     thenCallback := Some f |}.

(** [gsap.to(target, vars)]: a lone tween is a timeline of one child. *)
Definition single (tw : Tween) : Timeline := to (timeline None) tw AtEnd.

End gsap.

Inductive LogEntry :=
| log (message : string) (value : Q)
| error (message : string) (e : Error).

(** What the ticker can make a fire-and-forget animation do in one frame.
    [h] is the handle of the animation, [i] the index of a child, [p] the
    value [progressTimeline.progress()] returns in that frame. *)
Inductive Event :=
| Update (h i : nat) (vals : list gsap.Var) (p : Q)
| Complete (h i : nat) (p : Q)
| Finish (h : nat).

(** The page.
    - [objects]: the display objects, by reference;
    - [animations]: the animations started and not awaited, by handle, in
      the order they were started; [None] once gsap has finished one;
    - [console]: what was logged;
    - [requests]: the URLs handed to [PIXI.Assets.load];
    - [mounted]: whether the canvas is in the document;
    - [elapsed]: the seconds the method in progress has spent in timers and
      in animations it awaited;
    - [frames], [tick]: the frames delivered at the [tick]-th suspension
      point, for every [tick]. *)
Record World := {
  objects : gmap ref PIXI.DisplayObject;
  animations : list (option gsap.Timeline);
  console : list LogEntry;
  requests : list string;
  mounted : bool;
  elapsed : Q;
  frames : nat -> list Event;
  tick : nat
}.

Definition with_objects (f : gmap ref PIXI.DisplayObject -> gmap ref PIXI.DisplayObject)
  (w : World) : World :=
  {| objects := f (objects w); animations := animations w; console := console w;
     requests := requests w; mounted := mounted w; elapsed := elapsed w;
     frames := frames w; tick := tick w |}.

Definition with_animations (f : list (option gsap.Timeline) -> list (option gsap.Timeline))
  (w : World) : World :=
  {| objects := objects w; animations := f (animations w); console := console w;
     requests := requests w; mounted := mounted w; elapsed := elapsed w;
     frames := frames w; tick := tick w |}.

Definition with_console (f : list LogEntry -> list LogEntry) (w : World) : World :=
  {| objects := objects w; animations := animations w; console := f (console w);
     requests := requests w; mounted := mounted w; elapsed := elapsed w;
     frames := frames w; tick := tick w |}.

Definition with_requests (f : list string -> list string) (w : World) : World :=
  {| objects := objects w; animations := animations w; console := console w;
     requests := f (requests w); mounted := mounted w; elapsed := elapsed w;
     frames := frames w; tick := tick w |}.

Definition with_mounted (b : bool) (w : World) : World :=
  {| objects := objects w; animations := animations w; console := console w;
     requests := requests w; mounted := b; elapsed := elapsed w;
     frames := frames w; tick := tick w |}.

Definition with_elapsed (f : Q -> Q) (w : World) : World :=
  {| objects := objects w; animations := animations w; console := console w;
     requests := requests w; mounted := mounted w; elapsed := f (elapsed w);
     frames := frames w; tick := tick w |}.

Definition with_tick (f : nat -> nat) (w : World) : World :=
  {| objects := objects w; animations := animations w; console := console w;
     requests := requests w; mounted := mounted w; elapsed := elapsed w;
     frames := frames w; tick := f (tick w) |}.

Definition with_frames (sched : nat -> list Event) (w : World) : World :=
  {| objects := objects w; animations := animations w; console := console w;
     requests := requests w; mounted := mounted w; elapsed := elapsed w;
     frames := sched; tick := tick w |}.

(** The world in which gsap has been handed a timeline. *)
Definition started (tl : gsap.Timeline) (w : World) : World :=
  with_animations (fun l => l ++ [Some tl]) w.

(** A page in which nothing has run yet. *)
Definition blank (sched : nat -> list Event) : World :=
  {| objects := ∅; animations := []; console := []; requests := [];
     mounted := false; elapsed := 0; frames := sched; tick := 0%nat |}.

(** ** Property writes *)

Definition set_x (v : Q) (o : PIXI.DisplayObject) : PIXI.DisplayObject :=
  {| PIXI.node := PIXI.node o; PIXI.x := v; PIXI.y := PIXI.y o;
     PIXI.alpha := PIXI.alpha o; PIXI.anchor := PIXI.anchor o |}.

Definition set_y (v : Q) (o : PIXI.DisplayObject) : PIXI.DisplayObject :=
  {| PIXI.node := PIXI.node o; PIXI.x := PIXI.x o; PIXI.y := v;
     PIXI.alpha := PIXI.alpha o; PIXI.anchor := PIXI.anchor o |}.

Definition set_alpha (v : Q) (o : PIXI.DisplayObject) : PIXI.DisplayObject :=
  {| PIXI.node := PIXI.node o; PIXI.x := PIXI.x o; PIXI.y := PIXI.y o;
     PIXI.alpha := v; PIXI.anchor := PIXI.anchor o |}.

(** [anchor.set(v)]: the second coordinate defaults to the first. *)
Definition anchor_set (v : Q) (o : PIXI.DisplayObject) : PIXI.DisplayObject :=
  {| PIXI.node := PIXI.node o; PIXI.x := PIXI.x o; PIXI.y := PIXI.y o;
     PIXI.alpha := PIXI.alpha o; PIXI.anchor := (v, v) |}.

Definition set_node (n : PIXI.Node) (o : PIXI.DisplayObject) : PIXI.DisplayObject :=
  {| PIXI.node := n; PIXI.x := PIXI.x o; PIXI.y := PIXI.y o;
     PIXI.alpha := PIXI.alpha o; PIXI.anchor := PIXI.anchor o |}.

(** [label.text = s] *)
Definition set_text (s : string) (o : PIXI.DisplayObject) : PIXI.DisplayObject :=
  match PIXI.node o with
  | PIXI.Text _ st => set_node (PIXI.Text s st) o
  | _ => o
  end.

(** [container.addChild(c)] *)
Definition add_child (c : ref) (o : PIXI.DisplayObject) : PIXI.DisplayObject :=
  match PIXI.node o with
  | PIXI.Container cs => set_node (PIXI.Container (cs ++ [c])) o
  | _ => o
  end.

(** [container.removeChildren()] *)
Definition remove_children (o : PIXI.DisplayObject) : PIXI.DisplayObject :=
  match PIXI.node o with
  | PIXI.Container _ => set_node (PIXI.Container []) o
  | _ => o
  end.

Definition modify (r : ref) (f : PIXI.DisplayObject -> PIXI.DisplayObject)
  (w : World) : World :=
  with_objects (alter f r) w.

(** ** Numbers

    A JavaScript number is a binary64 double.  The model keeps the value of
    a number as a rational; the result of an arithmetic operation is the
    exact result rounded to the nearest double, ties to the even mantissa.
    The positions, sizes and durations of this program are integers and
    short binary fractions, on which the operations are exact; the rounding
    is written out where the program multiplies and adds a progress, which
    is any double between 0 and 1.  No number of the program comes near
    [2 ^ 1024], where rounding gives [Infinity]. *)

(** Rounding to the nearest integer, a tie to the even one. *)
Definition round_half_even (q : Q) : Z :=
  let f := Qfloor q in
  match Qcompare (q - inject_Z f) (1 # 2) with
  | Lt => f
  | Gt => (f + 1)%Z
  | Eq => if Z.even f then f else (f + 1)%Z
  end.

Definition pow2 (e : Z) : Q := 2 ^ e.

(** The [k] with [2 ^ k <= q < 2 ^ (k + 1)], for a positive [q]. *)
Definition ilog2 (q : Q) : Z :=
  let k := (Z.log2 (Qnum q) - Z.log2 (Zpos (Qden q)))%Z in
  if Qle_bool (pow2 k) q then k else (k - 1)%Z.

(** The exponent of the last binary place of the doubles next to [q]: 52
    places below its leading one, and never below [2 ^ -1074], the spacing
    of the subnormal doubles. *)
Definition ulp_exponent (q : Q) : Z := Z.max (-1074) (ilog2 (Qabs q) - 52).

(** The double nearest to [q]. *)
Definition round64 (q : Q) : Q :=
  if Qeq_bool q 0 then 0 else
  let e := ulp_exponent q in
  inject_Z (round_half_even (q / pow2 e)) * pow2 e.

(** The value of a finite double as the Standard Library specifies binary64
    arithmetic ([SFmul 53 1024], [SFadd 53 1024]), to compare [round64]
    with. *)
Definition double_value (f : spec_float) : Q :=
  match f with
  | S754_finite s m e => (if s then -1 else 1) * inject_Z (Zpos m) * pow2 e
  | _ => 0
  end.

Module Number.

(** [a * b] and [a + b] *)
Definition mul (a b : Q) : Q := round64 (a * b).
Definition add (a b : Q) : Q := round64 (a + b).

(** A decimal literal of the source, such as [0.1] *)
Definition literal (q : Q) : Q := round64 q.

End Number.

(** ** The tween engine at work *)

(** The template literal [`Loading... ${n}%`] for a number [n] that is an
    integer. *)
Definition loading_label (n : Z) : string :=
  "Loading... " +:+ pretty n +:+ "%".

(** What a callback does when gsap calls it; [p] is the part of the progress
    timeline that has played at that moment, and
    [progressTimeline.progress()] returns it as a number. *)
Definition run_callback (p : Q) (cb : Callback) (w : World) : World :=
  match cb with
  | rampUpdate loadingText =>
      let progress := round64 p in
      modify loadingText
        (set_text (loading_label (Qfloor (Number.mul progress 90)))) w
  | finishUpdate loadingText =>
      let progress := Qmin 1 (Number.add (round64 p) (Number.literal 0.1)) in
      modify loadingText
        (set_text (loading_label (Qfloor (Number.mul progress 100)))) w
  | finishComplete loadingText =>
      modify loadingText (set_text "Loading... 100%") w
  | transitionComplete loadingScene =>
      modify loadingScene remove_children w
  | reportFinal sprite =>
      match objects w !! sprite with
      | Some o =>
          with_console
            (fun c => c ++ [log "Animation sequence complete! Final position:" (PIXI.x o)]) w
      | None => w
      end
  end.

Definition run_callback_opt (p : Q) (cb : option Callback) (w : World) : World :=
  match cb with
  | Some f => run_callback p f w
  | None => w
  end.

Definition write_var (r : ref) (v : gsap.Var) (w : World) : World :=
  match v with
  | gsap.to_x q => modify r (set_x q) w
  | gsap.to_alpha q => modify r (set_alpha q) w
  end.

Definition write_vars (t : option ref) (vs : list gsap.Var) (w : World) : World :=
  match t with
  | Some r => foldl (fun w v => write_var r v w) w vs
  | None => w
  end.

(** A frame in the middle of a tween: the animated properties hold some
    interpolated values, then [onUpdate] runs. *)
Definition render_tween (p : Q) (vals : list gsap.Var) (tw : gsap.Tween) (w : World) : World :=
  run_callback_opt p (gsap.onUpdate tw) (write_vars (gsap.target tw) vals w).

(** The frame in which a tween reaches its end: the animated properties hold
    their end values, [onUpdate] runs and then [onComplete]. *)
Definition complete_tween (p : Q) (tw : gsap.Tween) (w : World) : World :=
  run_callback_opt p (gsap.onComplete tw)
    (run_callback_opt p (gsap.onUpdate tw)
       (write_vars (gsap.target tw) (gsap.vars tw) w)).

(** The end of a timeline: its [onComplete], then the promise of [then]. *)
Definition finish_timeline (tl : gsap.Timeline) (w : World) : World :=
  run_callback_opt 1 (gsap.thenCallback tl) (run_callback_opt 1 (gsap.completed tl) w).

(** Playing a timeline from start to end.  The children of the timelines of
    this program end in the order they were appended (see [chain_schedule]
    and [transition_order]). *)
Definition play (tl : gsap.Timeline) (w : World) : World :=
  finish_timeline tl (foldl (fun w c => complete_tween 1 c.2 w) w (gsap.children tl)).

Definition same_property (a b : gsap.Var) : bool :=
  match a, b with
  | gsap.to_x _, gsap.to_x _ => true
  | gsap.to_alpha _, gsap.to_alpha _ => true
  | _, _ => false
  end.

Fixpoint same_shape (vals vars : list gsap.Var) : bool :=
  match vals, vars with
  | [], [] => true
  | a :: vals', b :: vars' => same_property a b && same_shape vals' vars'
  | _, _ => false
  end.

Definition is_progress (p : Q) : bool := Qle_bool 0 p && Qle_bool p 1.

Definition child_of (w : World) (h i : nat) : option gsap.Tween :=
  match animations w !! h with
  | Some (Some tl) => snd <$> gsap.children tl !! i
  | _ => None
  end.

(** Events that name an animation that is not playing, a child it does not
    have, values for properties the child does not animate or a progress
    outside [0, 1] cannot happen; they leave the world as it is. *)
Definition apply_event (w : World) (e : Event) : World :=
  match e with
  | Update h i vals p =>
      match child_of w h i with
      | Some tw =>
          if same_shape vals (gsap.vars tw) && is_progress p
          then render_tween p vals tw w else w
      | None => w
      end
  | Complete h i p =>
      match child_of w h i with
      | Some tw => if is_progress p then complete_tween p tw w else w
      | None => w
      end
  | Finish h =>
      match animations w !! h with
      | Some (Some tl) =>
          finish_timeline tl (with_animations (fun l => <[h := None]> l) w)
      | _ => w
      end
  end.

Definition run_events (evs : list Event) (w : World) : World :=
  foldl apply_event w evs.

(** ** Methods as state transformers that can throw or stay suspended *)

Inductive Completion (A : Type) :=
| Normal (a : A)
| Throw (e : Error)
| Hang.
Arguments Normal {A} a.
Arguments Throw {A} e.
Arguments Hang {A}.

Definition M (A : Type) : Type := World -> Completion A * World.

#[global] Instance M_ret : MRet M := fun A a w => (Normal a, w).

#[global] Instance M_bind : MBind M := fun A B f m w =>
  match m w with
  | (Normal a, w') => f a w'
  | (Throw e, w') => (Throw e, w')
  | (Hang, w') => (Hang, w')
  end.

Definition throw {A} (e : Error) : M A := fun w => (Throw e, w).

(** [try { body } catch (error) { handler }] *)
Definition try_catch {A} (body : M A) (handler : Error -> M A) : M A := fun w =>
  match body w with
  | (Throw e, w') => handler e w'
  | r => r
  end.

Definition update (f : World -> World) : M unit := fun w => (Normal tt, f w).

(** [new PIXI.Container()], [new PIXI.Sprite(texture)], [new PIXI.Text(s, style)] *)
Definition construct (n : PIXI.Node) : M ref := fun w =>
  let r := fresh (dom (objects w)) in
  (Normal r, with_objects (insert r (PIXI.create n)) w).

(** [object.property = value] and the scene-graph methods *)
Definition assign (r : ref) (f : PIXI.DisplayObject -> PIXI.DisplayObject) : M unit :=
  update (modify r f).

(** [sprite.x] *)
Definition read_x (r : ref) : M Q := fun w =>
  match objects w !! r with
  | Some o => (Normal (PIXI.x o), w)
  | None => (Throw (TypeError "Cannot read properties of undefined"), w)
  end.

(** [container.children[i] as PIXI.Text]; the first use of an undefined
    result throws. *)
Definition child_at (r : ref) (i : nat) : M ref := fun w =>
  match objects w !! r with
  | Some o =>
      match PIXI.children o !! i with
      | Some c => (Normal c, w)
      | None => (Throw (TypeError "Cannot set properties of undefined"), w)
      end
  | None => (Throw (TypeError "Cannot read properties of undefined"), w)
  end.

(** A suspension point: the frames of this tick are delivered. *)
Definition yield : M unit := fun w =>
  (Normal tt, run_events (frames w (tick w)) (with_tick S w)).

Definition await {A} (p : Promise A) : M A :=
  yield;;
  match p with
  | Resolves a => mret a
  | Rejects e => throw e
  | Pending => fun w => (Hang, w)
  end.

(** [await new Promise((resolve) => setTimeout(resolve, ms))] *)
Definition sleep (ms : Q) : M unit :=
  yield;;
  update (with_elapsed (fun t => t + ms / 1000)).

(** [await new Promise((resolve) => gsap.to(target, {..., onComplete: resolve}))] *)
Definition await_tween (tw : gsap.Tween) : M unit :=
  yield;;
  update (with_elapsed (fun t => t + (gsap.delay tw + gsap.duration tw)));;
  update (complete_tween 1 tw).

(** [await new Promise((resolve) => ...)] around a timeline whose
    [onComplete] ends with [resolve()] *)
Definition await_timeline (tl : gsap.Timeline) : M unit :=
  yield;;
  update (with_elapsed (fun t => t + gsap.totalDuration tl));;
  update (play tl).

(** An animation that is started and not awaited: gsap keeps playing it. *)
Definition spawn (tl : gsap.Timeline) : M nat := fun w =>
  (Normal (length (animations w)), started tl w).

Definition console_error (message : string) (e : Error) : M unit :=
  update (with_console (fun c => c ++ [error message e])).

(** [input.slice(start)] *)
Definition slice (start : nat) (s : string) : string :=
  String.substring start (String.length s - start) s.

(** ** The class [Game] *)

Record Game := {
  app : PIXI.Application;
  speed : Q;
  loadingScene : ref;
  gameScene : ref
}.

Definition MOVEMENT_DURATION : Q := 0.5.
Definition DELAY_BETWEEN_MOVES : Q := 0.1.
Definition MIN_LOADING_TIME : Q := 1.
Definition SPRITE_URL : string := "https://pixijs.io/examples/examples/assets/bunny.png".

(** A tween with gsap's defaults for whatever the call leaves out. *)
Definition tween (target : option ref) (vars : list gsap.Var) (duration : Q) : gsap.Tween :=
  {| gsap.target := target; gsap.vars := vars; gsap.duration := duration;
     gsap.ease := "power1.out"; gsap.delay := 0;
     gsap.onUpdate := None; gsap.onComplete := None |}.

Definition with_ease (e : string) (tw : gsap.Tween) : gsap.Tween :=
  {| gsap.target := gsap.target tw; gsap.vars := gsap.vars tw;
     gsap.duration := gsap.duration tw; gsap.ease := e; gsap.delay := gsap.delay tw;
     gsap.onUpdate := gsap.onUpdate tw; gsap.onComplete := gsap.onComplete tw |}.

Definition with_delay (d : Q) (tw : gsap.Tween) : gsap.Tween :=
  {| gsap.target := gsap.target tw; gsap.vars := gsap.vars tw;
     gsap.duration := gsap.duration tw; gsap.ease := gsap.ease tw; gsap.delay := d;
     gsap.onUpdate := gsap.onUpdate tw; gsap.onComplete := gsap.onComplete tw |}.

Definition with_onUpdate (f : Callback) (tw : gsap.Tween) : gsap.Tween :=
  {| gsap.target := gsap.target tw; gsap.vars := gsap.vars tw;
     gsap.duration := gsap.duration tw; gsap.ease := gsap.ease tw;
     gsap.delay := gsap.delay tw;
     gsap.onUpdate := Some f; gsap.onComplete := gsap.onComplete tw |}.

Definition with_onComplete (f : Callback) (tw : gsap.Tween) : gsap.Tween :=
  {| gsap.target := gsap.target tw; gsap.vars := gsap.vars tw;
     gsap.duration := gsap.duration tw; gsap.ease := gsap.ease tw;
     gsap.delay := gsap.delay tw;
     gsap.onUpdate := gsap.onUpdate tw; gsap.onComplete := Some f |}.

Section Game.

(** The module [./input] and the page are not part of the class. *)
Variable inputData : list string.
Variable devicePixelRatio : Q.
Variable Assets_init : Promise unit.
Variable Assets_load : string -> Promise PIXI.Texture.

Definition new_Application (width height : Q) (backgroundColor : Z) (resolution : Q)
  : M PIXI.Application :=
  stage ← construct (PIXI.Container []);
  mret {| PIXI.width := width; PIXI.height := height;
          PIXI.backgroundColor := backgroundColor;
          PIXI.resolution := resolution; PIXI.stage := stage |}.

Definition constructor : M Game :=
  app ← new_Application 800 600 0x1099bb
          (if Qeq_bool devicePixelRatio 0 then 1 else devicePixelRatio);
  (* Initialize scenes *)
  loadingScene ← construct (PIXI.Container []);
  gameScene ← construct (PIXI.Container []);
  (* Add scenes to stage *)
  assign (PIXI.stage app) (add_child loadingScene);;
  assign (PIXI.stage app) (add_child gameScene);;
  (* Hide game scene initially *)
  assign gameScene (set_alpha 0);;
  mret {| app := app; speed := 10;
          loadingScene := loadingScene; gameScene := gameScene |}.

Definition showLoadingScreen (this : Game) : M unit :=
  loadingText ← construct (PIXI.Text "Loading... 0%"
    {| PIXI.fontFamily := "Arial"; PIXI.fontSize := 24; PIXI.fill := 0xffffff |});
  assign loadingText (anchor_set 0.5);;
  assign loadingText (set_x (PIXI.width (app this) / 2));;
  assign loadingText (set_y (PIXI.height (app this) / 2));;
  assign loadingText (set_alpha 0);;
  assign (loadingScene this) (add_child loadingText).

Definition showError (this : Game) : M unit :=
  errorText ← construct (PIXI.Text "Error loading game assets"
    {| PIXI.fontFamily := "Arial"; PIXI.fontSize := 24; PIXI.fill := 0xff0000 |});
  assign errorText (anchor_set 0.5);;
  assign errorText (set_x (PIXI.width (app this) / 2));;
  assign errorText (set_y (PIXI.height (app this) / 2));;
  assign (loadingScene this) remove_children;;
  assign (loadingScene this) (add_child errorText).

(** The body of the [forEach]: [currentX] is the captured variable, the
    timeline the object the loop appends to. *)
Definition move (this : Game) (sprite : ref) (state : gsap.Timeline * Q) (input : string)
  : gsap.Timeline * Q :=
  let '(timeline, currentX) := state in
  let command := String.get 0 (slice 1 input) in
  let magnitude := if decide (command = Some "+"%char) then speed this else - speed this in
  let currentX := currentX + magnitude in
  (gsap.to timeline
     (with_delay DELAY_BETWEEN_MOVES
        (with_ease "back.in"
           (tween (Some sprite) [gsap.to_x currentX] MOVEMENT_DURATION)))
     gsap.AtEnd,
   currentX).

Definition createAnimationTimeline (this : Game) (sprite : ref) : M unit :=
  let timeline := gsap.timeline None in
  currentX ← read_x sprite;
  let timeline := (foldl (move this sprite) (timeline, currentX) inputData).1 in
  spawn (gsap.then_ timeline (reportFinal sprite));;
  mret tt.

Definition setupGameScene (this : Game) (texture : PIXI.Texture) : M unit :=
  sprite ← construct (PIXI.Sprite texture);
  assign sprite (anchor_set 0.5);;
  assign sprite (set_x 400);;
  assign sprite (set_y 300);;
  assign (gameScene this) (add_child sprite);;
  createAnimationTimeline this sprite.

(** The two fades of the scene transition, the second one overlapping the
    first by 0.3 seconds. *)
Definition transitionTimeline (this : Game) : gsap.Timeline :=
  let timeline := gsap.timeline (Some (transitionComplete (loadingScene this))) in
  let timeline :=
    gsap.to timeline
      (with_ease "power2.inOut" (tween (Some (loadingScene this)) [gsap.to_alpha 0] 0.5))
      gsap.AtEnd in
  gsap.to timeline
    (with_ease "power2.inOut" (tween (Some (gameScene this)) [gsap.to_alpha 1] 0.5))
    (gsap.BeforeEnd 0.3).

Definition transitionToGame (this : Game) (texture : PIXI.Texture) : M unit :=
  (* Setup game scene before transition *)
  setupGameScene this texture;;
  (* Create and execute transition timeline *)
  await_timeline (transitionTimeline this).

(** [PIXI.Assets.load(url)] *)
Definition load (url : string) : M PIXI.Texture :=
  update (with_requests (fun l => l ++ [url]));;
  await (Assets_load url).

Definition loadAssets (this : Game) : M unit :=
  try_catch
    (loadingText ← child_at (loadingScene this) 0;
     (* Fade in loading text *)
     assign loadingText (set_alpha 0);;
     await_tween (with_ease "power2.inOut" (tween (Some loadingText) [gsap.to_alpha 1] 0.5));;
     (* Clear cache and reinitialize assets *)
     await Assets_init;;
     (* Show initial loading state *)
     assign loadingText (set_text "Loading... 0%");;
     (* Simulate loading progress while actual loading happens *)
     progressTimeline ← spawn
       (gsap.to (gsap.timeline None)
          (with_onUpdate (rampUpdate loadingText) (tween None [] MIN_LOADING_TIME))
          gsap.AtEnd);
     (* Load asset *)
     texture ← load SPRITE_URL;
     (* Complete the progress to 100% *)
     spawn
       (gsap.single
          (with_onComplete (finishComplete loadingText)
             (with_onUpdate (finishUpdate loadingText) (tween None [] 0.3))));;
     (* Pause at 100% *)
     sleep 300;;
     (* Transition to game *)
     transitionToGame this texture)
    (fun error =>
       console_error "Error loading assets:" error;;
       showError this).

Definition fadeInLoader (this : Game) : M unit :=
  (* Wait for a frame to ensure everything is set up *)
  sleep 100;;
  (* Fade in the loading scene *)
  await_tween (with_ease "power2.inOut" (tween (Some (loadingScene this)) [gsap.to_alpha 1] 0.8));;
  (* Start loading assets after fade in completes *)
  loadAssets this.

(** [fadeInLoader] is called last and not awaited; the completion of
    [initialize] below is the completion of that call. *)
Definition initialize (this : Game) : M unit :=
  update (with_mounted true);;
  (* Start with both scenes invisible *)
  assign (loadingScene this) (set_alpha 0);;
  assign (gameScene this) (set_alpha 0);;
  showLoadingScreen this;;
  fadeInLoader this.

(** Modelled from the spec: the entry point of the page is not among the
    sources.  The root controller is constructed and then initialized, its
    only two public members. *)
Definition main : M Game :=
  game ← constructor;
  initialize game;;
  mret game.

End Game.

(** ** Vocabulary of the specification *)

(** The sign token of a command is its second character, if it has one. *)
Definition sign_token (input : string) : option ascii := String.get 0 (slice 1 input).

Definition plus_count (commands : list string) : nat :=
  length (filter (fun c => sign_token c = Some "+"%char) commands).

Definition minus_count (commands : list string) : nat :=
  length (filter (fun c => sign_token c = Some "-"%char) commands).

(** The commands the [else] branch takes. *)
Definition other_count (commands : list string) : nat :=
  length (filter (fun c => sign_token c <> Some "+"%char) commands).

(** The signed sum of a sequence of tokens, in steps: one up for a ['+'],
    one down for anything else. *)
Definition signed_sum (commands : list string) : Z :=
  (Z.of_nat (plus_count commands) - Z.of_nat (other_count commands))%Z.

(** The [x] values a timeline drives its targets to, child by child. *)
Definition x_of (v : gsap.Var) : list Q :=
  match v with
  | gsap.to_x q => [q]
  | gsap.to_alpha _ => []
  end.

Definition running_targets (tl : gsap.Timeline) : list Q :=
  flat_map (fun tw => flat_map x_of (gsap.vars tw)) (map snd (gsap.children tl)).

(** The timeline [createAnimationTimeline] hands to gsap for a sprite whose
    [x] is [start]. *)
Definition movement_chain (inputData : list string) (this : Game) (sprite : ref) (start : Q)
  : gsap.Timeline :=
  gsap.then_ (foldl (move this sprite) (gsap.timeline None, start) inputData).1
    (reportFinal sprite).

(** The successive values of [currentX]. *)
Fixpoint positions (this : Game) (currentX : Q) (commands : list string) : list Q :=
  match commands with
  | [] => []
  | input :: rest =>
      let next := currentX +
        (if decide (sign_token input = Some "+"%char) then speed this else - speed this) in
      next :: positions this next rest
  end.

(** The tween [move] appends for a target position. *)
Definition step_tween (sprite : ref) (position : Q) : gsap.Tween :=
  with_delay DELAY_BETWEEN_MOVES
    (with_ease "back.in" (tween (Some sprite) [gsap.to_x position] MOVEMENT_DURATION)).

(** One step with the pause before it. *)
Definition period : Q := MOVEMENT_DURATION + DELAY_BETWEEN_MOVES.

(** The line the completion callback prints. *)
Definition final_report (value : Q) : LogEntry :=
  log "Animation sequence complete! Final position:" value.

(** The two animations [loadAssets] starts and does not await: the progress
    ramp, and the tween that completes the progress to 100%. *)
Definition ramp (loadingText : ref) : gsap.Timeline :=
  gsap.to (gsap.timeline None)
    (with_onUpdate (rampUpdate loadingText) (tween None [] MIN_LOADING_TIME))
    gsap.AtEnd.

Definition finishing (loadingText : ref) : gsap.Timeline :=
  gsap.single
    (with_onComplete (finishComplete loadingText)
       (with_onUpdate (finishUpdate loadingText) (tween None [] 0.3))).

(** The game a blank page constructs: the stage, the loading scene and the
    game scene are the first three objects. *)
Definition fresh_game (devicePixelRatio : Q) : Game :=
  {| app := {| PIXI.width := 800; PIXI.height := 600; PIXI.backgroundColor := 0x1099bb;
               PIXI.resolution := if Qeq_bool devicePixelRatio 0 then 1 else devicePixelRatio;
               PIXI.stage := 0%nat |};
     speed := 10; loadingScene := 1%nat; gameScene := 2%nat |}.

Definition loading_style : PIXI.TextStyle :=
  {| PIXI.fontFamily := "Arial"; PIXI.fontSize := 24; PIXI.fill := 0xffffff |}.

Definition error_label : PIXI.Node :=
  PIXI.Text "Error loading game assets"
    {| PIXI.fontFamily := "Arial"; PIXI.fontSize := 24; PIXI.fill := 0xff0000 |}.

(** The display objects of the error state when no frame was delivered:
    stage, loading scene, game scene, the detached loading label and the
    error label. *)
Definition error_store : gmap ref PIXI.DisplayObject :=
  <[0%nat := PIXI.create (PIXI.Container [1%nat; 2%nat])]>
  (<[1%nat := PIXI.create (PIXI.Container [4%nat])]>
  (<[2%nat := set_alpha 0 (PIXI.create (PIXI.Container []))]>
  (<[3%nat := set_y (600 / 2) (set_x (800 / 2) (anchor_set 0.5
                (PIXI.create (PIXI.Text "Loading... 0%" loading_style))))]>
  (<[4%nat := set_y (600 / 2) (set_x (800 / 2) (anchor_set 0.5
                (PIXI.create error_label)))]> ∅)))).

Definition is_sprite (o : PIXI.DisplayObject) : bool :=
  match PIXI.node o with
  | PIXI.Sprite _ => true
  | _ => false
  end.

(** ** Runs with and without frames

    A run under an arbitrary frame oracle is compared with the run of the
    same program in which no frame is ever delivered.  The two worlds agree
    on everything but the [x] of display objects, the console, the
    animations that have already finished, and the text of a label that one
    of the started callbacks writes, which is then a percentage that
    callback can print. *)

(** The oracle that never delivers a frame. *)
Definition quiet : nat -> list Event := fun _ => [].

Definition tween_callbacks (tw : gsap.Tween) : list Callback :=
  option_list (gsap.onUpdate tw) ++ option_list (gsap.onComplete tw).

Definition timeline_callbacks (tl : gsap.Timeline) : list Callback :=
  flat_map (fun c => tween_callbacks c.2) (gsap.children tl)
  ++ option_list (gsap.completed tl) ++ option_list (gsap.thenCallback tl).

Definition started_callbacks (l : list (option gsap.Timeline)) : list Callback :=
  flat_map (fun a => from_option timeline_callbacks [] a) l.

(** The percentages a started callback can print on label [r]. *)
Definition may_write (cbs : list Callback) (r : ref) (n : Z) : Prop :=
  (rampUpdate r ∈ cbs /\ (0 <= n <= 90)%Z)
  \/ ((finishUpdate r ∈ cbs \/ finishComplete r ∈ cbs) /\ (0 <= n <= 100)%Z).

Definition sim_text (cbs : list Callback) (r : ref) (s1 s2 : string) : Prop :=
  s1 = s2 \/ exists n, may_write cbs r n /\ s1 = loading_label n.

Definition sim_node (cbs : list Callback) (r : ref) (n1 n2 : PIXI.Node) : Prop :=
  match n1, n2 with
  | PIXI.Container c1, PIXI.Container c2 => c1 = c2
  | PIXI.Sprite t1, PIXI.Sprite t2 => t1 = t2
  | PIXI.Text s1 st1, PIXI.Text s2 st2 => st1 = st2 /\ sim_text cbs r s1 s2
  | _, _ => False
  end.

Definition sim_obj (cbs : list Callback) (r : ref) (o1 o2 : PIXI.DisplayObject) : Prop :=
  sim_node cbs r (PIXI.node o1) (PIXI.node o2)
  /\ PIXI.y o1 = PIXI.y o2 /\ PIXI.alpha o1 = PIXI.alpha o2
  /\ PIXI.anchor o1 = PIXI.anchor o2.

Definition is_to_x (v : gsap.Var) : Prop :=
  match v with
  | gsap.to_x _ => True
  | gsap.to_alpha _ => False
  end.

Definition harmless_callback (cb : Callback) : Prop :=
  match cb with
  | transitionComplete _ => False
  | _ => True
  end.

(** A timeline that animates nothing but [x] and whose callbacks leave the
    scene graph alone. *)
Definition harmless (tl : gsap.Timeline) : Prop :=
  Forall (fun c => Forall is_to_x (gsap.vars c.2)) (gsap.children tl)
  /\ Forall harmless_callback (timeline_callbacks tl).

(** [sim w1 w2]: [w1] is a world of the run with frames, [w2] the world of
    the run without at the same point of the program. *)
Record sim (w1 w2 : World) : Prop := {
  sim_objects : forall r,
    option_Forall2 (sim_obj (started_callbacks (animations w2)) r)
      (objects w1 !! r) (objects w2 !! r);
  sim_animations :
    Forall2 (fun a1 a2 => a1 = a2 \/ a1 = None) (animations w1) (animations w2);
  sim_harmless : Forall (from_option harmless True) (animations w2);
  sim_requests : requests w1 = requests w2;
  sim_mounted : mounted w1 = mounted w2;
  sim_elapsed : elapsed w1 = elapsed w2;
  sim_tick : tick w1 = tick w2;
  sim_quiet : forall k, frames w2 k = []
}.

(** A method that cannot tell the two worlds apart. *)
Definition respects {A} (m : M A) : Prop :=
  forall w1 w2, sim w1 w2 -> (m w1).1 = (m w2).1 /\ sim (m w1).2 (m w2).2.

(** A property write both worlds can make. *)
Definition compatible (f : PIXI.DisplayObject -> PIXI.DisplayObject) : Prop :=
  forall cbs r o1 o2, sim_obj cbs r o1 o2 -> sim_obj cbs r (f o1) (f o2).

(** Two worlds with the same fields apart from the display objects. *)
Definition same_but_objects (w w' : World) : Prop :=
  animations w' = animations w /\ console w' = console w /\ requests w' = requests w
  /\ mounted w' = mounted w /\ elapsed w' = elapsed w /\ frames w' = frames w
  /\ tick w' = tick w.

(** A method that leaves the frames to come as they are. *)
Definition keeps_frames {A} (m : M A) : Prop :=
  forall w, frames (m w).2 = frames w.

(** A frame in the middle of a tween, as opposed to the frame in which a
    tween or a timeline ends. *)
Definition is_update (e : Event) : Prop :=
  match e with
  | Update _ _ _ _ => True
  | _ => False
  end.

(** ** Sample inputs *)

(** A page holding one sprite at the centre of the canvas. *)
Definition sample_sprite : PIXI.DisplayObject :=
  set_y 300 (set_x 400 (anchor_set 0.5
    (PIXI.create (PIXI.Sprite (PIXI.texture SPRITE_URL))))).

Definition sample_world : World := with_objects (insert 0%nat sample_sprite) (blank quiet).

Definition sample_game : Game := fresh_game 1.

(** The frames in which the finishing tween ends during the pause, the sixth
    suspension point of a run. *)
Definition finish_in_pause : nat -> list Event :=
  fun k => if decide (k = 5%nat) then [Complete 1 0 1] else [].

(** ** The unused method [start]

    The class keeps the [start] of its earlier, scene-less version: the same
    sprite and the same chain as [setupGameScene], with the stage as parent.
    No method of the class calls it. *)

Definition start (inputData : list string) (this : Game) (texture : PIXI.Texture) : M unit :=
  sprite ← construct (PIXI.Sprite texture);
  assign sprite (anchor_set 0.5);;
  assign sprite (set_x 400);;  (* Center the sprite horizontally *)
  assign sprite (set_y 300);;  (* Center the sprite vertically *)
  assign (PIXI.stage (app this)) (add_child sprite);;
  createAnimationTimeline inputData this sprite.

(** ** The first version of the class: moves without animation

    The earliest [Game] has no loader, no scenes and no tweens: [start]
    creates the sprite, walks through the commands and moves the sprite at
    once, logging every position. *)

(** [for (...) { body }] and [forEach] over the values a loop variable takes *)
Fixpoint for_each {A} (l : list A) (body : A -> M unit) : M unit :=
  match l with
  | [] => mret tt
  | a :: rest => body a;; for_each rest body
  end.

(** [console.log(message, value)]; a bare [console.log(value)] has the empty
    message. *)
Definition console_log (message : string) (value : Q) : M unit :=
  update (with_console (fun c => c ++ [log message value])).

(** [s[i]]: the string of the one code unit at [i], [undefined] past the end *)
Definition index (s : string) (i : nat) : option string :=
  (fun c => String c EmptyString) <$> String.get i s.

(** [s.charAt(i)]: the empty string past the end *)
Definition charAt (i : nat) (s : string) : string := default EmptyString (index s i).

Module Basic.

Record Game := {
  app : PIXI.Application;
  speed : Q
}.

Definition constructor (devicePixelRatio : Q) : M Game :=
  app ← new_Application 800 600 0x1099bb
          (if Qeq_bool devicePixelRatio 0 then 1 else devicePixelRatio);
  mret {| app := app; speed := 1 |}.

(** The closure [rotate] of [start]; [command] is [undefined] when the caller
    indexes past the end of a string. *)
Definition rotate (this : Game) (sprite : ref) (dir : string) (command : option string)
  : M unit :=
  let vel := if decide (command = Some "-"%string) then - speed this else speed this in
  (if decide (dir = "L"%string)
   then x ← read_x sprite; assign sprite (set_x (x + vel))
   else x ← read_x sprite; assign sprite (set_x (x + vel * -1)));;
  x ← read_x sprite;
  console_log "" x.

Definition start (inputData : list string) (this : Game) : M unit :=
  sprite ← construct (PIXI.Sprite (PIXI.texture SPRITE_URL));
  assign sprite (anchor_set 0.5);;
  assign (PIXI.stage (app this)) (add_child sprite);;
  (* Process each input command *)
  for_each inputData (fun input =>
    let dir := charAt 0 input in
    let command := slice 1 input in
    for_each (seq 0 (String.length command)) (fun i =>
      console_log "commands:" (inject_Z (Z.of_nat (String.length command)));;
      for_each (seq 0 (String.length command)) (fun j =>
        rotate this sprite dir (index command i ≫= fun ci => index ci j))));;
  x ← read_x sprite;
  console_log "Final output " x.
  (* [this.app.ticker.add(() => {})] registers a callback that does nothing *)

Definition initialize (inputData : list string) (this : Game) : M unit :=
  update (with_mounted true);;
  start inputData this.

(** What one call of [rotate] adds to [x], in steps of [speed]. *)
Definition step (dir : string) (command : option string) : Z :=
  ((if decide (dir = "L"%string) then 1 else -1)
   * (if decide (command = Some "-"%string) then -1 else 1))%Z.

(** What one command does to [x], in steps of [speed]: [k * k] calls of
    [rotate] for [k] characters after the first, of which only the [k]
    calls with [j = 0] see a character; the direction turns the sign. *)
Definition minus_signs (command : string) : nat :=
  length (filter (fun c => c = "-"%char) (String.list_ascii_of_string command)).

Definition displacement (input : string) : Z :=
  let k := Z.of_nat (String.length (slice 1 input)) in
  let m := Z.of_nat (minus_signs (slice 1 input)) in
  ((if decide (charAt 0 input = "L"%string) then 1 else -1) * (k * k - 2 * m))%Z.

Definition total_displacement (inputData : list string) : Z :=
  foldr (fun input acc => (displacement input + acc)%Z) 0%Z inputData.

(** The lines one command logs: one per pass of the outer loop and one per
    call of [rotate]. *)
Definition lines_logged (input : string) : nat :=
  let k := String.length (slice 1 input) in (k + k * k)%nat.

Definition total_lines (inputData : list string) : nat :=
  foldr (fun input acc => (lines_logged input + acc)%nat) 0%nat inputData.

End Basic.

(** ** More vocabulary *)

(** The percentages the two [onUpdate] callbacks of [loadAssets] print when
    the part [p] of the progress timeline has played:
    [Math.floor(progress * 90)] and
    [Math.floor(Math.min(1, progress + 0.1) * 100)]. *)
Definition ramp_percent (p : Q) : Z := Qfloor (Number.mul (round64 p) 90).

Definition finish_percent (p : Q) : Z :=
  Qfloor (Number.mul (Qmin 1 (Number.add (round64 p) (Number.literal 0.1))) 100).

(** The page right after the constructor has run. *)
Definition constructed : World := (constructor 1 (blank quiet)).2.

(** The rest of a run of the page once the promise of the load has settled:
    the tail of [loadAssets] inside its [try], and the return of [main].
    The label is the fourth object of the page. *)
Definition after_load (inputData : list string) (devicePixelRatio : Q)
  (outcome : Promise PIXI.Texture) : M Game :=
  try_catch
    (texture ← match outcome with
               | Resolves a => mret a
               | Rejects e => throw e
               | Pending => fun w => (Hang, w)
               end;
     spawn (finishing 3%nat);;
     sleep 300;;
     transitionToGame inputData (fresh_game devicePixelRatio) texture)
    (fun error =>
       console_error "Error loading assets:" error;;
       showError (fresh_game devicePixelRatio))
  ≫= fun _ => mret (fresh_game devicePixelRatio).

(** [w'] is [w] with [sprite] moved by [d] and [n] more lines on the
    console; nothing else differs. *)
Definition moved (sprite : ref) (w w' : World) (d : Q) (n : nat) : Prop :=
  exists o o' lines,
    objects w !! sprite = Some o /\ objects w' !! sprite = Some o'
    /\ PIXI.x o' == PIXI.x o + d
    /\ PIXI.node o' = PIXI.node o /\ PIXI.y o' = PIXI.y o
    /\ PIXI.alpha o' = PIXI.alpha o /\ PIXI.anchor o' = PIXI.anchor o
    /\ (forall r, r <> sprite -> objects w' !! r = objects w !! r)
    /\ console w' = console w ++ lines /\ length lines = n
    /\ animations w' = animations w /\ requests w' = requests w
    /\ mounted w' = mounted w /\ elapsed w' = elapsed w /\ tick w' = tick w.

(** ** The movement chain *)

Lemma move_unfold this sprite tl currentX input :
  move this sprite (tl, currentX) input =
  let next := currentX +
    (if decide (sign_token input = Some "+"%char) then speed this else - speed this) in
  (gsap.to tl (step_tween sprite next) gsap.AtEnd, next).
Proof. reflexivity. Qed.

Lemma foldl_move_children this sprite commands : forall tl currentX,
  map snd (gsap.children (foldl (move this sprite) (tl, currentX) commands).1) =
  map snd (gsap.children tl) ++ map (step_tween sprite) (positions this currentX commands).
Proof.
  induction commands as [|input rest IH]; intros tl currentX.
  - cbn. by rewrite app_nil_r.
  - cbn [foldl positions]. rewrite move_unfold. cbv zeta. rewrite IH.
    cbn [gsap.to gsap.children]. rewrite map_app. cbn [map snd].
    by rewrite <- app_assoc.
Qed.

Lemma foldl_move_callbacks this sprite commands : forall tl currentX,
  let r := (foldl (move this sprite) (tl, currentX) commands).1 in
  gsap.completed r = gsap.completed tl /\ gsap.thenCallback r = gsap.thenCallback tl.
Proof.
  induction commands as [|input rest IH]; intros tl currentX; [done|].
  cbn [foldl]. rewrite move_unfold. cbv zeta.
  destruct (IH (gsap.to tl (step_tween sprite
    (currentX + (if decide (sign_token input = Some "+"%char)
                 then speed this else - speed this))) gsap.AtEnd)
    (currentX + (if decide (sign_token input = Some "+"%char)
                 then speed this else - speed this))) as [H1 H2].
  cbv zeta in H1, H2. rewrite H1, H2. done.
Qed.

Lemma positions_length this commands : forall currentX,
  length (positions this currentX commands) = length commands.
Proof. induction commands; intros; cbn; [done|]. by rewrite IHcommands. Qed.

Lemma running_targets_steps sprite ps tl :
  map snd (gsap.children tl) = map (step_tween sprite) ps -> running_targets tl = ps.
Proof.
  unfold running_targets. intros ->. induction ps as [|p ps IH]; [done|].
  cbn. by rewrite IH.
Qed.

Lemma movement_chain_children inputData this sprite start :
  map snd (gsap.children (movement_chain inputData this sprite start)) =
  map (step_tween sprite) (positions this start inputData).
Proof.
  unfold movement_chain. cbn [gsap.then_ gsap.children].
  by rewrite foldl_move_children.
Qed.

Lemma movement_chain_targets inputData this sprite start :
  running_targets (movement_chain inputData this sprite start) =
  positions this start inputData.
Proof. apply (running_targets_steps sprite), movement_chain_children. Qed.

Lemma movement_chain_callbacks inputData this sprite start :
  gsap.completed (movement_chain inputData this sprite start) = None /\
  gsap.thenCallback (movement_chain inputData this sprite start) = Some (reportFinal sprite).
Proof.
  unfold movement_chain. cbn [gsap.then_ gsap.completed gsap.thenCallback].
  split; [|done]. apply (foldl_move_callbacks this sprite inputData (gsap.timeline None) start).
Qed.

Lemma createAnimationTimeline_run inputData this sprite w o :
  objects w !! sprite = Some o ->
  createAnimationTimeline inputData this sprite w =
  (Normal tt,
   with_animations (fun l => l ++ [Some (movement_chain inputData this sprite (PIXI.x o))]) w).
Proof.
  intros Ho. unfold createAnimationTimeline, mbind, M_bind, read_x. rewrite Ho.
  reflexivity.
Qed.

(** *** Positions as signed sums *)

Lemma plus_count_cons input rest :
  plus_count (input :: rest) =
  ((if decide (sign_token input = Some "+"%char) then 1 else 0) + plus_count rest)%nat.
Proof.
  unfold plus_count. rewrite filter_cons. destruct (decide _); done.
Qed.

Lemma other_count_cons input rest :
  other_count (input :: rest) =
  ((if decide (sign_token input = Some "+"%char) then 0 else 1) + other_count rest)%nat.
Proof.
  unfold other_count. rewrite filter_cons.
  destruct (decide (sign_token input ≠ _)), (decide (sign_token input = _)); done.
Qed.

Lemma signed_sum_cons input rest :
  signed_sum (input :: rest) =
  ((if decide (sign_token input = Some "+"%char) then 1 else -1) + signed_sum rest)%Z.
Proof.
  unfold signed_sum. rewrite plus_count_cons, other_count_cons.
  destruct (decide _); lia.
Qed.

Lemma counts_total commands :
  (plus_count commands + other_count commands)%nat = length commands.
Proof.
  induction commands as [|input rest IH]; [done|].
  rewrite plus_count_cons, other_count_cons. cbn [length].
  destruct (decide _); lia.
Qed.

(** When every sign token is ['+'] or ['-'], the other tokens are the ['-']
    tokens. *)
Lemma other_count_minus commands :
  Forall (fun c => sign_token c = Some "+"%char \/ sign_token c = Some "-"%char) commands ->
  other_count commands = minus_count commands.
Proof.
  induction 1 as [|input rest Hin _ IH]; [done|].
  rewrite other_count_cons. unfold minus_count in *. rewrite filter_cons.
  destruct (decide (sign_token input = Some "+"%char)) as [E|E],
           (decide (sign_token input = Some "-"%char)) as [E'|E']; cbn [length];
    try (rewrite E in E'; discriminate); try lia.
  destruct Hin; contradiction.
Qed.

Lemma step_magnitude this input :
  (if decide (sign_token input = Some "+"%char) then speed this else - speed this) ==
  speed this * inject_Z (if decide (sign_token input = Some "+"%char) then 1 else -1).
Proof. destruct (decide _); unfold inject_Z; lra. Qed.

(** [ring] with the injections of integers taken as atoms. *)
Ltac qring :=
  repeat match goal with
         | |- context [inject_Z ?z] => generalize (inject_Z z); intro
         end;
  ring.

Lemma signed_sum_nil : inject_Z (signed_sum []) = 0.
Proof. reflexivity. Qed.

Lemma positions_lookup this commands : forall currentX i t,
  positions this currentX commands !! i = Some t ->
  t == currentX + speed this * inject_Z (signed_sum (take (S i) commands)).
Proof.
  induction commands as [|input rest IH]; intros currentX i t Hi; [done|].
  cbn [positions] in Hi. cbn [take]. rewrite signed_sum_cons, inject_Z_plus.
  destruct i as [|i].
  - injection Hi as <-. rewrite take_0, signed_sum_nil, step_magnitude. qring.
  - apply IH in Hi. rewrite Hi, step_magnitude. qring.
Qed.

Lemma last_cons_default {A} (l : list A) : forall d a : A,
  default d (last (a :: l)) = default a (last l).
Proof.
  induction l as [|b l IH]; intros d a; [done|].
  change (last (a :: b :: l)) with (last (b :: l)).
  by rewrite (IH d b), (IH a b).
Qed.

Lemma positions_last this commands : forall currentX,
  default currentX (last (positions this currentX commands)) ==
  currentX + speed this * inject_Z (signed_sum commands).
Proof.
  induction commands as [|input rest IH]; intros currentX.
  - change (currentX == currentX + speed this * inject_Z (signed_sum [])).
    rewrite signed_sum_nil. ring.
  - rewrite signed_sum_cons, inject_Z_plus.
    cbn [positions]. rewrite last_cons_default, IH, step_magnitude. qring.
Qed.

(** *** Playing the chain *)

Lemma complete_step sprite position w :
  complete_tween 1 (step_tween sprite position) w = modify sprite (set_x position) w.
Proof. reflexivity. Qed.

Lemma play_steps sprite : forall ps (cs : list (Q * gsap.Tween)) w,
  map snd cs = map (step_tween sprite) ps ->
  foldl (fun w c => complete_tween 1 c.2 w) w cs =
  foldl (fun w p => modify sprite (set_x p) w) w ps.
Proof.
  induction ps as [|p ps IH]; intros cs w Hcs.
  - by destruct cs.
  - destruct cs as [|c cs]; [done|]. cbn in Hcs. injection Hcs as Hc Hcs.
    cbn [foldl]. rewrite Hc, complete_step. by apply IH.
Qed.

Lemma foldl_modify_frame sprite : forall ps w,
  same_but_objects w (foldl (fun w p => modify sprite (set_x p) w) w ps).
Proof.
  induction ps as [|p ps IH]; intros w; [done|].
  cbn [foldl]. destruct (IH (modify sprite (set_x p) w)) as (?&?&?&?&?&?&?).
  repeat split; etrans; eauto.
Qed.

Lemma foldl_modify_other sprite r : forall ps w,
  r <> sprite ->
  objects (foldl (fun w p => modify sprite (set_x p) w) w ps) !! r = objects w !! r.
Proof.
  induction ps as [|p ps IH]; intros w Hr; [done|].
  cbn [foldl]. rewrite IH by done. cbn. by rewrite lookup_alter_ne.
Qed.

Lemma foldl_modify_sprite sprite : forall ps w o,
  objects w !! sprite = Some o ->
  objects (foldl (fun w p => modify sprite (set_x p) w) w ps) !! sprite =
  Some (set_x (default (PIXI.x o) (last ps)) o).
Proof.
  induction ps as [|p ps IH]; intros w o Ho.
  - cbn. rewrite Ho. by destruct o.
  - cbn [foldl]. rewrite (IH _ (set_x p o)).
    + by rewrite (last_cons_default ps (PIXI.x o) p).
    + cbn. by rewrite lookup_alter_eq, Ho.
Qed.

(** Playing the chain of a sprite leaves the sprite at the last position (or
    where it was, when there is none), prints that position and touches
    nothing else. *)
Lemma play_movement_chain inputData this sprite start w o :
  objects w !! sprite = Some o ->
  let final := default (PIXI.x o) (last (positions this start inputData)) in
  let w' := play (movement_chain inputData this sprite start) w in
  objects w' !! sprite = Some (set_x final o)
  /\ (forall r, r <> sprite -> objects w' !! r = objects w !! r)
  /\ console w' = console w ++ [final_report final]
  /\ animations w' = animations w /\ requests w' = requests w
  /\ mounted w' = mounted w /\ elapsed w' = elapsed w.
Proof.
  intros Ho final w'. subst w'. unfold play, finish_timeline.
  destruct (movement_chain_callbacks inputData this sprite start) as [-> ->].
  rewrite (play_steps sprite (positions this start inputData))
    by apply movement_chain_children.
  pose proof (foldl_modify_sprite sprite (positions this start inputData) w o Ho) as Hs.
  destruct (foldl_modify_frame sprite (positions this start inputData) w)
    as (Ha&Hc&Hr&Hm&He&_&_).
  cbn [run_callback_opt run_callback]. rewrite Hs. cbn.
  rewrite Hs, Hc. repeat split; try done.
  intros r Hr'. by apply foldl_modify_other.
Qed.

(** *** The schedule of the chain *)

Lemma latest_snoc cs c :
  gsap.latest (cs ++ [c]) == Qmax (gsap.latest cs) (gsap.endTime c).
Proof.
  induction cs as [|a cs IH].
  - cbn. apply Q.max_comm.
  - change (Qmax (gsap.endTime a) (gsap.latest (cs ++ [c])) ==
            Qmax (Qmax (gsap.endTime a) (gsap.latest cs)) (gsap.endTime c)).
    rewrite IH. apply Q.max_assoc.
Qed.

Lemma inject_nat_succ (n : nat) :
  inject_Z (Z.of_nat (S n)) == inject_Z (Z.of_nat n) + 1.
Proof. rewrite Nat2Z.inj_succ. unfold Z.succ. by rewrite inject_Z_plus. Qed.

(** The two fades of the transition end in the order they were appended, the
    second one 0.7 seconds after the first one started. *)
Lemma transition_order this :
  Forall2 (fun c ends => c.1 == ends.1 /\ gsap.endTime c == ends.2)
    (gsap.children (transitionTimeline this)) [(0, 0.5); (0.2, 0.7)]
  /\ gsap.totalDuration (transitionTimeline this) == 0.7.
Proof. split; [repeat constructor|]; by vm_compute. Qed.

Lemma children_to tl tw :
  gsap.children (gsap.to tl tw gsap.AtEnd) =
  gsap.children tl ++ [(gsap.totalDuration tl + gsap.delay tw, tw)].
Proof. reflexivity. Qed.

Lemma chain_schedule this sprite commands currentX :
  let r := (foldl (move this sprite) (gsap.timeline None, currentX) commands).1 in
  length (gsap.children r) = length commands
  /\ gsap.totalDuration r == inject_Z (Z.of_nat (length commands)) * period
  /\ forall i c, gsap.children r !! i = Some c ->
       c.1 == inject_Z (Z.of_nat i) * period + DELAY_BETWEEN_MOVES
       /\ gsap.endTime c == (inject_Z (Z.of_nat i) + 1) * period.
Proof.
  induction commands as [|input commands IH] using rev_ind.
  - cbn. repeat split; done.
  - rewrite foldl_app. cbn [foldl].
    destruct (foldl (move this sprite) (gsap.timeline None, currentX) commands)
      as [tl cur] eqn:E.
    cbn [fst] in IH. destruct IH as (Hlen & Htotal & Hchildren).
    rewrite move_unfold. cbv zeta. cbn [fst].
    set (tw := step_tween sprite _). rewrite children_to.
    assert (Hend : gsap.endTime (gsap.totalDuration tl + gsap.delay tw, tw) ==
                   (inject_Z (Z.of_nat (length commands)) + 1) * period).
    { unfold gsap.endTime. cbn [fst snd]. subst tw. cbn [step_tween with_delay
        with_ease tween gsap.delay gsap.duration]. rewrite Htotal. unfold period. ring. }
    split; [|split].
    + rewrite !length_app, Hlen. done.
    + unfold gsap.totalDuration at 1. rewrite children_to, latest_snoc, Hend.
      fold (gsap.totalDuration tl). rewrite Htotal, length_app. cbn [length].
      rewrite Nat.add_1_r, inject_nat_succ.
      apply Q.max_r. unfold period, MOVEMENT_DURATION, DELAY_BETWEEN_MOVES.
      generalize (inject_Z (Z.of_nat (length commands))). intros q. lra.
    + intros i c Hi. destruct (decide (i < length (gsap.children tl))%nat) as [Hlt|Hge].
      * rewrite lookup_app_l in Hi by done. by apply Hchildren.
      * rewrite lookup_app_r in Hi by lia.
        destruct (i - length (gsap.children tl))%nat as [|k] eqn:Ek; [|done].
        injection Hi as <-. assert (i = length commands) as -> by lia.
        split; [|done]. cbn [fst]. subst tw. cbn [step_tween with_delay
          with_ease tween gsap.delay]. by rewrite Htotal.
Qed.

(** ** What the frames of the ticker can and cannot change *)

(** *** Display objects *)

Lemma sim_text_mono cbs cbs' r s1 s2 :
  (forall cb, cb ∈ cbs -> cb ∈ cbs') -> sim_text cbs r s1 s2 -> sim_text cbs' r s1 s2.
Proof.
  intros Hsub [->|(n & Hn & ->)]; [by left|]. right. exists n. split; [|done].
  destruct Hn as [[? ?]|[[?|?] ?]]; [left|right|right]; auto.
Qed.

Lemma sim_obj_mono cbs cbs' r o1 o2 :
  (forall cb, cb ∈ cbs -> cb ∈ cbs') -> sim_obj cbs r o1 o2 -> sim_obj cbs' r o1 o2.
Proof.
  intros Hsub (Hn & ?). split; [|done]. unfold sim_node in *.
  destruct (PIXI.node o1), (PIXI.node o2); try done.
  destruct Hn. eauto using sim_text_mono.
Qed.

Lemma sim_obj_refl cbs r o : sim_obj cbs r o o.
Proof. split; [|done]. unfold sim_node. destruct (PIXI.node o); try done. by split; [|left]. Qed.

(** Case analysis on the two objects of a [sim_obj] hypothesis. *)
Ltac sim_cases :=
  intros [[?|?|? ?] ? ? ? ?] [[?|?|? ?] ? ? ? ?] (Hn & ? & ? & ?);
  cbn in *; try contradiction; subst.

Lemma compatible_set_x v : compatible (set_x v).
Proof. by intros cbs r o1 o2 (?&?&?&?). Qed.

Lemma compatible_set_y v : compatible (set_y v).
Proof. by intros cbs r o1 o2 (?&?&?&?). Qed.

Lemma compatible_set_alpha v : compatible (set_alpha v).
Proof. by intros cbs r o1 o2 (?&?&?&?). Qed.

Lemma compatible_anchor_set v : compatible (anchor_set v).
Proof. by intros cbs r o1 o2 (?&?&?&?). Qed.

Lemma compatible_set_text s : compatible (set_text s).
Proof.
  intros cbs r. sim_cases; try done. destruct Hn as [-> _].
  repeat split. by left.
Qed.

Lemma compatible_add_child c : compatible (add_child c).
Proof. intros cbs r. sim_cases; done. Qed.

Lemma compatible_remove_children : compatible remove_children.
Proof. intros cbs r. sim_cases; done. Qed.

(** Writes only the run with frames makes. *)
Lemma drift_set_x cbs r v o1 o2 : sim_obj cbs r o1 o2 -> sim_obj cbs r (set_x v o1) o2.
Proof. by intros (?&?&?&?). Qed.

Lemma drift_set_text cbs r n o1 o2 :
  may_write cbs r n -> sim_obj cbs r o1 o2 -> sim_obj cbs r (set_text (loading_label n) o1) o2.
Proof.
  intros Hw. revert o1 o2. sim_cases; try done. destruct Hn as [-> _].
  repeat split. right. by exists n.
Qed.

(** *** Worlds *)

Lemma sim_modify r f w1 w2 :
  compatible f -> sim w1 w2 -> sim (modify r f w1) (modify r f w2).
Proof.
  intros Hf [Ho Ha Hh Hr Hm He Ht Hq]. split; try done.
  intros r'. cbn. rewrite !lookup_alter. destruct (decide (r = r')) as [->|]; [|apply Ho].
  destruct (Ho r') as [o1 o2 Hsim|]; constructor. by apply Hf.
Qed.

Lemma sim_drift r f w1 w2 :
  (forall o1 o2, sim_obj (started_callbacks (animations w2)) r o1 o2 ->
                 sim_obj (started_callbacks (animations w2)) r (f o1) o2) ->
  sim w1 w2 -> sim (modify r f w1) w2.
Proof.
  intros Hf [Ho Ha Hh Hr Hm He Ht Hq]. split; try done.
  intros r'. cbn. rewrite lookup_alter. destruct (decide (r = r')) as [->|]; [|apply Ho].
  destruct (Ho r') as [o1 o2 Hsim|]; constructor. by apply Hf.
Qed.

Lemma sim_console f w1 w2 : sim w1 w2 -> sim (with_console f w1) w2.
Proof. by intros []. Qed.

Lemma sim_console_r f w1 w2 : sim w1 w2 -> sim w1 (with_console f w2).
Proof. by intros []. Qed.

Lemma sim_elapsed_both f w1 w2 : sim w1 w2 -> sim (with_elapsed f w1) (with_elapsed f w2).
Proof. intros []. split; try done. cbn. congruence. Qed.

Lemma sim_requests_both f w1 w2 : sim w1 w2 -> sim (with_requests f w1) (with_requests f w2).
Proof. intros []. split; try done. cbn. congruence. Qed.

Lemma sim_mounted_both b w1 w2 : sim w1 w2 -> sim (with_mounted b w1) (with_mounted b w2).
Proof. by intros []. Qed.

Lemma sim_tick_both w1 w2 : sim w1 w2 -> sim (with_tick S w1) (with_tick S w2).
Proof. intros []. split; try done. cbn. congruence. Qed.

Lemma sim_dom w1 w2 : sim w1 w2 -> dom (objects w1) = dom (objects w2).
Proof.
  intros [Ho _ _ _ _ _ _ _]. apply set_eq. intros r. rewrite !elem_of_dom.
  destruct (Ho r); split; intros [? ?]; by eauto.
Qed.

Lemma sim_insert r o w1 w2 :
  sim w1 w2 -> sim (with_objects (insert r o) w1) (with_objects (insert r o) w2).
Proof.
  intros [Ho Ha Hh Hr Hm He Ht Hq]. split; try done.
  intros r'. cbn. rewrite !lookup_insert. destruct (decide (r = r')); [|apply Ho].
  constructor. apply sim_obj_refl.
Qed.

Lemma started_callbacks_app l1 l2 :
  started_callbacks (l1 ++ l2) = started_callbacks l1 ++ started_callbacks l2.
Proof. unfold started_callbacks. by rewrite flat_map_app. Qed.

Lemma sim_spawn tl w1 w2 :
  harmless tl -> sim w1 w2 ->
  sim (with_animations (fun l => l ++ [Some tl]) w1)
      (with_animations (fun l => l ++ [Some tl]) w2).
Proof.
  intros Htl [Ho Ha Hh Hr Hm He Ht Hq]. split; try done; cbn.
  - intros r. destruct (Ho r) as [o1 o2 Hsim|]; constructor.
    eapply sim_obj_mono; [|done]. intros cb Hcb.
    rewrite started_callbacks_app. apply elem_of_app. by left.
  - apply Forall2_app; [done|]. constructor; [by left|constructor].
  - apply Forall_app. split; [done|]. by constructor.
Qed.

Lemma sim_kill h w1 w2 :
  sim w1 w2 -> sim (with_animations (fun l => <[h := None]> l) w1) w2.
Proof.
  intros [Ho Ha Hh Hr Hm He Ht Hq]. split; try done; cbn.
  apply Forall2_same_length_lookup_2.
  - rewrite length_insert. by eapply Forall2_length.
  - intros i a1 a2 H1 H2. rewrite list_lookup_insert in H1.
    destruct (decide _); [injection H1 as <-; by right|].
    destruct (Forall2_lookup_l _ _ _ _ _ Ha H1) as (a2' & H2' & HP). congruence.
Qed.

(** A started animation of the run with frames is a started animation of
    the run without. *)
Lemma sim_alive h tl w1 w2 :
  sim w1 w2 -> animations w1 !! h = Some (Some tl) ->
  animations w2 !! h = Some (Some tl) /\ harmless tl
  /\ forall cb, cb ∈ timeline_callbacks tl -> cb ∈ started_callbacks (animations w2).
Proof.
  intros [Ho Ha Hh Hr Hm He Ht Hq] H1.
  destruct (Forall2_lookup_l _ _ _ _ _ Ha H1) as (a2 & H2 & [<-|?]); [|done].
  split; [done|]. split.
  - by apply (Forall_lookup_1 _ _ _ _ Hh H2).
  - intros cb Hcb. unfold started_callbacks. apply list_elem_of_In, in_flat_map.
    exists (Some tl). split; [|by apply list_elem_of_In].
    apply list_elem_of_In. by eapply list_elem_of_lookup_2.
Qed.

(** *** Frames *)

Lemma is_progress_spec p : is_progress p = true -> 0 <= p /\ p <= 1.
Proof.
  unfold is_progress. intros H. apply andb_prop in H as [H0 H1].
  by rewrite !Qle_bool_iff in *.
Qed.

Lemma Qfloor_between (x : Q) (z : Z) :
  0 <= x -> x <= inject_Z z -> (0 <= Qfloor x <= z)%Z.
Proof.
  intros H0 H1. split.
  - apply (Qfloor_resp_le 0 x H0).
  - rewrite <- (Qfloor_Z z). by apply Qfloor_resp_le.
Qed.

(** *** Rounding to a double *)

Lemma round_half_even_cases q :
  round_half_even q = Qfloor q \/ round_half_even q = (Qfloor q + 1)%Z.
Proof.
  unfold round_half_even. cbv zeta.
  destruct (Qcompare _ _); [destruct (Z.even _)|..]; auto.
Qed.

Lemma round_half_even_mono q q' : q <= q' -> (round_half_even q <= round_half_even q')%Z.
Proof.
  intros Hq. pose proof (Qfloor_resp_le _ _ Hq) as Hf.
  destruct (Z_lt_le_dec (Qfloor q) (Qfloor q')) as [Hlt|Hge].
  - destruct (round_half_even_cases q) as [-> | ->],
             (round_half_even_cases q') as [-> | ->]; lia.
  - assert (Qfloor q = Qfloor q') as E by lia.
    unfold round_half_even. cbv zeta. rewrite <- E.
    destruct (Qcompare_spec (q - inject_Z (Qfloor q)) (1 # 2)) as [H1|H1|H1],
             (Qcompare_spec (q' - inject_Z (Qfloor q)) (1 # 2)) as [H2|H2|H2];
      try lia; try (destruct (Z.even _); lia); exfalso; lra.
Qed.

Lemma round_half_even_Z z : round_half_even (inject_Z z) = z.
Proof.
  unfold round_half_even. cbv zeta. rewrite Qfloor_Z.
  destruct (Qcompare_spec (inject_Z z - inject_Z z) (1 # 2)) as [H|H|H]; [exfalso; lra|done|exfalso; lra].
Qed.

Lemma round_half_even_nonneg q : 0 <= q -> (0 <= round_half_even q)%Z.
Proof.
  intros H. change 0%Z with (round_half_even (inject_Z 0)) at 1.
  by apply round_half_even_mono.
Qed.

Lemma pow2_pos e : 0 < pow2 e.
Proof. apply Qpower_0_lt. reflexivity. Qed.

Lemma pow2_plus a b : pow2 (a + b) == pow2 a * pow2 b.
Proof. apply Qpower_plus. discriminate. Qed.

Lemma pow2_le a b : (a <= b)%Z -> pow2 a <= pow2 b.
Proof. intros H. apply Qpower_le_compat_l; [done|]. by vm_compute. Qed.

Lemma pow2_lt_inv a b : pow2 a < pow2 b -> (a < b)%Z.
Proof. intros H. apply (Qpower_lt_compat_l_inv 2); [done|reflexivity]. Qed.

Lemma pow2_Z n : (0 <= n)%Z -> pow2 n == inject_Z (2 ^ n).
Proof. intros H. unfold pow2. by rewrite Zpower_Qpower. Qed.

Lemma pow2_cancel a : pow2 a * pow2 (- a) == 1.
Proof. rewrite <- pow2_plus, Z.add_opp_diag_r. reflexivity. Qed.

Lemma ilog2_spec q : 0 < q -> pow2 (ilog2 q) <= q /\ q < pow2 (ilog2 q + 1).
Proof.
  intros Hq. destruct q as [n d]. unfold ilog2. cbn [Qnum Qden].
  assert (0 < n)%Z as Hn by (unfold Qlt in Hq; cbn in Hq; lia).
  pose proof (Z.log2_spec n Hn) as [Hn1 Hn2].
  pose proof (Z.log2_spec (Z.pos d) (Pos2Z.is_pos d)) as [Hd1 Hd2].
  pose proof (Z.log2_nonneg n) as Hln. pose proof (Z.log2_nonneg (Z.pos d)) as Hld.
  set (ln := Z.log2 n) in *. set (ld := Z.log2 (Z.pos d)) in *.
  assert ((n # d) * inject_Z (Z.pos d) == inject_Z n) as Hnd.
  { rewrite (Qmake_Qdiv n d). field. discriminate. }
  assert ((n # d) < pow2 (ln - ld + 1)) as HA.
  { replace (ln - ld + 1)%Z with ((ln + 1) + - ld)%Z by lia. rewrite pow2_plus.
    apply (Qmult_lt_r _ _ (pow2 ld)); [apply pow2_pos|].
    rewrite <- Qmult_assoc, (Qmult_comm (pow2 (- ld))), pow2_cancel, Qmult_1_r.
    apply Qle_lt_trans with ((n # d) * inject_Z (Z.pos d)).
    - apply Qmult_le_l; [done|]. rewrite pow2_Z by done. by rewrite <- Zle_Qle.
    - rewrite Hnd, pow2_Z by lia. rewrite <- Zlt_Qlt. lia. }
  assert (pow2 (ln - ld - 1) <= (n # d)) as HB.
  { replace (ln - ld - 1)%Z with (ln + - (ld + 1))%Z by lia. rewrite pow2_plus.
    apply (Qmult_le_r _ _ (pow2 (ld + 1))); [apply pow2_pos|].
    rewrite <- Qmult_assoc, (Qmult_comm (pow2 (- (ld + 1)))), pow2_cancel, Qmult_1_r.
    apply Qle_trans with ((n # d) * inject_Z (Z.pos d)).
    - rewrite Hnd, pow2_Z by lia. by rewrite <- Zle_Qle.
    - apply Qmult_le_l; [done|]. rewrite pow2_Z by lia. rewrite <- Zle_Qle. lia. }
  destruct (Qle_bool (pow2 (ln - ld)) (n # d)) eqn:E.
  - apply Qle_bool_iff in E. done.
  - split; [done|]. replace (ln - ld - 1 + 1)%Z with (ln - ld)%Z by lia.
    apply Qnot_le_lt. intros H. apply Qle_bool_iff in H. congruence.
Qed.

Lemma ilog2_unique q k : 0 < q -> pow2 k <= q -> q < pow2 (k + 1) -> ilog2 q = k.
Proof.
  intros Hq H1 H2. destruct (ilog2_spec q Hq) as [H3 H4].
  assert (ilog2 q < k + 1)%Z by (apply pow2_lt_inv; eapply Qle_lt_trans; eauto).
  assert (k < ilog2 q + 1)%Z by (apply pow2_lt_inv; eapply Qle_lt_trans; eauto).
  lia.
Qed.

Lemma ilog2_mono x y : 0 < x -> x <= y -> (ilog2 x <= ilog2 y)%Z.
Proof.
  intros Hx Hxy. assert (0 < y) as Hy by lra.
  destruct (ilog2_spec x Hx) as [H1 _], (ilog2_spec y Hy) as [_ H2].
  assert (ilog2 x < ilog2 y + 1)%Z; [|lia].
  apply pow2_lt_inv. lra.
Qed.

Lemma ilog2_comp x y : 0 < x -> x == y -> ilog2 x = ilog2 y.
Proof.
  intros Hx E. assert (0 < y) as Hy by lra.
  destruct (ilog2_spec x Hx) as [H1 H2].
  symmetry. apply ilog2_unique; lra.
Qed.

Lemma ulp_exponent_pos x : 0 < x -> ulp_exponent x = Z.max (-1074) (ilog2 x - 52).
Proof.
  intros Hx. unfold ulp_exponent. f_equal. f_equal. symmetry. apply ilog2_comp; [done|].
  symmetry. apply Qabs_pos. lra.
Qed.

Lemma round64_pos x :
  0 < x -> round64 x = inject_Z (round_half_even (x / pow2 (ulp_exponent x))) * pow2 (ulp_exponent x).
Proof.
  intros Hx. unfold round64. destruct (Qeq_bool x 0) eqn:E; [|done].
  apply Qeq_bool_eq in E. lra.
Qed.

Lemma round64_zero x : x == 0 -> round64 x = 0.
Proof. intros E. unfold round64. by rewrite (proj2 (Qeq_bool_iff x 0) E). Qed.

Lemma round64_nonneg x : 0 <= x -> 0 <= round64 x.
Proof.
  intros Hx. destruct (Qeq_dec x 0) as [E|E]; [by rewrite round64_zero|].
  assert (0 < x) as Hpos by (destruct (Qle_lt_or_eq _ _ Hx) as [?|E']; [done|by destruct E]).
  rewrite round64_pos by done. pose proof (pow2_pos (ulp_exponent x)) as Hp.
  apply Qmult_le_0_compat; [|lra].
  change 0 with (inject_Z 0). rewrite <- Zle_Qle. apply round_half_even_nonneg.
  apply Qle_shift_div_l; lra.
Qed.

(** Rounding does not cross a power of two at or above the last place. *)
Lemma round64_le_pow2 x k :
  0 < x -> x <= pow2 k -> (ulp_exponent x <= k)%Z -> round64 x <= pow2 k.
Proof.
  intros Hx Hle He. rewrite round64_pos by done. set (e := ulp_exponent x) in *.
  pose proof (pow2_pos e) as Hp.
  assert (pow2 k == inject_Z (2 ^ (k - e)) * pow2 e) as Hk.
  { rewrite <- pow2_Z by lia. rewrite <- pow2_plus. by replace (k - e + e)%Z with k by lia. }
  rewrite Hk. apply Qmult_le_compat_r; [|lra]. rewrite <- Zle_Qle.
  rewrite <- (round_half_even_Z (2 ^ (k - e))). apply round_half_even_mono.
  apply Qle_shift_div_r; [done|]. by rewrite <- Hk.
Qed.

Lemma round64_ge_pow2 x k :
  0 < x -> pow2 k <= x -> (ulp_exponent x <= k)%Z -> pow2 k <= round64 x.
Proof.
  intros Hx Hle He. rewrite round64_pos by done. set (e := ulp_exponent x) in *.
  pose proof (pow2_pos e) as Hp.
  assert (pow2 k == inject_Z (2 ^ (k - e)) * pow2 e) as Hk.
  { rewrite <- pow2_Z by lia. rewrite <- pow2_plus. by replace (k - e + e)%Z with k by lia. }
  rewrite Hk. apply Qmult_le_compat_r; [|lra]. rewrite <- Zle_Qle.
  rewrite <- (round_half_even_Z (2 ^ (k - e))) at 1. apply round_half_even_mono.
  apply Qle_shift_div_l; [done|]. by rewrite <- Hk.
Qed.

Lemma round64_mono x y : 0 <= x -> x <= y -> round64 x <= round64 y.
Proof.
  intros Hx Hxy. destruct (Qeq_dec x 0) as [E|E].
  { rewrite (round64_zero x E). apply round64_nonneg. lra. }
  assert (0 < x) as Hpx by (destruct (Qle_lt_or_eq _ _ Hx) as [?|E']; [done|by destruct E]).
  assert (0 < y) as Hpy by lra.
  pose proof (ilog2_mono x y Hpx Hxy) as Hk.
  pose proof (ulp_exponent_pos x Hpx) as Hex. pose proof (ulp_exponent_pos y Hpy) as Hey.
  destruct (Z.eq_dec (ulp_exponent x) (ulp_exponent y)) as [Ee|Ee].
  - rewrite !round64_pos by done. rewrite <- Ee. pose proof (pow2_pos (ulp_exponent x)) as Hp.
    apply Qmult_le_compat_r; [|lra]. rewrite <- Zle_Qle. apply round_half_even_mono.
    apply Qmult_le_compat_r; [done|]. apply Qinv_le_0_compat. lra.
  - destruct (ilog2_spec x Hpx) as [_ Hx2], (ilog2_spec y Hpy) as [Hy1 _].
    assert (ilog2 x + 1 <= ilog2 y)%Z as Hlt by lia.
    apply Qle_trans with (pow2 (ilog2 y)).
    + apply round64_le_pow2; [done| |lia].
      apply Qle_trans with (pow2 (ilog2 x + 1)); [lra|by apply pow2_le].
    + apply round64_ge_pow2; [done|done|lia].
Qed.

Lemma round64_comp x y : 0 <= x -> x == y -> round64 x == round64 y.
Proof.
  intros Hx E. apply Qle_antisym; apply round64_mono; lra.
Qed.

(** Rounding stays between two doubles. *)
Lemma round64_between (a b x : Q) :
  0 <= a -> round64 a == a -> round64 b == b -> a <= x -> x <= b ->
  a <= round64 x /\ round64 x <= b.
Proof.
  intros Ha Ea Eb H1 H2. split.
  - rewrite <- Ea. by apply round64_mono.
  - rewrite <- Eb. apply round64_mono; lra.
Qed.

Lemma round64_0 : round64 0 == 0.
Proof. reflexivity. Qed.

Lemma round64_1 : round64 1 == 1.
Proof. by vm_compute. Qed.

Lemma round64_90 : round64 90 == 90.
Proof. by vm_compute. Qed.

Lemma round64_100 : round64 100 == 100.
Proof. by vm_compute. Qed.

(** The rounded product and sum agree with the binary64 arithmetic of the
    Standard Library where the progress is the double of 0.3, 0.7 or 0.47:
    [0.3 * 90] is 27 and [0.7 * 90] is below 63. *)
Example round64_agrees_with_binary64 :
  double_value (S754_finite false 5404319552844595 (-54)) == round64 0.3
  /\ double_value (SFmul 53 1024 (S754_finite false 5404319552844595 (-54))
                     (S754_finite false 90 0))
     == Number.mul (round64 0.3) 90
  /\ Number.mul (round64 0.3) 90 == 27
  /\ double_value (S754_finite false 6305039478318694 (-53)) == round64 0.7
  /\ double_value (SFmul 53 1024 (S754_finite false 6305039478318694 (-53))
                     (S754_finite false 90 0))
     == Number.mul (round64 0.7) 90
  /\ Number.mul (round64 0.7) 90 < 63
  /\ double_value (S754_finite false 8466767299456532 (-54)) == round64 0.47
  /\ double_value (S754_finite false 7205759403792794 (-56)) == Number.literal 0.1
  /\ double_value (SFadd 53 1024 (S754_finite false 8466767299456532 (-54))
                     (S754_finite false 7205759403792794 (-56)))
     == Number.add (round64 0.47) (Number.literal 0.1)
  /\ double_value (SFmul 53 1024
                     (SFadd 53 1024 (S754_finite false 8466767299456532 (-54))
                        (S754_finite false 7205759403792794 (-56)))
                     (S754_finite false 100 0))
     == Number.mul (Number.add (round64 0.47) (Number.literal 0.1)) 100.
Proof. repeat split; by vm_compute. Qed.

(** The progress a callback reads is a double between 0 and 1. *)
Lemma progress_double p : 0 <= p -> p <= 1 -> 0 <= round64 p /\ round64 p <= 1.
Proof.
  intros H0 H1. apply round64_between; [lra|apply round64_0|apply round64_1|done..].
Qed.

Lemma finish_factor_double p :
  0 <= p -> p <= 1 ->
  0 <= Qmin 1 (Number.add (round64 p) (Number.literal 0.1))
  /\ Qmin 1 (Number.add (round64 p) (Number.literal 0.1)) <= 1.
Proof.
  intros H0 H1. destruct (progress_double p H0 H1) as [Hd0 Hd1].
  split; [|apply Q.le_min_l].
  apply Q.min_glb; [lra|]. unfold Number.add. apply round64_nonneg.
  assert (0 <= Number.literal 0.1) by (by vm_compute). lra.
Qed.

Lemma ramp_bound p :
  is_progress p = true -> (0 <= Qfloor (Number.mul (round64 p) 90) <= 90)%Z.
Proof.
  intros [H0 H1]%is_progress_spec. destruct (progress_double p H0 H1) as [Hd0 Hd1].
  unfold Number.mul.
  destruct (round64_between 0 90 (round64 p * 90)) as [Hr0 Hr1];
    [lra|apply round64_0|apply round64_90|lra|lra|].
  apply Qfloor_between; [done|]. unfold inject_Z. lra.
Qed.

Lemma finish_bound p :
  is_progress p = true ->
  (0 <= Qfloor (Number.mul (Qmin 1 (Number.add (round64 p) (Number.literal 0.1))) 100)
   <= 100)%Z.
Proof.
  intros [H0 H1]%is_progress_spec. destruct (finish_factor_double p H0 H1) as [Hm0 Hm1].
  unfold Number.mul.
  destruct (round64_between 0 100
              (Qmin 1 (Number.add (round64 p) (Number.literal 0.1)) * 100)) as [Hr0 Hr1];
    [lra|apply round64_0|apply round64_100|lra|lra|].
  apply Qfloor_between; [done|]. unfold inject_Z. lra.
Qed.

Lemma label_100 : "Loading... 100%"%string = loading_label 100.
Proof. reflexivity. Qed.

Lemma sim_callback p cb w1 w2 :
  cb ∈ started_callbacks (animations w2) -> harmless_callback cb ->
  is_progress p = true -> sim w1 w2 -> sim (run_callback p cb w1) w2.
Proof.
  intros Hcb Hh Hp Hsim. destruct cb as [r|r|r|r|r]; cbn [run_callback]; try done.
  - apply sim_drift; [|done]. intros o1 o2. apply drift_set_text.
    left. split; [done|]. by apply ramp_bound.
  - apply sim_drift; [|done]. intros o1 o2. apply drift_set_text.
    right. split; [by left|]. by apply finish_bound.
  - apply sim_drift; [|done]. intros o1 o2. rewrite label_100. apply drift_set_text.
    right. split; [by right|]. lia.
  - destruct (objects w1 !! r); [by apply sim_console|done].
Qed.

Lemma sim_callback_opt p cb w1 w2 :
  (forall f, cb = Some f -> f ∈ started_callbacks (animations w2) /\ harmless_callback f) ->
  is_progress p = true -> sim w1 w2 -> sim (run_callback_opt p cb w1) w2.
Proof.
  intros Hcb Hp Hsim. destruct cb as [f|]; [|done].
  destruct (Hcb f eq_refl). by apply sim_callback.
Qed.

Lemma sim_write_vars t vals w1 w2 :
  Forall is_to_x vals -> sim w1 w2 -> sim (write_vars t vals w1) w2.
Proof.
  intros Hv. destruct t as [r|]; [|done]. cbn [write_vars].
  revert w1. induction Hv as [|v vals Hx _ IH]; intros w1 Hsim; [done|].
  cbn [foldl]. apply IH. destruct v; [|done]. cbn [write_var].
  apply sim_drift; [|done]. intros o1 o2. apply drift_set_x.
Qed.

Lemma same_shape_to_x vals : forall vars,
  same_shape vals vars = true -> Forall is_to_x vars -> Forall is_to_x vals.
Proof.
  induction vals as [|a vals IH]; intros [|b vars] Hs Hv; try done.
  cbn in Hs. apply andb_prop in Hs as [Hab Hs]. inversion Hv as [|? ? Hb Hv']; subst.
  constructor; [|by eapply IH]. by destruct a, b.
Qed.

Lemma child_of_spec w h i tw :
  child_of w h i = Some tw ->
  exists tl s, animations w !! h = Some (Some tl) /\ gsap.children tl !! i = Some (s, tw).
Proof.
  unfold child_of. destruct (animations w !! h) as [[tl|]|]; try done.
  destruct (gsap.children tl !! i) as [[s tw']|] eqn:E; cbn; [|done].
  intros [= <-]. by exists tl, s.
Qed.

Lemma child_callbacks tl i s tw cb :
  gsap.children tl !! i = Some (s, tw) -> cb ∈ tween_callbacks tw ->
  cb ∈ timeline_callbacks tl.
Proof.
  intros Hi Hcb. unfold timeline_callbacks. apply elem_of_app. left.
  apply list_elem_of_In, in_flat_map. exists (s, tw).
  split; [|by apply list_elem_of_In].
  apply list_elem_of_In. by eapply list_elem_of_lookup_2.
Qed.

(** Whatever a child of a started animation does in a frame, the two worlds
    stay alike. *)
Lemma sim_child h i tw w1 w2 :
  sim w1 w2 -> child_of w1 h i = Some tw ->
  Forall is_to_x (gsap.vars tw)
  /\ (forall f, gsap.onUpdate tw = Some f ->
        f ∈ started_callbacks (animations w2) /\ harmless_callback f)
  /\ (forall f, gsap.onComplete tw = Some f ->
        f ∈ started_callbacks (animations w2) /\ harmless_callback f).
Proof.
  intros Hsim (tl & s & Hh & Hi)%child_of_spec.
  destruct (sim_alive h tl w1 w2 Hsim Hh) as (_ & [Hvars Hcbs] & Hsub).
  pose proof (Forall_lookup_1 _ _ _ _ Hvars Hi) as Hx. cbn in Hx.
  assert (forall f, f ∈ tween_callbacks tw ->
    f ∈ started_callbacks (animations w2) /\ harmless_callback f) as Hall.
  { intros f Hf. pose proof (child_callbacks tl i s tw f Hi Hf) as Hin. split; [by apply Hsub|].
    by apply (proj1 (Forall_forall _ _) Hcbs). }
  split; [done|].
  split; intros cb Hcb; apply Hall; unfold tween_callbacks; rewrite Hcb; apply elem_of_app.
  - left. apply list_elem_of_here.
  - right. apply list_elem_of_here.
Qed.

Lemma sim_event e w1 w2 : sim w1 w2 -> sim (apply_event w1 e) w2.
Proof.
  intros Hsim. destruct e as [h i vals p|h i p|h]; cbn [apply_event].
  - destruct (child_of w1 h i) as [tw|] eqn:E; [|done].
    destruct (same_shape vals (gsap.vars tw) && is_progress p) eqn:G; [|done].
    apply andb_prop in G as [Hshape Hp].
    destruct (sim_child h i tw w1 w2 Hsim E) as (Hx & Hu & _).
    unfold render_tween. apply sim_callback_opt; [done..|].
    apply sim_write_vars; [|done]. by eapply same_shape_to_x.
  - destruct (child_of w1 h i) as [tw|] eqn:E; [|done].
    destruct (is_progress p) eqn:Hp; [|done].
    destruct (sim_child h i tw w1 w2 Hsim E) as (Hx & Hu & Hc).
    unfold complete_tween. apply sim_callback_opt; [done..|].
    apply sim_callback_opt; [done..|]. by apply sim_write_vars.
  - destruct (animations w1 !! h) as [[tl|]|] eqn:E; try done.
    destruct (sim_alive h tl w1 w2 Hsim E) as (_ & [_ Hcbs] & Hsub).
    assert (forall (cb : option Callback) f, cb = Some f -> f ∈ option_list cb) as Hopt.
    { intros cb f ->. apply list_elem_of_here. }
    unfold finish_timeline.
    apply sim_callback_opt; [|done|apply sim_callback_opt; [|done|by apply sim_kill]].
    + intros f Hf. assert (f ∈ timeline_callbacks tl) as Hin.
      { unfold timeline_callbacks. rewrite !elem_of_app. right. right. by apply Hopt. }
      split; [by apply Hsub|]. by apply (proj1 (Forall_forall _ _) Hcbs).
    + intros f Hf. assert (f ∈ timeline_callbacks tl) as Hin.
      { unfold timeline_callbacks. rewrite !elem_of_app. right. left. by apply Hopt. }
      split; [by apply Hsub|]. by apply (proj1 (Forall_forall _ _) Hcbs).
Qed.

Lemma sim_events evs : forall w1 w2, sim w1 w2 -> sim (run_events evs w1) w2.
Proof.
  unfold run_events. induction evs as [|e evs IH]; intros w1 w2 Hsim; [done|].
  cbn [foldl]. by apply IH, sim_event.
Qed.

(** *** Steps both runs take *)

Lemma sim_callback_both p cb w1 w2 :
  sim w1 w2 -> sim (run_callback p cb w1) (run_callback p cb w2).
Proof.
  intros Hsim. destruct cb as [r|r|r|r|r]; cbn [run_callback];
    try (apply sim_modify; [|done]; auto using compatible_set_text, compatible_remove_children).
  destruct (sim_objects _ _ Hsim r); [|done].
  by apply sim_console, sim_console_r.
Qed.

Lemma sim_callback_opt_both p cb w1 w2 :
  sim w1 w2 -> sim (run_callback_opt p cb w1) (run_callback_opt p cb w2).
Proof. destruct cb; [apply sim_callback_both|done]. Qed.

Lemma sim_write_vars_both t vals : forall w1 w2,
  sim w1 w2 -> sim (write_vars t vals w1) (write_vars t vals w2).
Proof.
  destruct t as [r|]; [|done]. cbn [write_vars].
  induction vals as [|v vals IH]; intros w1 w2 Hsim; [done|].
  cbn [foldl]. apply IH. destruct v; cbn [write_var];
    (apply sim_modify; [|done]); auto using compatible_set_x, compatible_set_alpha.
Qed.

Lemma sim_complete_tween_both p tw w1 w2 :
  sim w1 w2 -> sim (complete_tween p tw w1) (complete_tween p tw w2).
Proof.
  intros Hsim. unfold complete_tween.
  by apply sim_callback_opt_both, sim_callback_opt_both, sim_write_vars_both.
Qed.

Lemma sim_play_both tl w1 w2 : sim w1 w2 -> sim (play tl w1) (play tl w2).
Proof.
  intros Hsim. unfold play, finish_timeline.
  apply sim_callback_opt_both, sim_callback_opt_both.
  revert w1 w2 Hsim. induction (gsap.children tl) as [|c cs IH]; intros w1 w2 Hsim; [done|].
  cbn [foldl]. by apply IH, sim_complete_tween_both.
Qed.

Lemma respects_ret {A} (a : A) : respects (mret a).
Proof. by intros w1 w2 Hsim. Qed.

Lemma respects_bind {A B} (m : M A) (f : A -> M B) :
  respects m -> (forall a, respects (f a)) -> respects (m ≫= f).
Proof.
  intros Hm Hf w1 w2 Hsim. destruct (Hm w1 w2 Hsim) as [Hr Hw].
  unfold mbind, M_bind. destruct (m w1) as [r1 w1'], (m w2) as [r2 w2']. cbn in Hr, Hw.
  subst r2. destruct r1 as [a| |]; [by apply Hf|done..].
Qed.

Lemma respects_try_catch {A} (body : M A) (handler : Error -> M A) :
  respects body -> (forall e, respects (handler e)) -> respects (try_catch body handler).
Proof.
  intros Hm Hf w1 w2 Hsim. destruct (Hm w1 w2 Hsim) as [Hr Hw].
  unfold try_catch. destruct (body w1) as [r1 w1'], (body w2) as [r2 w2']. cbn in Hr, Hw.
  subst r2. destruct r1 as [a|e|]; [done|by apply Hf|done].
Qed.

Lemma respects_throw {A} (e : Error) : respects (@throw A e).
Proof. by intros w1 w2 Hsim. Qed.

Lemma respects_update f :
  (forall w1 w2, sim w1 w2 -> sim (f w1) (f w2)) -> respects (update f).
Proof. intros Hf w1 w2 Hsim. split; [done|]. by apply Hf. Qed.

Lemma respects_assign r f : compatible f -> respects (assign r f).
Proof. intros Hf. apply respects_update. intros w1 w2. by apply sim_modify. Qed.

Lemma respects_construct n : respects (construct n).
Proof.
  intros w1 w2 Hsim. unfold construct. cbn. rewrite (sim_dom w1 w2 Hsim).
  split; [done|]. by apply sim_insert.
Qed.

Lemma respects_child_at r i : respects (child_at r i).
Proof.
  intros w1 w2 Hsim. unfold child_at.
  destruct (sim_objects _ _ Hsim r) as [o1 o2 (Hn & _)|]; [|done].
  assert (PIXI.children o1 = PIXI.children o2) as ->.
  { unfold PIXI.children, sim_node in *.
    destruct (PIXI.node o1), (PIXI.node o2); done. }
  by destruct (PIXI.children o2 !! i).
Qed.

Lemma respects_yield : respects yield.
Proof.
  intros w1 w2 Hsim. unfold yield. cbn [fst snd]. split; [done|].
  rewrite (sim_quiet _ _ Hsim). by apply sim_events, sim_tick_both.
Qed.

Lemma respects_await {A} (p : Promise A) : respects (await p).
Proof.
  unfold await. apply respects_bind; [apply respects_yield|]. intros _.
  destruct p; [apply respects_ret|apply respects_throw|done].
Qed.

Lemma respects_sleep ms : respects (sleep ms).
Proof.
  unfold sleep. apply respects_bind; [apply respects_yield|]. intros _.
  apply respects_update. intros w1 w2. apply sim_elapsed_both.
Qed.

Lemma respects_await_tween tw : respects (await_tween tw).
Proof.
  unfold await_tween. apply respects_bind; [apply respects_yield|]. intros _.
  apply respects_bind; [|intros _].
  - apply respects_update. intros w1 w2. apply sim_elapsed_both.
  - apply respects_update. intros w1 w2. apply sim_complete_tween_both.
Qed.

Lemma respects_await_timeline tl : respects (await_timeline tl).
Proof.
  unfold await_timeline. apply respects_bind; [apply respects_yield|]. intros _.
  apply respects_bind; [|intros _].
  - apply respects_update. intros w1 w2. apply sim_elapsed_both.
  - apply respects_update. intros w1 w2. apply sim_play_both.
Qed.

Lemma respects_spawn tl : harmless tl -> respects (spawn tl).
Proof.
  intros Htl w1 w2 Hsim. unfold spawn. cbn [fst snd].
  rewrite (Forall2_length _ _ _ (sim_animations _ _ Hsim)).
  split; [done|]. by apply sim_spawn.
Qed.

Lemma respects_console_error message e : respects (console_error message e).
Proof.
  apply respects_update. intros w1 w2 Hsim. by apply sim_console, sim_console_r.
Qed.

(** *** The animations the program starts are harmless *)

Lemma harmless_ramp r : harmless (ramp r).
Proof. split; cbn; repeat constructor. Qed.

Lemma harmless_finishing r : harmless (finishing r).
Proof. split; cbn; repeat constructor. Qed.

Lemma harmless_movement_chain inputData this sprite start :
  harmless (movement_chain inputData this sprite start).
Proof.
  pose proof (movement_chain_children inputData this sprite start) as Hc.
  destruct (movement_chain_callbacks inputData this sprite start) as [Hd Ht].
  unfold harmless, timeline_callbacks. rewrite Hd, Ht.
  revert Hc. generalize (positions this start inputData).
  generalize (gsap.children (movement_chain inputData this sprite start)).
  intros cs ps. revert ps.
  induction cs as [|c cs IH]; intros [|p ps] Hc; try done.
  - split; cbn; repeat constructor.
  - cbn in Hc. injection Hc as Hc1 Hc2. destruct (IH ps Hc2) as [IH1 IH2].
    split.
    + constructor; [|done]. rewrite Hc1. cbn. by repeat constructor.
    + cbn [flat_map]. rewrite Hc1. exact IH2.
Qed.

Lemma setupGameScene_eq inputData this texture w :
  setupGameScene inputData this texture w =
  (sprite ← construct (PIXI.Sprite texture);
   assign sprite (anchor_set 0.5);;
   assign sprite (set_x 400);;
   assign sprite (set_y 300);;
   assign (gameScene this) (add_child sprite);;
   spawn (movement_chain inputData this sprite 400);;
   mret tt) w.
Proof.
  unfold setupGameScene, mbind, M_bind, construct, assign, update. cbn [fst snd].
  set (sprite := fresh (dom (objects w))).
  set (w' := modify (gameScene this) _ _).
  assert (exists o, objects w' !! sprite = Some o /\ PIXI.x o = 400) as (o & Ho & Hx).
  { subst w'. cbn [modify with_objects objects].
    rewrite lookup_alter. destruct (decide (gameScene this = sprite)) as [->|];
      rewrite !lookup_alter_eq, lookup_insert_eq; eexists; split; reflexivity. }
  rewrite (createAnimationTimeline_run _ _ _ _ o Ho), Hx. reflexivity.
Qed.

(** *** The methods of the class *)

Create HintDb respects discriminated.

#[local] Hint Resolve respects_ret respects_throw respects_assign respects_construct
  respects_child_at respects_yield respects_await respects_sleep respects_await_tween
  respects_await_timeline respects_spawn respects_console_error
  compatible_set_x compatible_set_y compatible_set_alpha compatible_anchor_set
  compatible_set_text compatible_add_child compatible_remove_children
  harmless_ramp harmless_finishing harmless_movement_chain
  sim_requests_both sim_mounted_both : respects.

Ltac respectful :=
  repeat first
    [ solve [auto with respects]
    | apply respects_spawn;
      solve [apply harmless_ramp | apply harmless_finishing | apply harmless_movement_chain]
    | apply respects_bind; [|intros ?]
    | apply respects_try_catch; [|intros ?]
    | apply respects_update; intros ? ? ].

Lemma respects_showLoadingScreen this : respects (showLoadingScreen this).
Proof. unfold showLoadingScreen. respectful. Qed.

Lemma respects_showError this : respects (showError this).
Proof. unfold showError. respectful. Qed.

Lemma respects_setupGameScene inputData this texture :
  respects (setupGameScene inputData this texture).
Proof.
  intros w1 w2 Hsim. rewrite !setupGameScene_eq. revert w1 w2 Hsim.
  change (respects
    (sprite ← construct (PIXI.Sprite texture);
     assign sprite (anchor_set 0.5);;
     assign sprite (set_x 400);;
     assign sprite (set_y 300);;
     assign (gameScene this) (add_child sprite);;
     spawn (movement_chain inputData this sprite 400);;
     mret tt)).
  respectful.
Qed.

Lemma respects_transitionToGame inputData this texture :
  respects (transitionToGame inputData this texture).
Proof.
  unfold transitionToGame. apply respects_bind; [apply respects_setupGameScene|].
  intros _. apply respects_await_timeline.
Qed.

Lemma respects_load Assets_load url : respects (load Assets_load url).
Proof. unfold load. respectful. Qed.

Lemma respects_loadAssets inputData Assets_init Assets_load this :
  respects (loadAssets inputData Assets_init Assets_load this).
Proof.
  unfold loadAssets.
  pose proof respects_load. pose proof respects_transitionToGame.
  pose proof respects_showError.
  respectful.
Qed.

Lemma respects_fadeInLoader inputData Assets_init Assets_load this :
  respects (fadeInLoader inputData Assets_init Assets_load this).
Proof. unfold fadeInLoader. pose proof respects_loadAssets. respectful. Qed.

Lemma respects_initialize inputData Assets_init Assets_load this :
  respects (initialize inputData Assets_init Assets_load this).
Proof.
  unfold initialize. pose proof respects_fadeInLoader. pose proof respects_showLoadingScreen.
  respectful.
Qed.

Lemma respects_constructor devicePixelRatio : respects (constructor devicePixelRatio).
Proof. unfold constructor, new_Application. respectful. Qed.

Lemma respects_main inputData devicePixelRatio Assets_init Assets_load :
  respects (main inputData devicePixelRatio Assets_init Assets_load).
Proof.
  unfold main. pose proof respects_constructor. pose proof respects_initialize.
  respectful.
Qed.

Lemma sim_blank sched : sim (blank sched) (blank quiet).
Proof. split; try done. intros r. cbn. rewrite !lookup_empty. constructor. Qed.

(** Any run of the page is alike the run without frames. *)
Lemma main_sim inputData devicePixelRatio Assets_init Assets_load sched :
  let run := main inputData devicePixelRatio Assets_init Assets_load (blank sched) in
  let still := main inputData devicePixelRatio Assets_init Assets_load (blank quiet) in
  run.1 = still.1 /\ forall evs, sim (run_events evs run.2) still.2.
Proof.
  cbv zeta.
  destruct (respects_main inputData devicePixelRatio Assets_init Assets_load
              (blank sched) (blank quiet) (sim_blank sched)) as [Hr Hs].
  split; [done|]. intros evs. by apply sim_events.
Qed.

Lemma sim_lookup w1 w2 r o2 :
  sim w1 w2 -> objects w2 !! r = Some o2 ->
  exists o1, objects w1 !! r = Some o1 /\ sim_obj (started_callbacks (animations w2)) r o1 o2.
Proof.
  intros Hsim H2. pose proof (sim_objects _ _ Hsim r) as Ho. rewrite H2 in Ho.
  inversion Ho; subst. eauto.
Qed.

Lemma sim_obj_container cbs r o1 o2 cs :
  sim_obj cbs r o1 o2 -> PIXI.node o2 = PIXI.Container cs -> PIXI.node o1 = PIXI.Container cs.
Proof.
  intros (Hn & _) H2. unfold sim_node in Hn. rewrite H2 in Hn.
  destruct (PIXI.node o1); try done. by subst.
Qed.

Lemma sim_obj_sprite cbs r o1 o2 t :
  sim_obj cbs r o1 o2 -> PIXI.node o2 = PIXI.Sprite t -> PIXI.node o1 = PIXI.Sprite t.
Proof.
  intros (Hn & _) H2. unfold sim_node in Hn. rewrite H2 in Hn.
  destruct (PIXI.node o1); try done. by subst.
Qed.

Lemma sim_obj_text cbs r o1 o2 s st :
  sim_obj cbs r o1 o2 -> PIXI.node o2 = PIXI.Text s st ->
  exists s1, PIXI.node o1 = PIXI.Text s1 st /\ sim_text cbs r s1 s.
Proof.
  intros (Hn & _) H2. unfold sim_node in Hn. rewrite H2 in Hn.
  destruct (PIXI.node o1) as [| |s1 st1]; try done. destruct Hn as [-> Ht]. eauto.
Qed.

Lemma timeline_callbacks_movement_chain inputData this sprite start :
  timeline_callbacks (movement_chain inputData this sprite start) = [reportFinal sprite].
Proof.
  pose proof (movement_chain_children inputData this sprite start) as Hc.
  destruct (movement_chain_callbacks inputData this sprite start) as [Hd Ht].
  unfold timeline_callbacks. rewrite Hd, Ht. cbn [option_list].
  rewrite app_nil_l.
  replace (flat_map _ _) with (@nil Callback); [done|]. symmetry.
  revert Hc. generalize (positions this start inputData).
  generalize (gsap.children (movement_chain inputData this sprite start)).
  intros cs. induction cs as [|c cs IH]; intros [|p ps] Hc; try done.
  cbn in Hc. injection Hc as Hc1 Hc2. cbn [flat_map]. rewrite Hc1, (IH ps Hc2). done.
Qed.

(** ** The run without frames, computed *)

Lemma loaded_still inputData devicePixelRatio texture :
  let still := main inputData devicePixelRatio (Resolves tt) (fun _ => Resolves texture)
                 (blank quiet) in
  still.1 = Normal (fresh_game devicePixelRatio)
  /\ objects still.2 !! 1%nat = Some (set_alpha 0 (PIXI.create (PIXI.Container [])))
  /\ objects still.2 !! 2%nat = Some (PIXI.create (PIXI.Container [4%nat]))
  /\ objects still.2 !! 4%nat =
       Some {| PIXI.node := PIXI.Sprite texture; PIXI.x := 400; PIXI.y := 300;
               PIXI.alpha := 1; PIXI.anchor := (0.5, 0.5) |}
  /\ animations still.2 =
       [Some (ramp 3%nat); Some (finishing 3%nat);
        Some (movement_chain inputData (fresh_game devicePixelRatio) 4%nat 400)]
  /\ requests still.2 = [SPRITE_URL]
  /\ elapsed still.2 == 24 / 10
  /\ objects still.2 !! 3%nat =
       Some (set_y (600 / 2) (set_x (800 / 2) (anchor_set 0.5
               (PIXI.create (PIXI.Text "Loading... 0%" loading_style))))).
Proof. cbv zeta. repeat split; vm_compute; reflexivity. Qed.

Lemma rejected_still inputData devicePixelRatio e :
  let still := main inputData devicePixelRatio (Resolves tt) (fun _ => Rejects e)
                 (blank quiet) in
  still.1 = Normal (fresh_game devicePixelRatio)
  /\ objects still.2 = error_store
  /\ animations still.2 = [Some (ramp 3%nat)]
  /\ requests still.2 = [SPRITE_URL].
Proof. cbv zeta. repeat split; vm_compute; reflexivity. Qed.

Lemma init_rejected_still inputData devicePixelRatio Assets_load e :
  let still := main inputData devicePixelRatio (Rejects e) Assets_load (blank quiet) in
  still.1 = Normal (fresh_game devicePixelRatio)
  /\ objects still.2 = error_store
  /\ animations still.2 = []
  /\ requests still.2 = [].
Proof. cbv zeta. repeat split; vm_compute; reflexivity. Qed.

Lemma pending_still inputData devicePixelRatio :
  let still := main inputData devicePixelRatio (Resolves tt) (fun _ => Pending)
                 (blank quiet) in
  still.1 = Hang
  /\ objects still.2 !! 1%nat = Some (PIXI.create (PIXI.Container [3%nat]))
  /\ objects still.2 !! 3%nat =
       Some (set_y (600 / 2) (set_x (800 / 2) (anchor_set 0.5
               (PIXI.create (PIXI.Text "Loading... 0%" loading_style)))))
  /\ animations still.2 = [Some (ramp 3%nat)]
  /\ requests still.2 = [SPRITE_URL]
  /\ elapsed still.2 == 14 / 10.
Proof. cbv zeta. repeat split; vm_compute; reflexivity. Qed.

(** ** Scene transition and error display *)

(** Names the run under an oracle, so that nothing unfolds it. *)
Ltac name_run sched res w :=
  cbv zeta;
  match goal with
  | |- context [main ?a ?b ?c ?d (blank sched)] =>
      generalize (main a b c d (blank sched)); intros [res w]
  end;
  cbn [fst snd].

(** C5.  Once the scene transition has completed, the game scene is fully
    opaque (alpha at least 0.99), the loading scene is fully transparent
    (alpha at most 0.01, so it is not the opaque one) and has no children;
    and this stays so whatever frames the ticker delivers afterwards. *)
Theorem steady_state_after_transition
  (inputData : list string) (devicePixelRatio : Q) (sched : nat -> list Event)
  (texture : PIXI.Texture) :
  let run := main inputData devicePixelRatio (Resolves tt) (fun _ => Resolves texture)
               (blank sched) in
  exists game, run.1 = Normal game /\
  forall evs, exists loading playing,
    objects (run_events evs run.2) !! loadingScene game = Some loading
    /\ objects (run_events evs run.2) !! gameScene game = Some playing
    /\ 0.99 <= PIXI.alpha playing
    /\ PIXI.alpha loading <= 0.01
    /\ ~ 0.99 <= PIXI.alpha loading
    /\ PIXI.node loading = PIXI.Container [].
Proof.
  generalize (loaded_still inputData devicePixelRatio texture).
  generalize (main_sim inputData devicePixelRatio (Resolves tt)
                (fun _ => Resolves texture) sched).
  name_run quiet res2 w2. name_run sched res1 w1. intros [Hr Hs] (Hg & H1 & H2 & _).
  exists (fresh_game devicePixelRatio). split; [congruence|].
  intros evs. specialize (Hs evs).
  destruct (sim_lookup _ _ _ _ Hs H1) as (loading & Hl & Hsl).
  destruct (sim_lookup _ _ _ _ Hs H2) as (playing & Hp & Hsp).
  exists loading, playing. split; [done|]. split; [done|].
  pose proof (sim_obj_container _ _ _ _ _ Hsl eq_refl) as Hn.
  destruct Hsl as (_ & _ & Hal & _), Hsp as (_ & _ & Hap & _).
  rewrite Hal, Hap. cbn [set_alpha PIXI.create PIXI.alpha]. repeat split; try lra. done.
Qed.

(** Nothing but the loading scene and the new label is touched by the error
    handler. *)
Lemma showError_frame this w :
  exists errorText w',
    showError this w = (Normal tt, w')
    /\ objects w !! errorText = None
    /\ (forall r, r <> loadingScene this -> r <> errorText ->
          objects w' !! r = objects w !! r)
    /\ animations w' = animations w /\ console w' = console w
    /\ requests w' = requests w /\ elapsed w' = elapsed w.
Proof.
  exists (fresh (dom (objects w))). eexists. split; [reflexivity|].
  split; [apply not_elem_of_dom, is_fresh|].
  split; [|done]. intros r H1 H2. cbn.
  rewrite !lookup_alter_ne, lookup_insert_ne by done. done.
Qed.

Lemma sim_lookup_l w1 w2 r o1 :
  sim w1 w2 -> objects w1 !! r = Some o1 ->
  exists o2, objects w2 !! r = Some o2 /\ sim_obj (started_callbacks (animations w2)) r o1 o2.
Proof.
  intros Hsim H1. pose proof (sim_objects _ _ Hsim r) as Ho. rewrite H1 in Ho.
  inversion Ho; subst. eauto.
Qed.

Lemma sim_obj_is_sprite cbs r o1 o2 : sim_obj cbs r o1 o2 -> is_sprite o1 = is_sprite o2.
Proof.
  intros (Hn & _). unfold is_sprite, sim_node in *.
  by destruct (PIXI.node o1), (PIXI.node o2).
Qed.

(** The error state, whatever frames came before or come after, for either
    promise of the loader rejecting. *)
Lemma error_state inputData devicePixelRatio Assets_init Assets_load sched evs anims reqs :
  let still := main inputData devicePixelRatio Assets_init Assets_load (blank quiet) in
  let run := main inputData devicePixelRatio Assets_init Assets_load (blank sched) in
  let w := run_events evs run.2 in
  still.1 = Normal (fresh_game devicePixelRatio)
  /\ objects still.2 = error_store
  /\ animations still.2 = anims
  /\ requests still.2 = reqs ->
  (forall cb, cb ∈ started_callbacks anims -> cb = rampUpdate 3%nat) ->
  run.1 = Normal (fresh_game devicePixelRatio)
  /\ (exists loading playing label,
        objects w !! 1%nat = Some loading
        /\ PIXI.node loading = PIXI.Container [4%nat]
        /\ objects w !! 4%nat = Some label
        /\ PIXI.node label = error_label
        /\ objects w !! 2%nat = Some playing
        /\ PIXI.alpha playing = 0
        /\ PIXI.node playing = PIXI.Container [])
  /\ (forall r o, objects w !! r = Some o -> is_sprite o = false)
  /\ Forall2 (fun a1 a2 => a1 = a2 \/ a1 = None) (animations w) anims
  /\ requests w = reqs.
Proof.
  generalize (main_sim inputData devicePixelRatio Assets_init Assets_load sched).
  name_run quiet res2 w2. name_run sched res1 w1.
  intros [Hr Hs] (Hg & Ho & Ha & Hq) Hcbs. specialize (Hs evs).
  set (w := run_events evs w1) in *.
  assert (forall r o, objects w2 !! r = Some o ->
            exists o1, objects w !! r = Some o1
              /\ sim_obj (started_callbacks anims) r o1 o) as Hlook.
  { intros r o Hro. destruct (sim_lookup _ _ _ _ Hs Hro) as (o1 & H1 & Hsim).
    rewrite Ha in Hsim. eauto. }
  split; [congruence|]. split; [|split; [|split]].
  - rewrite Ho in Hlook.
    destruct (Hlook 1%nat _ eq_refl) as (loading & Hl & Hsl).
    destruct (Hlook 2%nat _ eq_refl) as (playing & Hp & Hsp).
    destruct (Hlook 4%nat _ eq_refl) as (label & Hb & Hsb).
    exists loading, playing, label. split; [done|].
    split; [by apply (sim_obj_container _ _ _ _ _ Hsl)|]. split; [done|].
    split; [|split; [done|split]].
    + destruct (sim_obj_text _ _ _ _ _ _ Hsb eq_refl) as (s1 & Hn & [->|(n & Hw & _)]); [done|].
      destruct Hw as [[Hin _]|[[Hin|Hin] _]]; apply Hcbs in Hin; discriminate.
    + by destruct Hsp as (_ & _ & -> & _).
    + by apply (sim_obj_container _ _ _ _ _ Hsp).
  - intros r o1 H1. destruct (sim_lookup_l _ _ _ _ Hs H1) as (o2 & H2 & Hsim).
    rewrite (sim_obj_is_sprite _ _ _ _ Hsim). rewrite Ho in H2. clear -H2.
    unfold error_store in H2.
    repeat (rewrite lookup_insert in H2; destruct (decide _); [by injection H2 as <-|]).
    by rewrite lookup_empty in H2.
  - pose proof (sim_animations _ _ Hs) as Hanim. by rewrite Ha in Hanim.
  - rewrite (sim_requests _ _ Hs). done.
Qed.

Lemma ramp_only cb : cb ∈ started_callbacks [Some (ramp 3%nat)] -> cb = rampUpdate 3%nat.
Proof. intros Hin. by apply list_elem_of_singleton in Hin. Qed.

Lemma nothing_started cb : cb ∈ started_callbacks [] -> cb = rampUpdate 3%nat.
Proof. intros Hin. by apply elem_of_nil in Hin. Qed.

Lemma only_ramp (l : list (option gsap.Timeline)) (tl : gsap.Timeline) :
  Forall2 (fun a1 a2 => a1 = a2 \/ a1 = None) l [Some tl] -> l = [Some tl] \/ l = [None].
Proof.
  intros Hl. inversion Hl as [|a1 a2 l1 l2 Hhd Htl]; subst. inversion Htl; subst.
  destruct Hhd as [->| ->]; [by left|by right].
Qed.

(** C9.  When the load promise rejects, the error state has the game scene
    still at alpha 0 with no children and the loading scene holding exactly
    one child, the error label; the handler itself changes no object other
    than the loading scene and the label it creates. *)
Theorem error_touches_only_loading_scene
  (inputData : list string) (devicePixelRatio : Q) (sched : nat -> list Event) (e : Error) :
  let run := main inputData devicePixelRatio (Resolves tt) (fun _ => Rejects e)
               (blank sched) in
  (exists game loading playing errorText label,
     run.1 = Normal game
     /\ objects run.2 !! loadingScene game = Some loading
     /\ PIXI.node loading = PIXI.Container [errorText]
     /\ objects run.2 !! errorText = Some label
     /\ PIXI.node label = error_label
     /\ objects run.2 !! gameScene game = Some playing
     /\ PIXI.alpha playing = 0
     /\ PIXI.node playing = PIXI.Container [])
  /\ forall this w, exists errorText w',
       showError this w = (Normal tt, w')
       /\ objects w !! errorText = None
       /\ (forall r, r <> loadingScene this -> r <> errorText ->
            objects w' !! r = objects w !! r)
       /\ animations w' = animations w.
Proof.
  split.
  - generalize (error_state inputData devicePixelRatio (Resolves tt) (fun _ => Rejects e)
                  sched [] _ _ (rejected_still inputData devicePixelRatio e) ramp_only).
    name_run sched res w1. cbn [run_events foldl].
    intros (Hg & (loading & playing & label & H) & _).
    exists (fresh_game devicePixelRatio), loading, playing, 4%nat, label.
    split; [exact Hg|exact H].
  - intros this w. destruct (showError_frame this w) as (r & w' & H1 & H2 & H3 & H4 & _).
    by exists r, w'.
Qed.

(** C2.  When the asset load rejects, the run ends with the loading scene
    showing the fixed error label and nothing else; no sprite exists and the
    only animation ever started is the progress ramp, so no movement chain
    was built; the loader was asked once; and since the method has returned,
    only frames can still happen, none of which changes any of this.  When
    it is the initialisation of the loader that rejects, the same holds with
    no animation started and no load requested. *)
Theorem rejection_is_terminal
  (inputData : list string) (devicePixelRatio : Q) (sched : nat -> list Event) (e : Error)
  (Assets_load : string -> Promise PIXI.Texture) :
  let run := main inputData devicePixelRatio (Resolves tt) (fun _ => Rejects e)
               (blank sched) in
  let early := main inputData devicePixelRatio (Rejects e) Assets_load (blank sched) in
  exists game loadingText,
    run.1 = Normal game /\ early.1 = Normal game
    /\ (forall evs, let w := run_events evs run.2 in
          (exists loading errorText label,
             objects w !! loadingScene game = Some loading
             /\ PIXI.node loading = PIXI.Container [errorText]
             /\ objects w !! errorText = Some label
             /\ PIXI.node label = error_label)
          /\ (forall r o, objects w !! r = Some o -> is_sprite o = false)
          /\ (animations w = [Some (ramp loadingText)] \/ animations w = [None])
          /\ requests w = [SPRITE_URL])
    /\ (forall evs, let w := run_events evs early.2 in
          (exists loading errorText label,
             objects w !! loadingScene game = Some loading
             /\ PIXI.node loading = PIXI.Container [errorText]
             /\ objects w !! errorText = Some label
             /\ PIXI.node label = error_label)
          /\ (forall r o, objects w !! r = Some o -> is_sprite o = false)
          /\ animations w = []
          /\ requests w = []).
Proof.
  generalize (fun evs => error_state inputData devicePixelRatio (Rejects e) Assets_load
                sched evs _ _ (init_rejected_still inputData devicePixelRatio Assets_load e)
                nothing_started).
  generalize (fun evs => error_state inputData devicePixelRatio (Resolves tt)
                (fun _ => Rejects e) sched evs _ _
                (rejected_still inputData devicePixelRatio e) ramp_only).
  cbv zeta.
  generalize (main inputData devicePixelRatio (Resolves tt) (fun _ => Rejects e) (blank sched)).
  intros [res1 w1].
  generalize (main inputData devicePixelRatio (Rejects e) Assets_load (blank sched)).
  intros [res3 w3]. cbn [fst snd]. intros Hlate Hearly.
  exists (fresh_game devicePixelRatio), 3%nat.
  split; [apply (Hlate [])|]. split; [apply (Hearly [])|]. split.
  - intros evs.
    destruct (Hlate evs)
      as (_ & (loading & playing & label & H1 & H2 & H3 & H4 & _) & Hs & Ha & Hq).
    split; [|split; [done|split; [by apply only_ramp|done]]].
    exists loading, 4%nat, label. by repeat split.
  - intros evs.
    destruct (Hearly evs)
      as (_ & (loading & playing & label & H1 & H2 & H3 & H4 & _) & Hs & Ha & Hq).
    split; [|split; [done|split; [by inversion Ha|done]]].
    exists loading, 4%nat, label. by repeat split.
Qed.

(** ** The animation sequencer *)

(** C1, as the code has it.  The chain built for a sprite at [start] with
    step magnitude [S] has one running target per command; the target
    after step [i] is [start] plus [S] times the signed sum of the first [i]
    tokens, where a ['+'] counts up and every other token counts down; the
    final reported x is [start + S * (p - n)] with [p] the number of ['+']
    tokens and [n] the number of all other tokens, which is the number of
    ['-'] tokens when every sign token is ['+'] or ['-'].  For
    ["L+"; "L+"; "L-"], [S = 10] and [start = 400] the running targets are
    [410; 420; 410] and the final reported x is [410]. *)
Theorem chain_positions_signed_sum
  (inputData : list string) (this : Game) (sprite : ref) (w : World)
  (o : PIXI.DisplayObject) :
  objects w !! sprite = Some o ->
  let start := PIXI.x o in
  let chain := movement_chain inputData this sprite start in
  createAnimationTimeline inputData this sprite w = (Normal tt, started chain w)
  /\ length (running_targets chain) = length inputData
  /\ (plus_count inputData + other_count inputData)%nat = length inputData
  /\ (forall i t, running_targets chain !! i = Some t ->
        t == start + speed this * inject_Z (signed_sum (take (S i) inputData)))
  /\ (exists final,
        console (play chain (started chain w)) = console w ++ [final_report final]
        /\ final == start + speed this *
             (inject_Z (Z.of_nat (plus_count inputData))
              - inject_Z (Z.of_nat (other_count inputData))))
  /\ (Forall (fun c => sign_token c = Some "+"%char \/ sign_token c = Some "-"%char) inputData ->
        other_count inputData = minus_count inputData)
  /\ (inputData = ["L+"; "L+"; "L-"]%string -> speed this = 10 -> start = 400 ->
        running_targets chain = [410; 420; 410]
        /\ console (play chain (started chain w)) = console w ++ [final_report 410]).
Proof.
  intros Ho start chain. subst start chain.
  pose proof (play_movement_chain inputData this sprite (PIXI.x o)
                (started (movement_chain inputData this sprite (PIXI.x o)) w) o Ho)
    as (_ & _ & Hconsole & _).
  change (console (started (movement_chain inputData this sprite (PIXI.x o)) w))
    with (console w) in Hconsole.
  split; [by apply createAnimationTimeline_run|].
  split; [by rewrite movement_chain_targets, positions_length|].
  split; [apply counts_total|].
  split; [rewrite movement_chain_targets; apply positions_lookup|].
  split; [|split; [apply other_count_minus|]].
  - eexists. split; [exact Hconsole|].
    rewrite positions_last. unfold signed_sum, Z.sub.
    rewrite inject_Z_plus, inject_Z_opp. qring.
  - intros -> HS Hstart. rewrite Hconsole, movement_chain_targets, Hstart.
    cbn [positions]. rewrite HS. by vm_compute.
Qed.

Lemma chain_positions_signed_sum_witness :
  objects sample_world !! 0%nat = Some sample_sprite
  /\ running_targets (movement_chain ["L+"; "L+"; "L-"]%string sample_game 0%nat 400)
     = [410; 420; 410].
Proof.
  split; [reflexivity|].
  apply (chain_positions_signed_sum ["L+"; "L+"; "L-"]%string sample_game 0%nat
           sample_world sample_sprite eq_refl); reflexivity.
Defined.

(** C1 as stated fails: with [n] the number of ['-'] tokens, the one command
    ["Lx"] has [p = 0] and [n = 0], yet the chain reports [390], not [400]. *)
Lemma chain_final_x_counterexample :
  let inputData := ["Lx"]%string in
  let chain := movement_chain inputData sample_game 0%nat 400 in
  createAnimationTimeline inputData sample_game 0%nat sample_world
    = (Normal tt, started chain sample_world)
  /\ console (play chain (started chain sample_world)) = [final_report 390]
  /\ plus_count inputData = 0%nat /\ minus_count inputData = 0%nat
  /\ ~ 390 == 400 + speed sample_game *
         (inject_Z (Z.of_nat (plus_count inputData))
          - inject_Z (Z.of_nat (minus_count inputData))).
Proof. cbv zeta. repeat split; try (vm_compute; reflexivity). by vm_compute. Qed.

(** C3.  For the empty command sequence the chain has no tween step, and
    its completion callback fires all the same, reporting the x the sprite
    started with; the sprite is where it was. *)
Theorem empty_sequence_reports_start
  (this : Game) (sprite : ref) (w : World) (o : PIXI.DisplayObject) :
  objects w !! sprite = Some o ->
  exists chain,
    createAnimationTimeline [] this sprite w = (Normal tt, started chain w)
    /\ gsap.children chain = []
    /\ gsap.thenCallback chain = Some (reportFinal sprite)
    /\ console (play chain (started chain w)) = console w ++ [final_report (PIXI.x o)]
    /\ objects (play chain (started chain w)) = objects w.
Proof.
  intros Ho. exists (movement_chain [] this sprite (PIXI.x o)).
  split; [by apply createAnimationTimeline_run|].
  split; [done|]. split; [done|].
  unfold play, finish_timeline. cbn. rewrite Ho. done.
Qed.

Lemma empty_sequence_reports_start_witness :
  objects sample_world !! 0%nat = Some sample_sprite
  /\ exists chain,
       createAnimationTimeline [] sample_game 0%nat sample_world
         = (Normal tt, started chain sample_world)
       /\ gsap.children chain = []
       /\ gsap.thenCallback chain = Some (reportFinal 0%nat)
       /\ console (play chain (started chain sample_world)) = [final_report 400]
       /\ objects (play chain (started chain sample_world)) = objects sample_world.
Proof.
  split; [reflexivity|].
  exact (empty_sequence_reports_start sample_game 0%nat sample_world sample_sprite eq_refl).
Defined.

(** C4.  A command whose sign token is neither ['+'] nor ['-'] (a missing
    second character included) is processed exactly as a ['-'] command: the
    running target goes down by [S] and the same tween step is appended, so
    replacing the command by ["L-"] anywhere in the sequence gives the same
    chain. *)
Theorem unrecognized_sign_moves_left
  (this : Game) (sprite : ref) (timeline : gsap.Timeline) (currentX : Q) (input : string) :
  sign_token input <> Some "+"%char -> sign_token input <> Some "-"%char ->
  move this sprite (timeline, currentX) input = move this sprite (timeline, currentX) "L-"
  /\ (move this sprite (timeline, currentX) input).2 = currentX - speed this
  /\ forall before after w,
       createAnimationTimeline (before ++ input :: after) this sprite w =
       createAnimationTimeline (before ++ "L-"%string :: after) this sprite w.
Proof.
  intros Hplus _.
  assert (forall tl x, move this sprite (tl, x) input = move this sprite (tl, x) "L-") as Hmove.
  { intros tl x. rewrite !move_unfold. cbv zeta.
    destruct (decide (sign_token input = Some "+"%char)); [done|]. reflexivity. }
  split; [apply Hmove|]. split.
  - rewrite move_unfold. cbv zeta. cbn [snd].
    destruct (decide (sign_token input = Some "+"%char)); done.
  - intros before after w. unfold createAnimationTimeline, mbind, M_bind.
    destruct (read_x sprite w) as [[x| |] w']; try done.
    rewrite !foldl_app. cbn [foldl].
    destruct (foldl (move this sprite) (gsap.timeline None, x) before) as [tl x'].
    by rewrite Hmove.
Qed.

Lemma unrecognized_sign_moves_left_witness :
  sign_token "Lx" <> Some "+"%char /\ sign_token "Lx" <> Some "-"%char
  /\ (move sample_game 0%nat (gsap.timeline None, 400) "Lx").2 = 400 - 10.
Proof.
  assert (sign_token "Lx" <> Some "+"%char) as H1 by discriminate.
  assert (sign_token "Lx" <> Some "-"%char) as H2 by discriminate.
  split; [exact H1|]. split; [exact H2|].
  exact (proj1 (proj2 (unrecognized_sign_moves_left sample_game 0%nat (gsap.timeline None)
                         400 "Lx" H1 H2))).
Defined.

Lemma movement_chain_child inputData this sprite start i c :
  gsap.children (movement_chain inputData this sprite start) !! i = Some c ->
  exists position, c.2 = step_tween sprite position.
Proof.
  intros Hi. pose proof (movement_chain_children inputData this sprite start) as Hc.
  apply (f_equal (fun l => l !! i)) in Hc. rewrite !list_lookup_fmap, Hi in Hc.
  cbn in Hc. destruct (positions this start inputData !! i) as [p|]; [|done].
  injection Hc as Hc. by exists p.
Qed.

Lemma inject_nat_lt (i j : nat) :
  (i < j)%nat -> inject_Z (Z.of_nat i) + 1 <= inject_Z (Z.of_nat j).
Proof.
  intros Hij. rewrite <- inject_nat_succ. rewrite <- Zle_Qle. lia.
Qed.

(** C6.  The chain built for [N] commands lasts [N * (D + G)]: step [i]
    (counting from 0) takes [D], starts [G] after step [i - 1] has ended,
    at [i * (D + G) + G], and ends at [(i + 1) * (D + G)]; so every step
    has ended before any later one starts and no two steps overlap. *)
Theorem chain_duration_and_order
  (inputData : list string) (this : Game) (sprite : ref) (w : World)
  (o : PIXI.DisplayObject) :
  objects w !! sprite = Some o ->
  let chain := movement_chain inputData this sprite (PIXI.x o) in
  let D := MOVEMENT_DURATION in
  let G := DELAY_BETWEEN_MOVES in
  createAnimationTimeline inputData this sprite w = (Normal tt, started chain w)
  /\ length (gsap.children chain) = length inputData
  /\ gsap.totalDuration chain == inject_Z (Z.of_nat (length inputData)) * (D + G)
  /\ (forall i c, gsap.children chain !! i = Some c ->
        gsap.duration c.2 = D /\ gsap.delay c.2 = G
        /\ c.1 == inject_Z (Z.of_nat i) * (D + G) + G
        /\ gsap.endTime c == (inject_Z (Z.of_nat i) + 1) * (D + G))
  /\ (forall i j ci cj, (i < j)%nat ->
        gsap.children chain !! i = Some ci -> gsap.children chain !! j = Some cj ->
        gsap.endTime ci < cj.1).
Proof.
  intros Ho chain D G.
  destruct (chain_schedule this sprite inputData (PIXI.x o)) as (Hlen & Htotal & Hchildren).
  cbv zeta in Hlen, Htotal, Hchildren.
  change (gsap.children (foldl (move this sprite) (gsap.timeline None, PIXI.x o) inputData).1)
    with (gsap.children chain) in Hlen, Hchildren.
  change (gsap.totalDuration (foldl (move this sprite) (gsap.timeline None, PIXI.x o) inputData).1)
    with (gsap.totalDuration chain) in Htotal.
  split; [by apply createAnimationTimeline_run|].
  split; [done|]. split; [done|]. split.
  - intros i c Hi. destruct (movement_chain_child _ _ _ _ _ _ Hi) as [p ->].
    split; [done|]. split; [done|]. by apply Hchildren.
  - intros i j ci cj Hij Hi Hj.
    destruct (Hchildren i ci Hi) as [_ Hend]. destruct (Hchildren j cj Hj) as [Hstart _].
    rewrite Hend, Hstart. pose proof (inject_nat_lt i j Hij) as Hle.
    unfold period, MOVEMENT_DURATION, DELAY_BETWEEN_MOVES.
    revert Hle. generalize (inject_Z (Z.of_nat i)), (inject_Z (Z.of_nat j)). intros qi qj Hle.
    lra.
Qed.

Lemma chain_duration_and_order_witness :
  objects sample_world !! 0%nat = Some sample_sprite
  /\ gsap.totalDuration (movement_chain ["L+"; "L+"; "L-"]%string sample_game 0%nat 400)
     == 3 * (0.5 + 0.1).
Proof.
  split; [reflexivity|].
  exact (proj1 (proj2 (proj2 (chain_duration_and_order ["L+"; "L+"; "L-"]%string sample_game
                                0%nat sample_world sample_sprite eq_refl)))).
Defined.

Lemma sim_self w :
  Forall (from_option harmless True) (animations w) -> sim w (with_frames quiet w).
Proof.
  intros Hh. split; try done.
  - intros r. cbn. destruct (objects w !! r); constructor. apply sim_obj_refl.
  - cbn. clear Hh. induction (animations w); constructor; auto.
Qed.

(** C8.  Every tween step of the chain targets the sprite and animates its
    [x] and nothing else, and has no callback.  Playing the chain to its end
    leaves the sprite's [y], anchor, alpha and texture, and every other
    object, as they were; and when the chain is the only animation gsap
    plays, so does every single frame. *)
Theorem chain_animates_x_only
  (inputData : list string) (this : Game) (sprite : ref) (w : World)
  (o : PIXI.DisplayObject) :
  objects w !! sprite = Some o ->
  let chain := movement_chain inputData this sprite (PIXI.x o) in
  createAnimationTimeline inputData this sprite w = (Normal tt, started chain w)
  /\ Forall (fun c => gsap.target c.2 = Some sprite
                      /\ (exists v, gsap.vars c.2 = [gsap.to_x v])
                      /\ gsap.onUpdate c.2 = None /\ gsap.onComplete c.2 = None)
       (gsap.children chain)
  /\ (exists o', objects (play chain (started chain w)) !! sprite = Some o'
        /\ PIXI.y o' = PIXI.y o /\ PIXI.anchor o' = PIXI.anchor o
        /\ PIXI.alpha o' = PIXI.alpha o /\ PIXI.node o' = PIXI.node o)
  /\ (forall r, r <> sprite -> objects (play chain (started chain w)) !! r = objects w !! r)
  /\ (animations w = [] -> forall evs r before,
        objects w !! r = Some before ->
        exists after, objects (run_events evs (started chain w)) !! r = Some after
          /\ PIXI.y after = PIXI.y before /\ PIXI.anchor after = PIXI.anchor before
          /\ PIXI.alpha after = PIXI.alpha before /\ PIXI.node after = PIXI.node before).
Proof.
  intros Ho chain.
  split; [by apply createAnimationTimeline_run|]. split; [|split; [|split]].
  - apply Forall_lookup_2. intros i c Hi.
    destruct (movement_chain_child _ _ _ _ _ _ Hi) as [p ->].
    split; [done|]. split; [by exists p|done].
  - destruct (play_movement_chain inputData this sprite (PIXI.x o) (started chain w) o Ho)
      as (Hs & _). eexists. split; [exact Hs|done].
  - intros r Hr.
    destruct (play_movement_chain inputData this sprite (PIXI.x o) (started chain w) o Ho)
      as (_ & Hother & _). by rewrite Hother.
  - intros Hnone evs r before Hr.
    assert (sim (run_events evs (started chain w)) (with_frames quiet (started chain w))) as Hsim.
    { apply sim_events, sim_self. cbn. rewrite Hnone. cbn.
      constructor; [|constructor]. apply harmless_movement_chain. }
    destruct (sim_lookup _ _ r before Hsim Hr) as (after & Ha & Hn & Hy & Hal & Han).
    exists after. split; [done|]. split; [done|]. split; [done|]. split; [done|].
    assert (started_callbacks (animations (with_frames quiet (started chain w)))
            = [reportFinal sprite]) as Hcbs.
    { unfold started, with_frames, with_animations. cbn [animations]. rewrite Hnone.
      rewrite app_nil_l. unfold started_callbacks. subst chain.
      change (timeline_callbacks (movement_chain inputData this sprite (PIXI.x o)) ++ []
              = [reportFinal sprite]).
      by rewrite timeline_callbacks_movement_chain. }
    rewrite Hcbs in Hn. unfold sim_node in Hn.
    destruct (PIXI.node after), (PIXI.node before); try done; try congruence.
    destruct Hn as [-> [->|(n & Hw & _)]]; [done|].
    destruct Hw as [[Hin _]|[[Hin|Hin] _]]; apply list_elem_of_singleton in Hin; discriminate.
Qed.

Lemma chain_animates_x_only_witness :
  objects sample_world !! 0%nat = Some sample_sprite
  /\ exists o',
       objects (play (movement_chain ["L+"; "L+"; "L-"]%string sample_game 0%nat 400)
                  (started (movement_chain ["L+"; "L+"; "L-"]%string sample_game 0%nat 400)
                     sample_world)) !! 0%nat = Some o'
       /\ PIXI.y o' = 300 /\ PIXI.anchor o' = (0.5, 0.5)
       /\ PIXI.alpha o' = 1
       /\ PIXI.node o' = PIXI.Sprite (PIXI.texture SPRITE_URL).
Proof.
  split; [reflexivity|].
  exact (proj1 (proj2 (proj2 (chain_animates_x_only ["L+"; "L+"; "L-"]%string sample_game
                                0%nat sample_world sample_sprite eq_refl)))).
Defined.

(** ** The success path *)

Lemma setupGameScene_run inputData this texture w :
  let sprite := fresh (dom (objects w)) in
  exists w',
    setupGameScene inputData this texture w =
      (Normal tt, started (movement_chain inputData this sprite 400) w')
    /\ objects w !! sprite = None
    /\ objects w' !! sprite =
         Some {| PIXI.node := PIXI.Sprite texture; PIXI.x := 400; PIXI.y := 300;
                 PIXI.alpha := 1; PIXI.anchor := (0.5, 0.5) |}
    /\ console w' = console w /\ animations w' = animations w.
Proof.
  intros sprite. rewrite setupGameScene_eq. eexists. split; [reflexivity|].
  split; [apply not_elem_of_dom, is_fresh|]. split; [|done].
  fold sprite. cbn [modify with_objects objects].
  rewrite lookup_alter. destruct (decide (gameScene this = sprite)) as [->|];
    by rewrite !lookup_alter_eq, lookup_insert_eq.
Qed.

(** C10.  On the success path the game has [S = 10] on an 800 by 600 canvas,
    whose centre is (400, 300); [D] is 0.5 and [G] is 0.1 seconds; the
    sprite is constructed at [x = 400], [y = 300] with anchor (0.5, 0.5) and
    its chain starts from 400, so the x the chain finally reports is
    [400 + 10 * (p - n)] for [p] ['+'] tokens and [n] other tokens. *)
Theorem success_path_constants
  (inputData : list string) (devicePixelRatio : Q) (sched : nat -> list Event)
  (texture : PIXI.Texture) :
  let run := main inputData devicePixelRatio (Resolves tt) (fun _ => Resolves texture)
               (blank sched) in
  exists game sprite,
    run.1 = Normal game
    /\ speed game = 10 /\ MOVEMENT_DURATION = 0.5 /\ DELAY_BETWEEN_MOVES = 0.1
    /\ PIXI.width (app game) = 800 /\ PIXI.height (app game) = 600
    /\ PIXI.width (app game) / 2 == 400 /\ PIXI.height (app game) / 2 == 300
    /\ (exists o, objects run.2 !! sprite = Some o
          /\ PIXI.node o = PIXI.Sprite texture /\ PIXI.y o = 300
          /\ PIXI.anchor o = (0.5, 0.5))
    /\ (exists a, animations run.2 !! 2%nat = Some a
          /\ (a = Some (movement_chain inputData game sprite 400) \/ a = None))
    /\ forall w, exists made w',
         setupGameScene inputData game texture w =
           (Normal tt, started (movement_chain inputData game made 400) w')
         /\ objects w' !! made =
              Some {| PIXI.node := PIXI.Sprite texture; PIXI.x := 400; PIXI.y := 300;
                      PIXI.alpha := 1; PIXI.anchor := (0.5, 0.5) |}
         /\ exists final,
              console (play (movement_chain inputData game made 400)
                         (started (movement_chain inputData game made 400) w'))
                = console w ++ [final_report final]
              /\ final == 400 + 10 * (inject_Z (Z.of_nat (plus_count inputData))
                                      - inject_Z (Z.of_nat (other_count inputData))).
Proof.
  generalize (loaded_still inputData devicePixelRatio texture).
  generalize (main_sim inputData devicePixelRatio (Resolves tt)
                (fun _ => Resolves texture) sched).
  name_run quiet res2 w2. name_run sched res1 w1.
  intros [Hr Hs] (Hg & _ & _ & H4 & Ha & _). specialize (Hs []).
  cbn [run_events foldl] in Hs.
  exists (fresh_game devicePixelRatio), 4%nat. split; [congruence|].
  do 5 (split; [reflexivity|]). split; [by vm_compute|]. split; [by vm_compute|].
  split; [|split].
  - destruct (sim_lookup _ _ _ _ Hs H4) as (o & Ho & Hsim). exists o. split; [done|].
    split; [by apply (sim_obj_sprite _ _ _ _ _ Hsim)|].
    by destruct Hsim as (_ & -> & _ & ->).
  - pose proof (sim_animations _ _ Hs) as Hanim. rewrite Ha in Hanim.
    destruct (Forall2_lookup_r _ _ _ 2%nat _ Hanim eq_refl) as (a & Hl & Hor).
    exists a. split; [done|]. destruct Hor as [->| ->]; [by left|by right].
  - intros w.
    destruct (setupGameScene_run inputData (fresh_game devicePixelRatio) texture w)
      as (w' & Hrun & _ & Hsprite & Hconsole & _).
    exists (fresh (dom (objects w))), w'. split; [done|]. split; [done|].
    pose proof (play_movement_chain inputData (fresh_game devicePixelRatio)
                  (fresh (dom (objects w))) 400
                  (started (movement_chain inputData (fresh_game devicePixelRatio)
                              (fresh (dom (objects w))) 400) w') _ Hsprite)
      as (_ & _ & Hc & _).
    eexists. split.
    + rewrite Hc. cbn [console started with_animations]. by rewrite Hconsole.
    + cbn [PIXI.x]. rewrite positions_last. cbn [speed fresh_game].
      unfold signed_sum, Z.sub. rewrite inject_Z_plus, inject_Z_opp. qring.
Qed.

(** ** The loading percentage *)

Lemma finishing_completes w h p loadingText label s st :
  animations w !! h = Some (Some (finishing loadingText)) ->
  objects w !! loadingText = Some label -> PIXI.node label = PIXI.Text s st ->
  is_progress p = true ->
  exists label', objects (apply_event w (Complete h 0 p)) !! loadingText = Some label'
    /\ PIXI.node label' = PIXI.Text "Loading... 100%" st.
Proof.
  intros Ha Ho Hn Hp. unfold apply_event, child_of. rewrite Ha. cbn. rewrite Hp.
  unfold complete_tween. cbn. rewrite !lookup_alter_eq, Ho. cbn.
  eexists. split; [reflexivity|]. unfold set_text. rewrite Hn. cbn. reflexivity.
Qed.

Lemma started_or_finished (tls : list gsap.Timeline) : forall l,
  Forall2 (fun a1 a2 => a1 = a2 \/ a1 = None) l (Some <$> tls) ->
  Forall2 (fun a tl => a = Some tl \/ a = None) l tls.
Proof.
  induction tls as [|tl tls IH]; intros l Hl; inversion Hl as [|a1 a2 l1 l2 Hhd Htl]; subst.
  - constructor.
  - constructor; [|by apply IH]. destruct Hhd as [->| ->]; [by left|by right].
Qed.

(** *** The order of the success path *)

Lemma bind_step {A B} (m : M A) (f : A -> M B) (w : World) (a : A) :
  (m w).1 = Normal a -> (m ≫= f) w = f a (m w).2.
Proof. unfold mbind, M_bind. destruct (m w) as [r w']. cbn. by intros ->. Qed.

Lemma bind_assoc {A B C} (m : M A) (f : A -> M B) (g : B -> M C) (w : World) :
  ((m ≫= f) ≫= g) w = (m ≫= fun a => f a ≫= g) w.
Proof. unfold mbind, M_bind. by destruct (m w) as [[a| |] w']. Qed.

Lemma bind_congr {A B} (m m' : M A) (f : A -> M B) (w w' : World) :
  m w = m' w' -> (m ≫= f) w = (m' ≫= f) w'.
Proof. unfold mbind, M_bind. by intros ->. Qed.

Lemma try_catch_congr {A} (b b' : M A) (h : Error -> M A) (w w' : World) :
  b w = b' w' -> try_catch b h w = try_catch b' h w'.
Proof. unfold try_catch. by intros ->. Qed.

(** Up to the moment the load settles a run does not depend on how it
    settles: the run is the rest of [loadAssets], from the settled promise
    on, in the world [w_load] of that moment. *)
Lemma main_at_load inputData devicePixelRatio sched :
  exists w_load,
    forall outcome : Promise PIXI.Texture,
      main inputData devicePixelRatio (Resolves tt) (fun _ => outcome) (blank sched) =
      after_load inputData devicePixelRatio outcome w_load.
Proof.
  set (game := fresh_game devicePixelRatio).
  set (fade := with_ease "power2.inOut" (tween (Some (loadingScene game)) [gsap.to_alpha 1] 0.8)).
  (* the worlds of the run and of the run without frames, step by step *)
  pose proof (sim_blank sched) as S0.
  pose proof (proj2 (respects_constructor devicePixelRatio _ _ S0)) as S1.
  assert (respects (update (with_mounted true))) as R2 by respectful.
  pose proof (proj2 (R2 _ _ S1)) as S2.
  assert (respects (assign (loadingScene game) (set_alpha 0))) as R3 by respectful.
  pose proof (proj2 (R3 _ _ S2)) as S3.
  assert (respects (assign (gameScene game) (set_alpha 0))) as R4 by respectful.
  pose proof (proj2 (R4 _ _ S3)) as S4.
  pose proof (proj2 (respects_showLoadingScreen game _ _ S4)) as S5.
  pose proof (proj2 (respects_sleep 100 _ _ S5)) as S6.
  pose proof (proj2 (respects_await_tween fade _ _ S6)) as S7.
  pose proof (proj1 (respects_child_at (loadingScene game) 0 _ _ S7)) as Hchild.
  match type of Hchild with _ = ?r =>
    assert (r = Normal 3%nat) as Hq by (vm_compute; reflexivity) end.
  rewrite Hq in Hchild. clear Hq S0 S1 S2 S3 S4 S5 S6 S7 R2 R3 R4.
  eexists. intros outcome. unfold main, after_load.
  rewrite (bind_step (constructor devicePixelRatio) _ (blank sched) game eq_refl).
  unfold initialize.
  rewrite bind_assoc, (bind_step (update (with_mounted true)) _ _ tt eq_refl).
  rewrite bind_assoc, (bind_step (assign (loadingScene game) (set_alpha 0)) _ _ tt eq_refl).
  rewrite bind_assoc, (bind_step (assign (gameScene game) (set_alpha 0)) _ _ tt eq_refl).
  rewrite bind_assoc, (bind_step (showLoadingScreen game) _ _ tt eq_refl).
  unfold fadeInLoader.
  rewrite bind_assoc, (bind_step (sleep 100) _ _ tt eq_refl).
  rewrite bind_assoc, (bind_step (await_tween fade) _ _ tt eq_refl).
  apply bind_congr. unfold loadAssets. apply try_catch_congr.
  rewrite (bind_step (child_at (loadingScene game) 0) _ _ 3%nat Hchild).
  erewrite bind_step by reflexivity.
  erewrite bind_step by reflexivity.
  erewrite bind_step by reflexivity.
  erewrite bind_step by reflexivity.
  erewrite bind_step by reflexivity.
  unfold load. rewrite bind_assoc. erewrite bind_step by reflexivity.
  unfold await. rewrite bind_assoc. erewrite bind_step by reflexivity.
  reflexivity.
Qed.

Lemma transitionToGame_returns inputData this texture w :
  (transitionToGame inputData this texture w).1 = Normal tt.
Proof.
  unfold transitionToGame.
  destruct (setupGameScene_run inputData this texture w) as (w' & Hrun & _).
  rewrite (bind_step _ _ w tt); [reflexivity|by rewrite Hrun].
Qed.

Lemma after_load_pending inputData devicePixelRatio w :
  after_load inputData devicePixelRatio Pending w = (Hang, w).
Proof. reflexivity. Qed.

Lemma after_load_resolved inputData devicePixelRatio texture w :
  after_load inputData devicePixelRatio (Resolves texture) w =
  (Normal (fresh_game devicePixelRatio),
   (transitionToGame inputData (fresh_game devicePixelRatio) texture
      (sleep 300 (started (finishing 3%nat) w)).2).2).
Proof.
  unfold after_load.
  set (paused := (sleep 300 (started (finishing 3%nat) w)).2).
  pose proof (transitionToGame_returns inputData (fresh_game devicePixelRatio) texture
                paused) as Hret.
  etrans.
  { apply bind_congr, try_catch_congr
      with (b' := transitionToGame inputData (fresh_game devicePixelRatio) texture)
           (w' := paused).
    erewrite bind_step by reflexivity.
    erewrite bind_step by reflexivity.
    erewrite bind_step by reflexivity.
    reflexivity. }
  unfold mbind, M_bind, try_catch.
  destruct (transitionToGame inputData (fresh_game devicePixelRatio) texture paused)
    as [r w']. cbn in Hret. by subst r.
Qed.

(** The success path is the path to the pending load, then the finishing
    tween, then the pause, then the transition. *)
Lemma success_run_order inputData devicePixelRatio sched texture :
  let waiting := main inputData devicePixelRatio (Resolves tt) (fun _ => Pending)
                   (blank sched) in
  let loaded := main inputData devicePixelRatio (Resolves tt) (fun _ => Resolves texture)
                  (blank sched) in
  waiting.1 = Hang
  /\ loaded =
     (Normal (fresh_game devicePixelRatio),
      (transitionToGame inputData (fresh_game devicePixelRatio) texture
         (sleep 300 (started (finishing 3%nat) waiting.2)).2).2).
Proof.
  cbv zeta. destruct (main_at_load inputData devicePixelRatio sched) as (w_load & H).
  rewrite (H Pending), (H (Resolves texture)), after_load_pending, after_load_resolved.
  done.
Qed.

(** *** Frames change neither the frames to come nor, unless they end
    something, the animations *)

Lemma run_callback_keeps p cb w :
  frames (run_callback p cb w) = frames w
  /\ animations (run_callback p cb w) = animations w
  /\ tick (run_callback p cb w) = tick w.
Proof. destruct cb; cbn; try done. by destruct (objects w !! sprite). Qed.

Lemma run_callback_opt_keeps p cb w :
  frames (run_callback_opt p cb w) = frames w
  /\ animations (run_callback_opt p cb w) = animations w
  /\ tick (run_callback_opt p cb w) = tick w.
Proof. destruct cb; [apply run_callback_keeps|done]. Qed.

Lemma write_vars_keeps t vs w :
  frames (write_vars t vs w) = frames w
  /\ animations (write_vars t vs w) = animations w
  /\ tick (write_vars t vs w) = tick w.
Proof.
  destruct t as [r|]; [|done]. cbn [write_vars]. revert w.
  induction vs as [|v vs IH]; intros w; [done|].
  cbn [foldl]. destruct (IH (write_var r v w)) as (-> & -> & ->). by destruct v.
Qed.

Lemma render_tween_keeps p vals tw w :
  frames (render_tween p vals tw w) = frames w
  /\ animations (render_tween p vals tw w) = animations w
  /\ tick (render_tween p vals tw w) = tick w.
Proof.
  unfold render_tween.
  destruct (run_callback_opt_keeps p (gsap.onUpdate tw)
              (write_vars (gsap.target tw) vals w)) as (-> & -> & ->).
  apply write_vars_keeps.
Qed.

Lemma complete_tween_frames p tw w : frames (complete_tween p tw w) = frames w.
Proof.
  unfold complete_tween.
  rewrite (proj1 (run_callback_opt_keeps _ _ _)), (proj1 (run_callback_opt_keeps _ _ _)).
  apply write_vars_keeps.
Qed.

Lemma finish_timeline_frames tl w : frames (finish_timeline tl w) = frames w.
Proof.
  unfold finish_timeline.
  by rewrite (proj1 (run_callback_opt_keeps _ _ _)), (proj1 (run_callback_opt_keeps _ _ _)).
Qed.

Lemma play_frames tl w : frames (play tl w) = frames w.
Proof.
  unfold play. rewrite finish_timeline_frames. generalize (gsap.children tl). intros cs.
  revert w. induction cs as [|c cs IH]; intros w; [done|].
  cbn [foldl]. by rewrite IH, complete_tween_frames.
Qed.

Lemma apply_event_frames w e : frames (apply_event w e) = frames w.
Proof.
  destruct e as [h i vals p|h i p|h]; cbn [apply_event].
  - destruct (child_of w h i); [|done]. destruct (_ && _); [|done].
    apply render_tween_keeps.
  - destruct (child_of w h i); [|done]. destruct (is_progress p); [|done].
    apply complete_tween_frames.
  - destruct (animations w !! h) as [[tl|]|]; try done. by rewrite finish_timeline_frames.
Qed.

Lemma run_events_frames evs : forall w, frames (run_events evs w) = frames w.
Proof.
  unfold run_events. induction evs as [|e evs IH]; intros w; [done|].
  cbn [foldl]. by rewrite IH, apply_event_frames.
Qed.

Lemma updates_keep_animations evs :
  Forall is_update evs -> forall w, animations (run_events evs w) = animations w.
Proof.
  unfold run_events. induction 1 as [|e evs He _ IH]; intros w; [done|].
  cbn [foldl]. rewrite IH. destruct e as [h i vals p| |]; [|done..].
  cbn [apply_event]. destruct (child_of w h i); [|done]. destruct (_ && _); [|done].
  apply render_tween_keeps.
Qed.

Lemma keeps_frames_ret {A} (a : A) : keeps_frames (mret a).
Proof. done. Qed.

Lemma keeps_frames_throw {A} e : keeps_frames (throw (A := A) e).
Proof. done. Qed.

Lemma keeps_frames_bind {A B} (m : M A) (f : A -> M B) :
  keeps_frames m -> (forall a, keeps_frames (f a)) -> keeps_frames (m ≫= f).
Proof.
  intros Hm Hf w. specialize (Hm w). unfold mbind, M_bind.
  destruct (m w) as [[a| |] w']; cbn in *; [|done..]. by rewrite Hf.
Qed.

Lemma keeps_frames_try_catch {A} (m : M A) (h : Error -> M A) :
  keeps_frames m -> (forall e, keeps_frames (h e)) -> keeps_frames (try_catch m h).
Proof.
  intros Hm Hh w. specialize (Hm w). unfold try_catch.
  destruct (m w) as [[a|e|] w']; cbn in *; [done| |done]. by rewrite Hh.
Qed.

Lemma keeps_frames_update f :
  (forall w, frames (f w) = frames w) -> keeps_frames (update f).
Proof. intros Hf w. apply Hf. Qed.

Lemma keeps_frames_assign r f : keeps_frames (assign r f).
Proof. done. Qed.

Lemma keeps_frames_construct n : keeps_frames (construct n).
Proof. done. Qed.

Lemma keeps_frames_child_at r i : keeps_frames (child_at r i).
Proof.
  intros w. unfold child_at. destruct (objects w !! r) as [o|]; [|done].
  by destruct (PIXI.children o !! i).
Qed.

Lemma keeps_frames_read_x r : keeps_frames (read_x r).
Proof. intros w. unfold read_x. by destruct (objects w !! r). Qed.

Lemma keeps_frames_yield : keeps_frames yield.
Proof. intros w. unfold yield. cbn [snd]. by rewrite run_events_frames. Qed.

Lemma keeps_frames_spawn tl : keeps_frames (spawn tl).
Proof. done. Qed.

Lemma keeps_frames_console_error message e : keeps_frames (console_error message e).
Proof. done. Qed.

Create HintDb frames discriminated.

#[local] Hint Resolve keeps_frames_ret keeps_frames_throw keeps_frames_assign
  keeps_frames_construct keeps_frames_child_at keeps_frames_read_x keeps_frames_yield
  keeps_frames_spawn keeps_frames_console_error : frames.

Ltac framed :=
  repeat first
    [ solve [auto with frames]
    | apply keeps_frames_bind; [|intros ?]
    | apply keeps_frames_try_catch; [|intros ?]
    | apply keeps_frames_update; intros ?;
      first [done | apply complete_tween_frames | apply play_frames] ].

Lemma keeps_frames_await {A} (p : Promise A) : keeps_frames (await p).
Proof. unfold await. destruct p; framed. Qed.

Lemma keeps_frames_sleep ms : keeps_frames (sleep ms).
Proof. unfold sleep. framed. Qed.

Lemma keeps_frames_main inputData devicePixelRatio Assets_init Assets_load :
  keeps_frames (main inputData devicePixelRatio Assets_init Assets_load).
Proof.
  pose proof (@keeps_frames_await). pose proof keeps_frames_sleep.
  unfold main, constructor, new_Application, initialize, showLoadingScreen, fadeInLoader,
    loadAssets, load, transitionToGame, setupGameScene, createAnimationTimeline, showError,
    await_tween, await_timeline.
  framed.
Qed.

(** *** The ramp and the pause *)

Lemma ramp_renders w h p loadingText label s st :
  animations w !! h = Some (Some (ramp loadingText)) ->
  objects w !! loadingText = Some label -> PIXI.node label = PIXI.Text s st ->
  is_progress p = true ->
  exists label', objects (apply_event w (Update h 0 [] p)) !! loadingText = Some label'
    /\ PIXI.node label' = PIXI.Text (loading_label (ramp_percent p)) st.
Proof.
  intros Ha Ho Hn Hp. unfold apply_event, child_of. rewrite Ha. cbn. rewrite Hp.
  unfold render_tween. cbn. rewrite !lookup_alter_eq, Ho. cbn.
  eexists. split; [reflexivity|]. unfold set_text. rewrite Hn. cbn. reflexivity.
Qed.

Lemma ramp_percent_mono p q :
  0 <= p -> p <= q -> q <= 1 -> (ramp_percent p <= ramp_percent q <= 90)%Z.
Proof.
  intros H0 Hpq H1. split.
  - unfold ramp_percent, Number.mul. apply Qfloor_resp_le.
    destruct (progress_double p) as [Hp0 _]; [lra..|].
    pose proof (round64_mono p q H0 Hpq). apply round64_mono; lra.
  - apply ramp_bound. unfold is_progress. rewrite andb_true_iff, !Qle_bool_iff. lra.
Qed.

Lemma sleep_world ms w :
  (sleep ms w).2 =
  with_elapsed (fun t => t + ms / 1000) (run_events (frames w (tick w)) (with_tick S w)).
Proof. reflexivity. Qed.

Lemma pause_sim tl w1 w2 :
  harmless tl -> sim w1 w2 ->
  sim (sleep 300 (started tl w1)).2 (sleep 300 (started tl w2)).2.
Proof. intros Htl Hsim. apply (respects_sleep 300). by apply sim_spawn. Qed.

Lemma paused_still inputData devicePixelRatio :
  let still := main inputData devicePixelRatio (Resolves tt) (fun _ => Pending)
                 (blank quiet) in
  let paused := (sleep 300 (started (finishing 3%nat) still.2)).2 in
  tick still.2 = 5%nat
  /\ objects paused =
       <[0%nat := PIXI.create (PIXI.Container [1%nat; 2%nat])]>
       (<[1%nat := PIXI.create (PIXI.Container [3%nat])]>
       (<[2%nat := set_alpha 0 (PIXI.create (PIXI.Container []))]>
       (<[3%nat := set_y (600 / 2) (set_x (800 / 2) (anchor_set 0.5
                     (PIXI.create (PIXI.Text "Loading... 0%" loading_style))))]> ∅)))
  /\ animations paused = [Some (ramp 3%nat); Some (finishing 3%nat)]
  /\ elapsed paused == elapsed still.2 + 300 / 1000.
Proof.
  cbv zeta. split; [vm_compute; reflexivity|]. split; [vm_compute; reflexivity|].
  split; vm_compute; reflexivity.
Qed.

(** The pause: what the page looks like when [transitionToGame] is called. *)
Lemma paused_run inputData devicePixelRatio sched :
  let waiting := main inputData devicePixelRatio (Resolves tt) (fun _ => Pending)
                   (blank sched) in
  let paused := (sleep 300 (started (finishing 3%nat) waiting.2)).2 in
  frames waiting.2 = sched /\ tick waiting.2 = 5%nat
  /\ elapsed paused == elapsed waiting.2 + 300 / 1000
  /\ (exists loading playing,
        objects paused !! 1%nat = Some loading
        /\ PIXI.node loading = PIXI.Container [3%nat] /\ PIXI.alpha loading = 1
        /\ objects paused !! 2%nat = Some playing
        /\ PIXI.node playing = PIXI.Container [] /\ PIXI.alpha playing = 0)
  /\ (forall r o, objects paused !! r = Some o -> is_sprite o = false)
  /\ Forall2 (fun a tl => a = Some tl \/ a = None) (animations paused)
       [ramp 3%nat; finishing 3%nat]
  /\ (forall evs p,
        sched 5%nat = evs ++ [Complete 1 0 p] -> Forall is_update evs ->
        is_progress p = true ->
        exists label, objects paused !! 3%nat = Some label
          /\ PIXI.node label = PIXI.Text "Loading... 100%" loading_style).
Proof.
  generalize (keeps_frames_main inputData devicePixelRatio (Resolves tt)
                (fun _ => Pending) (blank sched)).
  generalize (paused_still inputData devicePixelRatio).
  generalize (main_sim inputData devicePixelRatio (Resolves tt) (fun _ => Pending) sched).
  name_run quiet res2 w2. name_run sched res1 w1.
  intros [_ Hs] (Ht2 & Ho2 & Ha2 & He2) Hf. specialize (Hs []).
  cbn [run_events foldl] in Hs. change (frames (blank sched)) with sched in Hf.
  pose proof (pause_sim (finishing 3%nat) w1 w2 (harmless_finishing 3%nat) Hs) as Hp.
  set (paused := (sleep 300 (started (finishing 3%nat) w1)).2) in *.
  set (pausedq := (sleep 300 (started (finishing 3%nat) w2)).2) in *.
  assert (tick w1 = 5%nat) as Ht1 by (by rewrite (sim_tick _ _ Hs)).
  split; [done|]. split; [done|]. split; [|split; [|split; [|split]]].
  - rewrite (sim_elapsed _ _ Hp), He2, (sim_elapsed _ _ Hs). reflexivity.
  - assert (objects pausedq !! 1%nat = Some (PIXI.create (PIXI.Container [3%nat]))) as H1
      by (by rewrite Ho2).
    assert (objects pausedq !! 2%nat = Some (set_alpha 0 (PIXI.create (PIXI.Container []))))
      as H2 by (by rewrite Ho2).
    destruct (sim_lookup _ _ _ _ Hp H1) as (loading & Hl & Hsl).
    destruct (sim_lookup _ _ _ _ Hp H2) as (playing & Hg & Hsg).
    exists loading, playing. split; [done|].
    split; [by apply (sim_obj_container _ _ _ _ _ Hsl)|].
    split; [by destruct Hsl as (_ & _ & -> & _)|]. split; [done|].
    split; [by apply (sim_obj_container _ _ _ _ _ Hsg)|].
    by destruct Hsg as (_ & _ & -> & _).
  - intros r o1 Ho1. destruct (sim_lookup_l _ _ _ _ Hp Ho1) as (o2 & H2 & Hsim).
    rewrite (sim_obj_is_sprite _ _ _ _ Hsim). rewrite Ho2 in H2. clear -H2.
    repeat (rewrite lookup_insert in H2; destruct (decide _); [by injection H2 as <-|]).
    by rewrite lookup_empty in H2.
  - pose proof (sim_animations _ _ Hp) as Hanim. rewrite Ha2 in Hanim.
    by apply (started_or_finished [ramp 3%nat; finishing 3%nat]).
  - intros evs p Hsched Hup Hprog.
    assert (objects pausedq = objects w2
            /\ animations pausedq = animations w2 ++ [Some (finishing 3%nat)]) as [Eo Ea].
    { subst pausedq. rewrite sleep_world.
      cbn [with_elapsed objects animations started with_animations frames tick].
      rewrite (sim_quiet _ _ Hs). done. }
    subst paused. rewrite sleep_world.
    cbn [with_elapsed objects started with_animations frames tick].
    rewrite Hf, Ht1, Hsched. unfold run_events. rewrite foldl_app. cbn [foldl].
    fold (run_events evs (with_tick S (started (finishing 3%nat) w1))).
    set (w := run_events evs (with_tick S (started (finishing 3%nat) w1))).
    assert (sim w (with_tick S (started (finishing 3%nat) w2))) as Hsw.
    { apply sim_events, sim_tick_both, sim_spawn; [apply harmless_finishing|done]. }
    assert (objects (with_tick S (started (finishing 3%nat) w2)) !! 3%nat =
            Some (set_y (600 / 2) (set_x (800 / 2) (anchor_set 0.5
                    (PIXI.create (PIXI.Text "Loading... 0%" loading_style)))))) as H3.
    { cbn [with_tick started with_animations objects]. by rewrite <- Eo, Ho2. }
    destruct (sim_lookup _ _ _ _ Hsw H3) as (label & Hl & Hsl).
    destruct (sim_obj_text _ _ _ _ _ _ Hsl eq_refl) as (s1 & Hn & _).
    apply (finishing_completes w 1 p 3%nat label s1 loading_style); [|done..].
    subst w. rewrite (updates_keep_animations evs Hup).
    cbn [with_tick started with_animations animations].
    pose proof (sim_animations _ _ Hs) as Hanim.
    assert (animations w2 = [Some (ramp 3%nat)]) as Ea2.
    { rewrite Ea in Ha2.
      by apply (app_inj_tail (animations w2) [Some (ramp 3%nat)]) in Ha2 as [E _]. }
    rewrite Ea2 in Hanim. inversion Hanim as [|a1 a2 l1 l2 _ Htl]; subst.
    inversion Htl; subst. reflexivity.
Qed.


(** ** Runs on concrete inputs *)

(** The scenario of the specification, run from a blank page: the chain is
    the third animation started, and playing it moves the sprite to 410 and
    reports 410. *)
Example scenario_run :
  let run := main ["L+"; "L+"; "L-"]%string 1 (Resolves tt)
               (fun _ => Resolves (PIXI.texture SPRITE_URL)) (blank quiet) in
  let chain := movement_chain ["L+"; "L+"; "L-"]%string (fresh_game 1) 4%nat 400 in
  animations run.2 !! 2%nat = Some (Some chain)
  /\ running_targets chain = [410; 420; 410]
  /\ console (play chain run.2) = [final_report 410]
  /\ PIXI.x <$> objects (play chain run.2) !! 4%nat = Some 410.
Proof. cbv zeta. repeat split; vm_compute; reflexivity. Qed.

(** A tick in which the finishing tween ends and the ramp, still running,
    renders afterwards: the label is back at the ramp's percentage. *)
Example ramp_after_finish :
  let sched := fun k => if decide (k = 5%nat)
                        then [Complete 1 0 1; Update 0 0 [] 0.5] else [] in
  let run := main [] 1 (Resolves tt) (fun _ => Resolves (PIXI.texture SPRITE_URL))
               (blank sched) in
  PIXI.node <$> objects run.2 !! 3%nat = Some (PIXI.Text "Loading... 45%" loading_style).
Proof. cbv zeta. vm_compute. reflexivity. Qed.

(** A rejected load: the console holds the error and nothing else. *)
Example rejected_run :
  let run := main ["L+"]%string 1 (Resolves tt) (fun _ => Rejects (Rejection "404"))
               (blank quiet) in
  run.1 = Normal (fresh_game 1)
  /\ console run.2 = [error "Error loading assets:" (Rejection "404")]
  /\ objects run.2 = error_store.
Proof. cbv zeta. repeat split; vm_compute; reflexivity. Qed.

(** ** Further properties of the animation sequencer *)

Lemma foldl_move_same_signs this sprite (l l' : list string) :
  Forall2 (fun a b => sign_token a = sign_token b) l l' ->
  forall state, foldl (move this sprite) state l = foldl (move this sprite) state l'.
Proof.
  induction 1 as [|a b l l' Hab _ IH]; intros [tl currentX]; [done|].
  cbn [foldl]. rewrite !move_unfold. cbv zeta. rewrite Hab. apply IH.
Qed.

(** X1.  Only the second character of a command is looked at: two command
    sequences whose commands have the same sign tokens, whatever their
    direction tags and whatever follows the sign, give the same chain. *)
Theorem only_sign_token_matters
  (inputData inputData' : list string) (this : Game) (sprite : ref) (w : World) :
  Forall2 (fun a b => sign_token a = sign_token b) inputData inputData' ->
  createAnimationTimeline inputData this sprite w =
  createAnimationTimeline inputData' this sprite w.
Proof.
  intros Hsame. unfold createAnimationTimeline, mbind, M_bind.
  destruct (read_x sprite w) as [[x| |] w']; try done.
  by rewrite (foldl_move_same_signs this sprite _ _ Hsame).
Qed.

Lemma only_sign_token_matters_witness :
  Forall2 (fun a b => sign_token a = sign_token b)
    ["L+"; "L-"; "L"]%string ["R+"; "X-tail"; ""]%string
  /\ createAnimationTimeline ["L+"; "L-"; "L"]%string sample_game 0%nat sample_world =
     createAnimationTimeline ["R+"; "X-tail"; ""]%string sample_game 0%nat sample_world.
Proof.
  assert (Forall2 (fun a b => sign_token a = sign_token b)
            ["L+"; "L-"; "L"]%string ["R+"; "X-tail"; ""]%string) as H
    by (repeat constructor).
  split; [exact H|].
  exact (only_sign_token_matters _ _ sample_game 0%nat sample_world H).
Defined.

Lemma signed_sum_bound commands :
  (- Z.of_nat (length commands) <= signed_sum commands <= Z.of_nat (length commands))%Z.
Proof. unfold signed_sum. pose proof (counts_total commands). lia. Qed.

Lemma scaled_bound (s z n : Q) :
  - n <= z -> z <= n -> - (n * Qabs s) <= s * z /\ s * z <= n * Qabs s.
Proof.
  intros Hlo Hhi. apply Qabs_Qle_condition.
  rewrite Qabs_Qmult, Qmult_comm.
  assert (Qabs z <= n) as Hz by (by apply Qabs_Qle_condition).
  pose proof (Qabs_nonneg s) as Hs.
  apply Qmult_le_compat_r; done.
Qed.

Lemma positions_step this commands : forall currentX i a b,
  positions this currentX commands !! i = Some a ->
  positions this currentX commands !! S i = Some b ->
  b = a + speed this \/ b = a + - speed this.
Proof.
  induction commands as [|input rest IH]; intros currentX i a b Ha Hb; [done|].
  cbn [positions] in Ha, Hb. destruct i as [|i].
  - injection Ha as <-. destruct rest as [|input' rest']; [done|].
    cbn [positions] in Hb. injection Hb as <-.
    destruct (decide (sign_token input' = _)); [by left|by right].
  - exact (IH _ i a b Ha Hb).
Qed.

(** X2.  Every step of the chain moves the target by exactly the step
    magnitude, up or down: the first target is one step from the start,
    each later one is one step from the one before, and so the target after
    [i + 1] steps is within [(i + 1) * |S|] of the start.  With [S = 10] and
    a start at 400 every target of a sequence of at most 40 commands lies on
    the 800 wide canvas. *)
Theorem steps_of_one_magnitude
  (inputData : list string) (this : Game) (sprite : ref) (w : World)
  (o : PIXI.DisplayObject) :
  objects w !! sprite = Some o ->
  let start := PIXI.x o in
  let chain := movement_chain inputData this sprite start in
  createAnimationTimeline inputData this sprite w = (Normal tt, started chain w)
  /\ (forall a, running_targets chain !! 0%nat = Some a ->
        a = start + speed this \/ a = start + - speed this)
  /\ (forall i a b, running_targets chain !! i = Some a ->
        running_targets chain !! S i = Some b ->
        b = a + speed this \/ b = a + - speed this)
  /\ (forall i t, running_targets chain !! i = Some t ->
        start - inject_Z (Z.of_nat (S i)) * Qabs (speed this) <= t
        /\ t <= start + inject_Z (Z.of_nat (S i)) * Qabs (speed this))
  /\ (speed this = 10 -> start = 400 -> (length inputData <= 40)%nat ->
        forall i t, running_targets chain !! i = Some t -> 0 <= t /\ t <= 800).
Proof.
  intros Ho start chain. subst start chain. rewrite movement_chain_targets.
  assert (forall i t, positions this (PIXI.x o) inputData !! i = Some t ->
            PIXI.x o - inject_Z (Z.of_nat (S i)) * Qabs (speed this) <= t
            /\ t <= PIXI.x o + inject_Z (Z.of_nat (S i)) * Qabs (speed this)) as Hbound.
  { intros i t Hi. pose proof (lookup_lt_Some _ _ _ Hi) as Hlt.
    rewrite positions_length in Hlt.
    pose proof (positions_lookup this inputData _ i t Hi) as Ht.
    pose proof (signed_sum_bound (take (S i) inputData)) as [Hlo Hhi].
    rewrite length_take, Nat.min_l in Hlo, Hhi by lia.
    destruct (scaled_bound (speed this) (inject_Z (signed_sum (take (S i) inputData)))
                (inject_Z (Z.of_nat (S i)))) as [H1 H2].
    - rewrite <- inject_Z_opp. by rewrite <- Zle_Qle.
    - by rewrite <- Zle_Qle.
    - rewrite Ht. revert H1 H2.
      generalize (speed this * inject_Z (signed_sum (take (S i) inputData))).
      generalize (inject_Z (Z.of_nat (S i)) * Qabs (speed this)).
      intros q1 q2 H1 H2. split; lra. }
  split; [by apply createAnimationTimeline_run|]. split; [|split; [|split; [exact Hbound|]]].
  - intros a Ha. destruct inputData as [|input rest]; [done|].
    cbn [positions] in Ha. injection Ha as <-.
    destruct (decide (sign_token input = _)); [by left|by right].
  - apply positions_step.
  - intros HS Hstart Hlen i t Hi. pose proof (lookup_lt_Some _ _ _ Hi) as Hlt.
    rewrite positions_length in Hlt. destruct (Hbound i t Hi) as [H1 H2].
    rewrite HS, Hstart in H1, H2. change (Qabs 10) with 10 in H1, H2.
    assert (inject_Z (Z.of_nat (S i)) <= 40) as Hi40.
    { change 40 with (inject_Z 40). rewrite <- Zle_Qle. lia. }
    revert H1 H2 Hi40. generalize (inject_Z (Z.of_nat (S i))). intros q H1 H2 Hq.
    split; lra.
Qed.

Lemma steps_of_one_magnitude_witness :
  objects sample_world !! 0%nat = Some sample_sprite
  /\ forall i t,
       running_targets (movement_chain ["L+"; "L+"; "L-"]%string sample_game 0%nat 400) !! i
         = Some t -> 0 <= t /\ t <= 800.
Proof.
  split; [reflexivity|].
  apply (steps_of_one_magnitude ["L+"; "L+"; "L-"]%string sample_game 0%nat sample_world
           sample_sprite eq_refl); [reflexivity|reflexivity|cbn; lia].
Defined.

Lemma positions_app this l1 : forall l2 currentX,
  positions this currentX (l1 ++ l2) =
  positions this currentX l1 ++
  positions this (default currentX (last (positions this currentX l1))) l2.
Proof.
  induction l1 as [|input rest IH]; intros l2 currentX; [done|].
  change (positions this currentX ((input :: rest) ++ l2)) with
    (let next := currentX +
       (if decide (sign_token input = Some "+"%char) then speed this else - speed this) in
     next :: positions this next (rest ++ l2)).
  cbn [positions]. cbv zeta. by rewrite last_cons_default, IH.
Qed.

Lemma signed_sum_app l1 l2 : signed_sum (l1 ++ l2) = (signed_sum l1 + signed_sum l2)%Z.
Proof.
  induction l1 as [|input rest IH].
  - change (signed_sum []) with 0%Z. change ([] ++ l2) with l2. lia.
  - change ((input :: rest) ++ l2) with (input :: (rest ++ l2)).
    rewrite !signed_sum_cons, IH. lia.
Qed.

Lemma signed_sum_perm l1 l2 : l1 ≡ₚ l2 -> signed_sum l1 = signed_sum l2.
Proof.
  induction 1 as [|a l l' _ IH|a b l|l l' l'' _ IH1 _ IH2]; [done|..].
  - by rewrite !signed_sum_cons, IH.
  - rewrite !signed_sum_cons. lia.
  - by rewrite IH1.
Qed.

Lemma movement_chain_duration inputData this sprite start :
  gsap.totalDuration (movement_chain inputData this sprite start) ==
  inject_Z (Z.of_nat (length inputData)) * period.
Proof. apply (chain_schedule this sprite inputData start). Qed.

(** X3.  Chains compose: the chain of a concatenated sequence drives the
    sprite through the targets of the first part and then through those of
    the second part started where the first one ends; its duration is the
    sum of the two durations; the final position moves by the signed sum of
    the second part, so appending a balanced part changes nothing, and the
    final position does not depend on the order of the commands. *)
Theorem chains_compose
  (l1 l2 : list string) (this : Game) (sprite : ref) (w : World)
  (o : PIXI.DisplayObject) :
  objects w !! sprite = Some o ->
  let start := PIXI.x o in
  let chain l s := movement_chain l this sprite s in
  let final l := default start (last (running_targets (chain l start))) in
  createAnimationTimeline (l1 ++ l2) this sprite w =
    (Normal tt, started (chain (l1 ++ l2) start) w)
  /\ running_targets (chain (l1 ++ l2) start) =
     running_targets (chain l1 start) ++ running_targets (chain l2 (final l1))
  /\ gsap.totalDuration (chain (l1 ++ l2) start) ==
     gsap.totalDuration (chain l1 start) + gsap.totalDuration (chain l2 (final l1))
  /\ final (l1 ++ l2) == final l1 + speed this * inject_Z (signed_sum l2)
  /\ (signed_sum l2 = 0%Z -> final (l1 ++ l2) == final l1)
  /\ (forall l, l ≡ₚ l1 ++ l2 -> final l == final (l1 ++ l2)).
Proof.
  intros Ho start chain final. subst chain final. cbv beta.
  rewrite !movement_chain_targets.
  assert (default start (last (positions this start (l1 ++ l2))) ==
          default start (last (positions this start l1))
          + speed this * inject_Z (signed_sum l2)) as Hfinal.
  { rewrite !positions_last, signed_sum_app, inject_Z_plus. qring. }
  split; [by apply createAnimationTimeline_run|].
  split; [apply positions_app|]. split; [|split; [exact Hfinal|split]].
  - rewrite !movement_chain_duration, length_app, Nat2Z.inj_add, inject_Z_plus. ring.
  - intros Hbalanced. rewrite Hfinal, Hbalanced. unfold inject_Z. ring.
  - intros l Hl. rewrite movement_chain_targets, !positions_last.
    by rewrite (signed_sum_perm _ _ Hl).
Qed.

Lemma chains_compose_witness :
  objects sample_world !! 0%nat = Some sample_sprite
  /\ running_targets (movement_chain (["L+"; "L+"]%string ++ ["L-"; "Lx"]%string) sample_game 0%nat 400)
     = running_targets (movement_chain ["L+"; "L+"]%string sample_game 0%nat 400)
       ++ running_targets (movement_chain ["L-"; "Lx"]%string sample_game 0%nat
            (default 400 (last (running_targets
               (movement_chain ["L+"; "L+"]%string sample_game 0%nat 400))))).
Proof.
  split; [reflexivity|].
  apply (chains_compose ["L+"; "L+"]%string ["L-"; "Lx"]%string sample_game 0%nat
           sample_world sample_sprite eq_refl).
Defined.

(** ** The percentages of the loading label *)

Lemma Qfloor_shift (a b : Q) (z : Z) :
  b + inject_Z z <= a -> (Qfloor b + z <= Qfloor a)%Z.
Proof.
  intros H. rewrite <- (Qfloor_Z (Qfloor b + z)). apply Qfloor_resp_le.
  rewrite inject_Z_plus. pose proof (Qfloor_le b). lra.
Qed.

Lemma run_update_text (r : ref) (s' : string) (w : World) label s st :
  objects w !! r = Some label -> PIXI.node label = PIXI.Text s st ->
  PIXI.node <$> objects (modify r (set_text s') w) !! r = Some (PIXI.Text s' st).
Proof.
  intros Hl Hn. cbn. rewrite lookup_alter_eq, Hl. cbn.
  unfold set_text. rewrite Hn. by destruct label.
Qed.

Lemma round_half_even_error q :
  q - (1 # 2) <= inject_Z (round_half_even q) /\ inject_Z (round_half_even q) <= q + (1 # 2).
Proof.
  pose proof (Qfloor_le q) as H1. pose proof (Qlt_floor q) as H2.
  rewrite inject_Z_plus in H2. change (inject_Z 1) with 1 in H2.
  unfold round_half_even. cbv zeta.
  destruct (Qcompare_spec (q - inject_Z (Qfloor q)) (1 # 2)) as [H|H|H];
    [destruct (Z.even _)|..]; rewrite ?inject_Z_plus; change (inject_Z 1) with 1;
    split; lra.
Qed.

(** A rounded number is within half a unit of the last place of the exact
    one. *)
Lemma round64_error x k :
  0 < x -> x < pow2 (k + 1) -> (-1022 <= k)%Z ->
  x - pow2 (k - 53) <= round64 x /\ round64 x <= x + pow2 (k - 53).
Proof.
  intros Hx Hlt Hk. rewrite round64_pos by done.
  assert (ulp_exponent x <= k - 52)%Z as He.
  { rewrite (ulp_exponent_pos x Hx). destruct (ilog2_spec x Hx) as [H1 _].
    assert (ilog2 x < k + 1)%Z by (apply pow2_lt_inv; lra). lia. }
  set (e := ulp_exponent x) in *. pose proof (pow2_pos e) as Hp.
  destruct (round_half_even_error (x / pow2 e)) as [H1 H2].
  assert (x / pow2 e * pow2 e == x) as Hx' by (field; lra).
  assert (pow2 e * (1 # 2) <= pow2 (k - 53)) as Hulp.
  { apply Qle_trans with (pow2 (e - 1)); [|apply pow2_le; lia].
    unfold Z.sub. rewrite pow2_plus. apply Qmult_le_l; [done|]. by vm_compute. }
  apply (Qmult_le_compat_r _ _ (pow2 e)) in H1; [|lra].
  apply (Qmult_le_compat_r _ _ (pow2 e)) in H2; [|lra].
  revert H1 H2 Hx' Hulp.
  generalize (inject_Z (round_half_even (x / pow2 e))). generalize (x / pow2 e).
  generalize (pow2 (k - 53)). generalize (pow2 e). intros P1 P2 y r H1 H2 Hy Hulp.
  assert (r * P1 >= x - P1 * (1 # 2)) by (rewrite <- Hy; lra).
  assert (r * P1 <= x + P1 * (1 # 2)) by (rewrite <- Hy; lra).
  split; lra.
Qed.

Lemma finish_at_least_10 p :
  0 <= p -> p <= 1 -> (10 <= finish_percent p)%Z.
Proof.
  intros H0 H1. destruct (progress_double p H0 H1) as [Hd0 Hd1].
  unfold finish_percent, Number.mul, Number.add.
  assert (Number.literal 0.1 <= round64 (round64 p + Number.literal 0.1)) as Hs.
  { assert (0 <= Number.literal 0.1) as Hc by (by vm_compute).
    assert (round64 (Number.literal 0.1) == Number.literal 0.1) as Ec by (by vm_compute).
    rewrite <- Ec at 1. apply round64_mono; lra. }
  assert (Number.literal 0.1 <= 1) as Hc1 by (by vm_compute).
  assert (Number.literal 0.1 <= Qmin 1 (round64 (round64 p + Number.literal 0.1))) as Hm
    by (by apply Q.min_glb).
  assert (0 <= Number.literal 0.1) as Hc by (by vm_compute).
  assert (10 <= round64 (Number.literal 0.1 * 100)) as H10 by (by vm_compute).
  rewrite <- (Qfloor_Z 10). apply Qfloor_resp_le.
  apply Qle_trans with (round64 (Number.literal 0.1 * 100)); [exact H10|].
  apply round64_mono; lra.
Qed.

Lemma finish_full p :
  1 <= Number.add (round64 p) (Number.literal 0.1) -> finish_percent p = 100%Z.
Proof.
  intros Hs. unfold finish_percent, Number.mul.
  assert (Qmin 1 (Number.add (round64 p) (Number.literal 0.1)) * 100 == 100) as E
    by (rewrite (Q.min_l _ _ Hs); reflexivity).
  assert (round64 (Qmin 1 (Number.add (round64 p) (Number.literal 0.1)) * 100) == 100)
    as E'.
  { apply Qeq_trans with (round64 100); [|apply round64_100].
    apply round64_comp; [|exact E]. rewrite E. by vm_compute. }
  by rewrite E'.
Qed.

(** X4.  The two progress callbacks of [loadAssets] as functions of how far
    the ramp has played, computed as the program computes them, on doubles:
    on [0, 1] both percentages grow with the progress, the ramp prints
    between 0 and 90, the finishing tween between 10 and 100 and always at
    least ten more than the ramp at the same progress, and from a progress
    of 0.9 on it prints 100.  The products are rounded before the floor is
    taken, so that the ramp prints 27 at the progress 0.3 (the double below
    0.3, whose exact ninetyfold is below 27) and 62 at 0.7.  Each callback
    replaces the text of the label by the percentage and keeps its
    style. *)
Theorem progress_percentages (p q : Q) :
  0 <= p -> p <= q -> q <= 1 ->
  (0 <= ramp_percent p <= ramp_percent q)%Z /\ (ramp_percent q <= 90)%Z
  /\ (10 <= finish_percent p <= finish_percent q)%Z /\ (finish_percent q <= 100)%Z
  /\ (ramp_percent p + 10 <= finish_percent p)%Z
  /\ (0.9 <= p -> finish_percent p = 100%Z)
  /\ (ramp_percent 0.3 = 27%Z /\ Qfloor (round64 0.3 * 90) = 26%Z
      /\ ramp_percent 0.7 = 62%Z /\ Qfloor (0.7 * 90) = 63%Z
      /\ finish_percent 0.47 = 56%Z /\ Qfloor (Qmin 1 (0.47 + 0.1) * 100) = 57%Z)
  /\ forall (w : World) (loadingText : ref) label s st,
       objects w !! loadingText = Some label -> PIXI.node label = PIXI.Text s st ->
       PIXI.node <$> objects (run_callback p (rampUpdate loadingText) w) !! loadingText
         = Some (PIXI.Text (loading_label (ramp_percent p)) st)
       /\ PIXI.node <$> objects (run_callback p (finishUpdate loadingText) w) !! loadingText
         = Some (PIXI.Text (loading_label (finish_percent p)) st).
Proof.
  intros H0 Hpq H1.
  assert (0 <= q) as H0q by lra. assert (p <= 1) as H1p by lra.
  destruct (progress_double p H0 H1p) as [Hp0 Hp1].
  destruct (progress_double q H0q H1) as [Hq0 Hq1].
  pose proof (round64_mono p q H0 Hpq) as Hdd.
  assert (0 <= Number.literal 0.1) as Hc by (by vm_compute).
  destruct (finish_factor_double p H0 H1p) as [Hmp0 Hmp1].
  destruct (finish_factor_double q H0q H1) as [Hmq0 Hmq1].
  assert (Qmin 1 (Number.add (round64 p) (Number.literal 0.1)) <=
          Qmin 1 (Number.add (round64 q) (Number.literal 0.1))) as Hmono.
  { apply Q.min_le_compat_l. unfold Number.add. apply round64_mono; lra. }
  assert (is_progress p = true /\ is_progress q = true) as [Hip Hiq].
  { unfold is_progress. rewrite !andb_true_iff, !Qle_bool_iff. done. }
  pose proof (ramp_bound p Hip) as Hrp. pose proof (ramp_bound q Hiq) as Hrq.
  pose proof (finish_bound q Hiq) as Hfq.
  pose proof (finish_at_least_10 p H0 H1p) as Hf10.
  fold (ramp_percent p) in Hrp. fold (ramp_percent q) in Hrq.
  fold (finish_percent q) in Hfq.
  split; [split; [lia|]|].
  { unfold ramp_percent, Number.mul. apply Qfloor_resp_le, round64_mono; lra. }
  split; [lia|]. split; [split; [done|]|].
  { unfold finish_percent, Number.mul. apply Qfloor_resp_le, round64_mono; lra. }
  split; [lia|]. split; [|split; [|split]].
  - (* the finishing tween is ten ahead *)
    destruct (Qlt_le_dec (round64 p) (pow2 (-48))) as [Hsmall|Hbig].
    { assert (ramp_percent p <= 0)%Z; [|lia].
      unfold ramp_percent, Number.mul.
      assert (Qfloor (round64 (pow2 (-48) * 90)) = 0%Z) as <- by (by vm_compute).
      assert (0 < pow2 (-48)) by apply pow2_pos.
      apply Qfloor_resp_le, round64_mono; lra. }
    destruct (Qlt_le_dec (Number.add (round64 p) (Number.literal 0.1)) 1) as [Hs|Hs].
    + assert (Qfloor (round64 (Number.add (round64 p) (Number.literal 0.1) * 100))
              <= finish_percent p)%Z as Hfin.
      { unfold finish_percent, Number.mul. apply Qfloor_resp_le, round64_mono.
        - unfold Number.add. apply Qmult_le_0_compat; [|by vm_compute].
          apply round64_nonneg. lra.
        - rewrite (Q.min_r _ _ (Qlt_le_weak _ _ Hs)). apply Qle_refl. }
      apply Z.le_trans with
        (Qfloor (round64 (Number.add (round64 p) (Number.literal 0.1) * 100)));
        [|exact Hfin]. clear Hfin.
      unfold ramp_percent, Number.mul.
      assert (0 < pow2 (-48)) as Hpos by apply pow2_pos.
      assert (pow2 (-48) * 90 < pow2 7) as Hsmall.
      { assert (pow2 (-48) <= 1) by (by vm_compute).
        assert (pow2 7 == 128) by (by vm_compute). lra. }
      destruct (round64_error (round64 p * 90) 6) as [_ Hr]; [lra| |lia|].
      { assert (pow2 (6 + 1) == 128) as E by (by vm_compute). rewrite E. lra. }
      unfold Number.add in Hs |- *.
      destruct (round64_error (round64 p + Number.literal 0.1) 0) as [Ha _]; [lra| |lia|].
      { assert (pow2 (0 + 1) == 2) as E by (by vm_compute). rewrite E.
        assert (Number.literal 0.1 < 1) by (by vm_compute). lra. }
      set (sum := round64 (round64 p + Number.literal 0.1)) in *.
      assert (0 < sum) as Hsum.
      { apply Qlt_le_trans with (Number.literal 0.1); [by vm_compute|].
        assert (round64 (Number.literal 0.1) == Number.literal 0.1) as Ec by (by vm_compute).
        rewrite <- Ec. apply round64_mono; lra. }
      destruct (round64_error (sum * 100) 6) as [Ht _]; [lra| |lia|].
      { assert (pow2 (6 + 1) == 128) as E by (by vm_compute). rewrite E. lra. }
      apply Qfloor_shift.
      assert (pow2 (6 - 53) == 1 # 140737488355328) as E6 by (by vm_compute).
      assert (pow2 (0 - 53) == 1 # 9007199254740992) as E0 by (by vm_compute).
      assert (pow2 (-48) == 1 # 281474976710656) as E48 by (by vm_compute).
      assert (1 # 10 <= Number.literal 0.1) as Hlit by (by vm_compute).
      rewrite E6 in Hr, Ht. rewrite E0 in Ha. rewrite E48 in Hbig.
      unfold inject_Z.
      revert Hr Ht Ha Hbig Hlit.
      generalize (round64 (round64 p * 90)). generalize (round64 (sum * 100)).
      generalize (Number.literal 0.1). generalize (round64 p).
      intros d c t r Hr Ht Ha Hbig Hlit. lra.
    + rewrite (finish_full p Hs). lia.
  - intros H09.
    assert (1 <= Number.add (round64 p) (Number.literal 0.1)) as Hs.
    { unfold Number.add.
      assert (1 <= round64 (round64 0.9 + Number.literal 0.1)) as Hone by (by vm_compute).
      apply Qle_trans with (round64 (round64 0.9 + Number.literal 0.1)); [done|].
      assert (0 <= round64 0.9) by (by vm_compute).
      assert (round64 0.9 <= round64 p) by (apply round64_mono; lra).
      apply round64_mono; lra. }
    by apply finish_full.
  - repeat split; by vm_compute.
  - intros w loadingText label s st Hl Hn. split;
      by apply (run_update_text loadingText _ w label s st).
Qed.

Lemma progress_percentages_witness :
  (ramp_percent 0.5 <= ramp_percent 0.95)%Z /\ finish_percent 0.95 = 100%Z.
Proof.
  assert (0 <= 0.5) as H0 by (by vm_compute).
  assert (0.5 <= 0.95) as H1 by (by vm_compute).
  assert (0.95 <= 1) as H2 by (by vm_compute).
  assert (0 <= 0.95) as H3 by (by vm_compute).
  assert (0.95 <= 0.95) as H4 by (by vm_compute).
  assert (0.9 <= 0.95) as H5 by (by vm_compute).
  split.
  - apply (progress_percentages 0.5 0.95 H0 H1 H2).
  - apply (progress_percentages 0.95 0.95 H3 H4 H2), H5.
Defined.

(** ** [loadAssets] without a loading label *)

Lemma bind_throws {A B} (m : M A) (f : A -> M B) (w w' : World) (e : Error) :
  m w = (Throw e, w') -> (m ≫= f) w = (Throw e, w').
Proof. intros H. unfold mbind, M_bind. by rewrite H. Qed.

(** X5.  When the loading scene has no child, as right after the
    constructor, [loadAssets] fails on its first statement: the exception is
    caught, reported on the console, and the error label becomes the only
    child of the loading scene.  Nothing is awaited, the loader is not
    asked, no animation is started and every other object stays as it
    was. *)
Theorem loadAssets_without_label
  (inputData : list string) (Assets_init : Promise unit)
  (Assets_load : string -> Promise PIXI.Texture)
  (this : Game) (w : World) (loading : PIXI.DisplayObject) :
  objects w !! loadingScene this = Some loading ->
  PIXI.node loading = PIXI.Container [] ->
  let run := loadAssets inputData Assets_init Assets_load this w in
  exists errorText loading' label,
    run.1 = Normal tt
    /\ objects w !! errorText = None
    /\ objects run.2 !! loadingScene this = Some loading'
    /\ PIXI.node loading' = PIXI.Container [errorText]
    /\ PIXI.alpha loading' = PIXI.alpha loading
    /\ objects run.2 !! errorText = Some label
    /\ PIXI.node label = error_label
    /\ PIXI.x label = PIXI.width (app this) / 2
    /\ PIXI.y label = PIXI.height (app this) / 2
    /\ (forall r, r <> loadingScene this -> r <> errorText ->
          objects run.2 !! r = objects w !! r)
    /\ console run.2 = console w ++
         [error "Error loading assets:" (TypeError "Cannot set properties of undefined")]
    /\ animations run.2 = animations w /\ requests run.2 = requests w
    /\ elapsed run.2 = elapsed w /\ tick run.2 = tick w /\ mounted run.2 = mounted w.
Proof.
  intros Ho Hn run. subst run. unfold loadAssets, try_catch.
  erewrite bind_throws; cycle 1.
  { unfold child_at, PIXI.children. rewrite Ho, Hn. reflexivity. }
  set (errorText := fresh (dom (objects w))).
  assert (objects w !! errorText = None) as Hfresh by apply not_elem_of_dom, is_fresh.
  assert (loadingScene this <> errorText) as Hne by (intros E; rewrite E in Ho; congruence).
  exists errorText. eexists. eexists. split; [reflexivity|]. split; [done|].
  unfold console_error, showError, assign, update, construct, mbind, M_bind.
  cbn. fold errorText.
  split.
  { rewrite !lookup_alter_eq, !lookup_alter_ne, lookup_insert_ne, Ho by done.
    reflexivity. }
  unfold remove_children, add_child. rewrite Hn. cbn.
  split; [done|]. split; [done|]. split.
  { rewrite 2!lookup_alter_ne, !lookup_alter_eq, lookup_insert_eq by done.
    reflexivity. }
  repeat split.
  intros r H1 H2. rewrite !lookup_alter_ne, lookup_insert_ne by done. done.
Qed.

Lemma loadAssets_without_label_witness :
  objects constructed !! loadingScene (fresh_game 1) =
    Some (PIXI.create (PIXI.Container []))
  /\ (loadAssets [] (Resolves tt) (fun _ => Pending) (fresh_game 1) constructed).1 = Normal tt.
Proof.
  split; [reflexivity|].
  destruct (loadAssets_without_label [] (Resolves tt) (fun _ => Pending) (fresh_game 1)
              constructed (PIXI.create (PIXI.Container [])) eq_refl eq_refl)
    as (errorText & loading' & label & H & _).
  exact H.
Defined.

(** ** Every run of the page *)

(** [loadAssets] asks the loader for one URL only. *)
Lemma main_load_once inputData devicePixelRatio Assets_init Assets_load w :
  main inputData devicePixelRatio Assets_init Assets_load w =
  main inputData devicePixelRatio Assets_init (fun _ => Assets_load SPRITE_URL) w.
Proof. unfold main, initialize, fadeInLoader, loadAssets, load. reflexivity. Qed.

Lemma init_pending_still inputData devicePixelRatio Assets_load :
  let still := main inputData devicePixelRatio Pending Assets_load (blank quiet) in
  still.1 = Hang
  /\ objects still.2 !! 1%nat = Some (PIXI.create (PIXI.Container [3%nat]))
  /\ objects still.2 !! 2%nat = Some (set_alpha 0 (PIXI.create (PIXI.Container [])))
  /\ objects still.2 !! 3%nat =
       Some (set_y (600 / 2) (set_x (800 / 2) (anchor_set 0.5
               (PIXI.create (PIXI.Text "Loading... 0%" loading_style)))))
  /\ animations still.2 = []
  /\ requests still.2 = []
  /\ elapsed still.2 == 14 / 10.
Proof. cbv zeta. repeat split; vm_compute; reflexivity. Qed.

Lemma pending_still_game inputData devicePixelRatio :
  let still := main inputData devicePixelRatio (Resolves tt) (fun _ => Pending)
                 (blank quiet) in
  objects still.2 !! 2%nat = Some (set_alpha 0 (PIXI.create (PIXI.Container [])))
  /\ (forall r o, objects still.2 !! r = Some o -> is_sprite o = false)
  /\ console still.2 = [].
Proof.
  cbv zeta. split; [vm_compute; reflexivity|]. split; [|vm_compute; reflexivity].
  assert (objects (main inputData devicePixelRatio (Resolves tt) (fun _ => Pending)
                     (blank quiet)).2 =
          <[0%nat := PIXI.create (PIXI.Container [1%nat; 2%nat])]>
          (<[1%nat := PIXI.create (PIXI.Container [3%nat])]>
          (<[2%nat := set_alpha 0 (PIXI.create (PIXI.Container []))]>
          (<[3%nat := set_y (600 / 2) (set_x (800 / 2) (anchor_set 0.5
                        (PIXI.create (PIXI.Text "Loading... 0%" loading_style))))]> ∅))))
    as -> by (vm_compute; reflexivity).
  intros r o H.
  repeat (rewrite lookup_insert in H; destruct (decide _); [by injection H as <-|]).
  by rewrite lookup_empty in H.
Qed.

(** What every run without frames has in common, whatever the loader does. *)
Lemma still_invariants inputData devicePixelRatio Assets_init outcome :
  let still := main inputData devicePixelRatio Assets_init (fun _ => outcome)
                 (blank quiet) in
  still.1 = match Assets_init, outcome with
            | Pending, _ | Resolves _, Pending => Hang
            | _, _ => Normal (fresh_game devicePixelRatio)
            end
  /\ objects still.2 !! 0%nat = Some (PIXI.create (PIXI.Container [1%nat; 2%nat]))
  /\ mounted still.2 = true
  /\ (requests still.2 = [] \/ requests still.2 = [SPRITE_URL])
  /\ (length (animations still.2) <=? 3)%nat = true
  /\ (forall loading, objects still.2 !! 1%nat = Some loading ->
        (length (PIXI.children loading) <=? 1)%nat = true).
Proof.
  cbv zeta.
  destruct Assets_init as [[]|e|], outcome as [t|e'|];
    (split; [vm_compute; reflexivity|]); (split; [vm_compute; reflexivity|]);
    (split; [vm_compute; reflexivity|]);
    (split; [first [left; vm_compute; reflexivity|right; vm_compute; reflexivity]|]);
    (split; [vm_compute; reflexivity|]);
    intros loading; vm_compute; intros [= <-]; reflexivity.
Qed.

Lemma sim_obj_children cbs r o1 o2 :
  sim_obj cbs r o1 o2 -> PIXI.children o1 = PIXI.children o2.
Proof.
  intros (Hn & _). unfold PIXI.children, sim_node in *.
  by destruct (PIXI.node o1), (PIXI.node o2).
Qed.

(** X6.  No exception escapes the page, whatever the two promises of the
    loader do and whatever frames the ticker delivers: the run either
    returns the game or stays suspended, and it stays suspended exactly when
    [Assets.init] never settles, or resolves and the load of the sprite
    never settles.  At every moment afterwards the canvas is mounted, the
    stage holds the loading scene and the game scene and nothing else, the
    loading scene has at most one child, the loader has been asked at most
    once and then for the sprite, and at most three animations that are not
    awaited (the progress ramp, the finishing tween, the movement chain)
    have been started. *)
Theorem no_exception_escapes
  (inputData : list string) (devicePixelRatio : Q) (Assets_init : Promise unit)
  (Assets_load : string -> Promise PIXI.Texture) (sched : nat -> list Event) :
  let run := main inputData devicePixelRatio Assets_init Assets_load (blank sched) in
  (forall e, run.1 <> Throw e)
  /\ (run.1 = Hang <->
      Assets_init = Pending \/
      ((exists u, Assets_init = Resolves u) /\ Assets_load SPRITE_URL = Pending))
  /\ (run.1 <> Hang -> run.1 = Normal (fresh_game devicePixelRatio))
  /\ forall evs,
       let w := run_events evs run.2 in
       (exists stage, objects w !! 0%nat = Some stage
          /\ PIXI.node stage = PIXI.Container [1%nat; 2%nat]
          /\ PIXI.alpha stage = 1)
       /\ mounted w = true
       /\ (requests w = [] \/ requests w = [SPRITE_URL])
       /\ (length (animations w) <= 3)%nat
       /\ (forall loading, objects w !! 1%nat = Some loading ->
             (length (PIXI.children loading) <= 1)%nat).
Proof.
  generalize (still_invariants inputData devicePixelRatio Assets_init
                (Assets_load SPRITE_URL)).
  generalize (main_sim inputData devicePixelRatio Assets_init
                (fun _ => Assets_load SPRITE_URL) sched).
  cbv zeta. rewrite (main_load_once inputData devicePixelRatio Assets_init Assets_load).
  name_run quiet res2 w2. name_run sched res1 w1.
  intros [Hr Hs] (Hres & Hstage & Hm & Hq & Ha & Hl). rewrite Hr. clear Hr.
  split; [|split; [|split]].
  - intros e. rewrite Hres.
    by destruct Assets_init as [[]| |], (Assets_load SPRITE_URL).
  - rewrite Hres. destruct Assets_init as [[]|e|], (Assets_load SPRITE_URL) as [t|e'|];
      split; try done; try (intros _; by left); try (intros _; right; eauto; fail);
      intros [H|[[u H] H']]; done.
  - rewrite Hres. by destruct Assets_init as [[]| |], (Assets_load SPRITE_URL).
  - intros evs. specialize (Hs evs). set (w := run_events evs w1) in *.
    split; [|split; [|split; [|split]]].
    + destruct (sim_lookup _ _ _ _ Hs Hstage) as (stage & H0 & Hsim).
      exists stage. split; [done|].
      split; [by apply (sim_obj_container _ _ _ _ _ Hsim)|].
      by destruct Hsim as (_ & _ & -> & _).
    + by rewrite (sim_mounted _ _ Hs).
    + by rewrite (sim_requests _ _ Hs).
    + rewrite (Forall2_length _ _ _ (sim_animations _ _ Hs)).
      by apply Nat.leb_le.
    + intros loading H1. destruct (sim_lookup_l _ _ _ _ Hs H1) as (o2 & H2 & Hsim).
      rewrite (sim_obj_children _ _ _ _ Hsim). by apply Nat.leb_le, Hl.
Qed.

(** X7.  While [Assets.init] is outstanding the page stays as the fade-ins
    left it: the run is suspended, the awaited fades are over and no other
    animation has been started, so the label reads exactly "Loading... 0%"
    whatever frames arrive; the loader has not been asked for the sprite,
    and the game scene is invisible and empty. *)
Theorem init_pending_shows_zero
  (inputData : list string) (devicePixelRatio : Q)
  (Assets_load : string -> Promise PIXI.Texture) (sched : nat -> list Event) :
  let run := main inputData devicePixelRatio Pending Assets_load (blank sched) in
  run.1 = Hang
  /\ forall evs,
       let w := run_events evs run.2 in
       exists loading label playing,
         objects w !! 1%nat = Some loading
         /\ PIXI.node loading = PIXI.Container [3%nat]
         /\ PIXI.alpha loading = 1
         /\ objects w !! 3%nat = Some label
         /\ PIXI.node label = PIXI.Text "Loading... 0%" loading_style
         /\ PIXI.alpha label = 1
         /\ objects w !! 2%nat = Some playing
         /\ PIXI.node playing = PIXI.Container []
         /\ PIXI.alpha playing = 0
         /\ animations w = []
         /\ requests w = []
         /\ elapsed w == 1.4.
Proof.
  generalize (init_pending_still inputData devicePixelRatio Assets_load).
  generalize (main_sim inputData devicePixelRatio Pending Assets_load sched).
  name_run quiet res2 w2. name_run sched res1 w1.
  intros [Hr Hs] (Hres & H1 & H2 & H3 & Ha & Hq & He).
  split; [congruence|]. intros evs. specialize (Hs evs).
  set (w := run_events evs w1) in *.
  destruct (sim_lookup _ _ _ _ Hs H1) as (loading & Hl & Hsl).
  destruct (sim_lookup _ _ _ _ Hs H2) as (playing & Hp & Hsp).
  destruct (sim_lookup _ _ _ _ Hs H3) as (label & Hb & Hsb).
  exists loading, label, playing.
  split; [done|]. split; [by apply (sim_obj_container _ _ _ _ _ Hsl)|].
  split; [by destruct Hsl as (_ & _ & -> & _)|]. split; [done|].
  split; [|split; [by destruct Hsb as (_ & _ & -> & _)|]].
  { destruct (sim_obj_text _ _ _ _ _ _ Hsb eq_refl) as (s1 & Hn & [->|(n & Hw & _)]); [done|].
    rewrite Ha in Hw.
    destruct Hw as [[Hin _]|[[Hin|Hin] _]]; by apply elem_of_nil in Hin. }
  split; [done|]. split; [by apply (sim_obj_container _ _ _ _ _ Hsp)|].
  split; [by destruct Hsp as (_ & _ & -> & _)|].
  split; [|split].
  - pose proof (sim_animations _ _ Hs) as Hanim. rewrite Ha in Hanim.
    by inversion Hanim.
  - by rewrite (sim_requests _ _ Hs).
  - rewrite (sim_elapsed _ _ Hs), He. by vm_compute.
Qed.

(** X8.  The loader is asked for the sprite only once the loading screen
    has fully faded in: while the load is outstanding 1.4 seconds have
    passed (0.1 of delay, 0.8 for the scene, 0.5 for the label), the loading
    scene and its label are fully opaque, the label sits at the height of
    the canvas centre, the game scene is invisible and empty, no sprite
    exists, and the single request is the one for the sprite. *)
Theorem load_requested_after_fade_in
  (inputData : list string) (devicePixelRatio : Q) (sched : nat -> list Event) :
  let run := main inputData devicePixelRatio (Resolves tt) (fun _ => Pending)
               (blank sched) in
  run.1 = Hang
  /\ forall evs,
       let w := run_events evs run.2 in
       exists loading label playing,
         objects w !! 1%nat = Some loading
         /\ PIXI.node loading = PIXI.Container [3%nat]
         /\ PIXI.alpha loading = 1
         /\ objects w !! 3%nat = Some label
         /\ PIXI.alpha label = 1
         /\ PIXI.y label == 300
         /\ PIXI.anchor label = (0.5, 0.5)
         /\ objects w !! 2%nat = Some playing
         /\ PIXI.node playing = PIXI.Container []
         /\ PIXI.alpha playing = 0
         /\ (forall r o, objects w !! r = Some o -> is_sprite o = false)
         /\ requests w = [SPRITE_URL]
         /\ elapsed w == 1.4.
Proof.
  generalize (pending_still_game inputData devicePixelRatio).
  generalize (pending_still inputData devicePixelRatio).
  generalize (main_sim inputData devicePixelRatio (Resolves tt) (fun _ => Pending) sched).
  name_run quiet res2 w2. name_run sched res1 w1.
  intros [Hr Hs] (Hres & H1 & H3 & Ha & Hq & He) (H2 & Hdom).
  split; [congruence|]. intros evs. specialize (Hs evs).
  set (w := run_events evs w1) in *.
  destruct (sim_lookup _ _ _ _ Hs H1) as (loading & Hl & Hsl).
  destruct (sim_lookup _ _ _ _ Hs H2) as (playing & Hp & Hsp).
  destruct (sim_lookup _ _ _ _ Hs H3) as (label & Hb & Hsb).
  exists loading, label, playing.
  split; [done|]. split; [by apply (sim_obj_container _ _ _ _ _ Hsl)|].
  split; [by destruct Hsl as (_ & _ & -> & _)|]. split; [done|].
  destruct Hsb as (_ & -> & -> & ->).
  split; [done|]. split; [by vm_compute|]. split; [done|]. split; [done|].
  split; [by apply (sim_obj_container _ _ _ _ _ Hsp)|].
  split; [by destruct Hsp as (_ & _ & -> & _)|].
  split; [|split].
  - intros r o1 Ho1. destruct (sim_lookup_l _ _ _ _ Hs Ho1) as (o2 & Ho2 & Hsim).
    rewrite (sim_obj_is_sprite _ _ _ _ Hsim).
    destruct Hdom as [Hsprites _]. by apply (Hsprites r).
  - by rewrite (sim_requests _ _ Hs).
  - rewrite (sim_elapsed _ _ Hs), He. by vm_compute.
Qed.

(** ** The scene transition from any state *)

Lemma transitionToGame_still inputData this texture w loading playing :
  objects w !! loadingScene this = Some loading ->
  objects w !! gameScene this = Some playing ->
  loadingScene this <> gameScene this ->
  let sprite := fresh (dom (objects w)) in
  exists w2,
    transitionToGame inputData this texture (with_frames quiet w) = (Normal tt, w2)
    /\ objects w2 !! loadingScene this = Some (remove_children (set_alpha 0 loading))
    /\ objects w2 !! gameScene this = Some (set_alpha 1 (add_child sprite playing))
    /\ objects w2 !! sprite =
         Some (set_y 300 (set_x 400 (anchor_set 0.5 (PIXI.create (PIXI.Sprite texture)))))
    /\ animations w2 = animations w ++ [Some (movement_chain inputData this sprite 400)]
    /\ elapsed w2 = elapsed w + gsap.totalDuration (transitionTimeline this)
    /\ tick w2 = S (tick w)
    /\ requests w2 = requests w /\ mounted w2 = mounted w.
Proof.
  intros Hl Hg Hne sprite.
  assert (objects w !! sprite = None) as Hfresh by apply not_elem_of_dom, is_fresh.
  assert (gameScene this <> loadingScene this) as Hne' by done.
  assert (sprite <> loadingScene this) as Hsl by (intros E; rewrite E in Hfresh; congruence).
  assert (sprite <> gameScene this) as Hsg by (intros E; rewrite E in Hfresh; congruence).
  unfold transitionToGame. unfold mbind at 1, M_bind at 1. rewrite setupGameScene_eq.
  eexists. split; [reflexivity|].
  unfold mbind, M_bind, construct, assign, update, spawn, await_timeline, yield,
    mret, M_ret.
  cbn. fold sprite. split; [|split; [|split]]; [| | |done].
  - rewrite lookup_alter_eq, lookup_alter_ne, lookup_alter_eq, !lookup_alter_ne,
      lookup_insert_ne, Hl by done. reflexivity.
  - rewrite lookup_alter_ne, lookup_alter_eq, lookup_alter_ne, lookup_alter_eq,
      !lookup_alter_ne, lookup_insert_ne, Hg by done. reflexivity.
  - rewrite 4!lookup_alter_ne, !lookup_alter_eq, lookup_insert_eq by done. reflexivity.
Qed.

(** X9.  [transitionToGame] from any state in which the two scenes are
    different containers and no running animation touches alpha or the
    scene graph: the method returns after one suspension of 0.7 seconds,
    with the loading scene transparent and emptied, the game scene opaque
    with the new sprite appended to the children it had, the sprite at
    height 300 with anchor (0.5, 0.5), and the movement chain from 400
    started last; the loader is not asked. *)
Theorem transition_from_any_state
  (inputData : list string) (this : Game) (texture : PIXI.Texture) (w : World)
  (loading playing : PIXI.DisplayObject) (cl cg : list ref) :
  objects w !! loadingScene this = Some loading ->
  PIXI.node loading = PIXI.Container cl ->
  objects w !! gameScene this = Some playing ->
  PIXI.node playing = PIXI.Container cg ->
  loadingScene this <> gameScene this ->
  Forall (from_option harmless True) (animations w) ->
  let run := transitionToGame inputData this texture w in
  exists sprite loading' playing' o,
    run.1 = Normal tt
    /\ objects w !! sprite = None
    /\ objects run.2 !! loadingScene this = Some loading'
    /\ PIXI.node loading' = PIXI.Container []
    /\ PIXI.alpha loading' = 0
    /\ objects run.2 !! gameScene this = Some playing'
    /\ PIXI.node playing' = PIXI.Container (cg ++ [sprite])
    /\ PIXI.alpha playing' = 1
    /\ objects run.2 !! sprite = Some o
    /\ PIXI.node o = PIXI.Sprite texture
    /\ PIXI.y o = 300 /\ PIXI.anchor o = (0.5, 0.5) /\ PIXI.alpha o = 1
    /\ Forall2 (fun a1 a2 => a1 = a2 \/ a1 = None) (animations run.2)
         (animations w ++ [Some (movement_chain inputData this sprite 400)])
    /\ elapsed run.2 == elapsed w + 0.7
    /\ tick run.2 = S (tick w)
    /\ requests run.2 = requests w
    /\ mounted run.2 = mounted w.
Proof.
  intros Hl Hnl Hg Hng Hne Hh run. subst run.
  destruct (transitionToGame_still inputData this texture w loading playing Hl Hg Hne)
    as (w2 & Hrun2 & H1 & H2 & H3 & Ha & He & Ht & Hq & Hm).
  destruct (respects_transitionToGame inputData this texture w (with_frames quiet w)
              (sim_self w Hh)) as [Hres Hsim].
  rewrite Hrun2 in Hres, Hsim. cbn [fst snd] in Hres, Hsim.
  revert Hres Hsim.
  generalize (transitionToGame inputData this texture w). intros [res1 w1].
  cbn [fst snd]. intros -> Hsim.
  destruct (sim_lookup _ _ _ _ Hsim H1) as (loading' & Hl' & Hsl).
  destruct (sim_lookup _ _ _ _ Hsim H2) as (playing' & Hp' & Hsp).
  destruct (sim_lookup _ _ _ _ Hsim H3) as (o & Ho & Hso).
  exists (fresh (dom (objects w))), loading', playing', o.
  split; [done|]. split; [apply not_elem_of_dom, is_fresh|]. split; [done|].
  split.
  { apply (sim_obj_container _ _ _ _ _ Hsl). unfold remove_children, set_alpha.
    cbn. by rewrite Hnl. }
  split.
  { destruct Hsl as (_ & _ & -> & _). unfold remove_children, set_alpha. cbn.
    by rewrite Hnl. }
  split; [done|]. split.
  { apply (sim_obj_container _ _ _ _ _ Hsp). unfold add_child, set_alpha.
    cbn. by rewrite Hng. }
  split.
  { destruct Hsp as (_ & _ & -> & _). unfold add_child. by rewrite Hng. }
  split; [done|]. split; [by apply (sim_obj_sprite _ _ _ _ _ Hso)|].
  destruct Hso as (_ & -> & -> & ->).
  split; [done|]. split; [done|]. split; [done|].
  split; [rewrite <- Ha; apply (sim_animations _ _ Hsim)|].
  split.
  { rewrite (sim_elapsed _ _ Hsim), He.
    destruct (transition_order this) as [_ ->]. reflexivity. }
  split; [by rewrite (sim_tick _ _ Hsim)|].
  split; [by rewrite (sim_requests _ _ Hsim)|by rewrite (sim_mounted _ _ Hsim)].
Qed.

Lemma transition_from_any_state_witness :
  exists sprite,
    objects constructed !! sprite = None
    /\ (transitionToGame ["L+"]%string (fresh_game 1) (PIXI.texture SPRITE_URL)
          constructed).1 = Normal tt.
Proof.
  assert (loadingScene (fresh_game 1) <> gameScene (fresh_game 1)) as Hne by discriminate.
  destruct (transition_from_any_state ["L+"]%string (fresh_game 1)
              (PIXI.texture SPRITE_URL) constructed
              (PIXI.create (PIXI.Container []))
              (set_alpha 0 (PIXI.create (PIXI.Container []))) [] []
              eq_refl eq_refl eq_refl eq_refl Hne (Forall_nil_2 _))
    as (sprite & loading' & playing' & o & Hres & Hfresh & _).
  exists sprite. split; [exact Hfresh|exact Hres].
Defined.

(** ** The unused [start] against [setupGameScene] *)

(** X10.  The method [start], which nothing calls, builds the same sprite
    and starts the same movement chain as [setupGameScene] does from the
    same state; the sprite is appended to the children of the stage, and
    every other object, the game scene among them, stays as it was, so the
    sprite would be drawn over both scenes. *)
Theorem start_parents_sprite_to_stage
  (inputData : list string) (this : Game) (texture : PIXI.Texture) (w : World)
  (stage : PIXI.DisplayObject) (cs : list ref) :
  objects w !! PIXI.stage (app this) = Some stage ->
  PIXI.node stage = PIXI.Container cs ->
  exists sprite w' stage',
    start inputData this texture w =
      (Normal tt, started (movement_chain inputData this sprite 400) w')
    /\ objects w !! sprite = None
    /\ objects w' !! sprite =
         Some {| PIXI.node := PIXI.Sprite texture; PIXI.x := 400; PIXI.y := 300;
                 PIXI.alpha := 1; PIXI.anchor := (0.5, 0.5) |}
    /\ objects w' !! PIXI.stage (app this) = Some stage'
    /\ PIXI.node stage' = PIXI.Container (cs ++ [sprite])
    /\ PIXI.alpha stage' = PIXI.alpha stage
    /\ (forall r, r <> sprite -> r <> PIXI.stage (app this) ->
          objects w' !! r = objects w !! r)
    /\ same_but_objects w w'
    /\ animations (setupGameScene inputData this texture w).2 =
       animations (start inputData this texture w).2.
Proof.
  intros Hst Hn. set (sprite := fresh (dom (objects w))).
  assert (objects w !! sprite = None) as Hfresh by apply not_elem_of_dom, is_fresh.
  assert (PIXI.stage (app this) <> sprite) as Hne
    by (intros E; rewrite E in Hst; congruence).
  assert (exists w', start inputData this texture w =
            (Normal tt, started (movement_chain inputData this sprite 400) w')
          /\ w' = modify (PIXI.stage (app this)) (add_child sprite)
                    (modify sprite (set_y 300) (modify sprite (set_x 400)
                       (modify sprite (anchor_set 0.5)
                          (with_objects (insert sprite (PIXI.create (PIXI.Sprite texture)))
                             w))))) as (w' & Hrun & Hw').
  { eexists. split; [|reflexivity].
    unfold start, mbind, M_bind, construct, assign, update. cbn [fst snd]. fold sprite.
    set (w1 := modify (PIXI.stage (app this)) _ _).
    assert (exists o, objects w1 !! sprite = Some o /\ PIXI.x o = 400) as (o & Ho & Hx).
    { subst w1. cbn [modify with_objects objects].
      rewrite lookup_alter_ne, !lookup_alter_eq, lookup_insert_eq by done.
      eexists. split; reflexivity. }
    rewrite (createAnimationTimeline_run _ _ _ _ o Ho), Hx. reflexivity. }
  exists sprite, w'. eexists. split; [exact Hrun|]. split; [done|].
  rewrite Hrun. subst w'. cbn [modify with_objects objects snd].
  split; [by rewrite lookup_alter_ne, !lookup_alter_eq, lookup_insert_eq|].
  split.
  { rewrite lookup_alter_eq, !lookup_alter_ne, lookup_insert_ne, Hst by done.
    reflexivity. }
  unfold add_child. rewrite Hn. cbn.
  split; [done|]. split; [done|]. split.
  { intros r H1 H2. by rewrite !lookup_alter_ne, lookup_insert_ne. }
  split; [done|].
  destruct (setupGameScene_run inputData this texture w) as (w2 & -> & _ & _ & _ & Ha).
  cbn. fold sprite. by rewrite Ha.
Qed.

Lemma start_parents_sprite_to_stage_witness :
  exists sprite w',
    start ["L+"; "L-"]%string (fresh_game 1) (PIXI.texture SPRITE_URL) constructed =
      (Normal tt,
       started (movement_chain ["L+"; "L-"]%string (fresh_game 1) sprite 400) w').
Proof.
  destruct (start_parents_sprite_to_stage ["L+"; "L-"]%string (fresh_game 1)
              (PIXI.texture SPRITE_URL) constructed
              (PIXI.create (PIXI.Container [1%nat; 2%nat])) [1%nat; 2%nat]
              eq_refl eq_refl)
    as (sprite & w' & stage' & Hrun & _).
  exists sprite, w'. exact Hrun.
Defined.

(** ** The first version of the class *)

Lemma moved_refl sprite w o :
  objects w !! sprite = Some o -> moved sprite w w 0 0.
Proof.
  intros Ho. exists o, o, []. rewrite app_nil_r. repeat split; try done. ring.
Qed.

Lemma moved_trans sprite w w1 w2 d1 d2 n1 n2 :
  moved sprite w w1 d1 n1 -> moved sprite w1 w2 d2 n2 ->
  moved sprite w w2 (d1 + d2) (n1 + n2).
Proof.
  intros (o & o1 & l1 & Ho & Ho1 & Hx1 & Hn1 & Hy1 & Hal1 & Han1 & Hr1 & Hc1 & Hl1
          & Ha1 & Hq1 & Hm1 & He1 & Ht1)
         (o1' & o2 & l2 & Ho1' & Ho2 & Hx2 & Hn2 & Hy2 & Hal2 & Han2 & Hr2 & Hc2 & Hl2
          & Ha2 & Hq2 & Hm2 & He2 & Ht2).
  rewrite Ho1 in Ho1'. injection Ho1' as <-.
  exists o, o2, (l1 ++ l2). split; [done|]. split; [done|].
  split; [rewrite Hx2, Hx1; ring|].
  split; [congruence|]. split; [congruence|]. split; [congruence|]. split; [congruence|].
  split; [intros r Hr; by rewrite Hr2, Hr1|].
  split; [by rewrite Hc2, Hc1, app_assoc|].
  split; [rewrite length_app; lia|].
  repeat split; congruence.
Qed.

Lemma moved_Qeq sprite w w' d d' n :
  d == d' -> moved sprite w w' d n -> moved sprite w w' d' n.
Proof.
  intros Hd (o & o' & l & Ho & Ho' & Hx & H). exists o, o', l.
  split; [done|]. split; [done|]. split; [by rewrite <- Hd|done].
Qed.

Lemma moved_present sprite w w' d n :
  moved sprite w w' d n -> exists o', objects w' !! sprite = Some o'.
Proof. intros (o & o' & l & _ & Ho' & _). eauto. Qed.

Lemma console_log_moved sprite message value w o :
  objects w !! sprite = Some o ->
  exists w', console_log message value w = (Normal tt, w') /\ moved sprite w w' 0 1.
Proof.
  intros Ho. eexists. split; [reflexivity|].
  exists o, o, [log message value]. repeat split; try done. ring.
Qed.

Lemma rotate_moved this sprite dir command w :
  (exists o, objects w !! sprite = Some o) ->
  exists w', Basic.rotate this sprite dir command w = (Normal tt, w')
    /\ moved sprite w w' (Basic.speed this * inject_Z (Basic.step dir command)) 1.
Proof.
  intros [o Ho]. unfold Basic.rotate, Basic.step. cbv zeta.
  destruct (decide (dir = "L"%string)) as [Hd|Hd],
           (decide (command = Some "-"%string)) as [Hc|Hc];
    unfold mbind, M_bind, read_x, assign, update, console_log; rewrite Ho;
    cbn [modify with_objects objects]; rewrite lookup_alter_eq, Ho;
    cbn [fmap option_fmap option_map set_x PIXI.x];
    (eexists; split; [reflexivity|]);
    (eexists o, _, [_]; split; [exact Ho|]; cbn; rewrite lookup_alter_eq, Ho;
     split; [reflexivity|]; repeat split; try done;
     try (intros r Hr; by rewrite lookup_alter_ne);
     cbn [PIXI.x set_x];
     match goal with
     | |- context [inject_Z ?z] =>
         let v := eval vm_compute in (inject_Z z) in change (inject_Z z) with v
     end; lra).
Qed.

Lemma for_each_moved {A} this sprite (body : A -> M unit) (z : A -> Z) (n : A -> nat)
  (l : list A) :
  (forall a w, (exists o, objects w !! sprite = Some o) ->
     exists w', body a w = (Normal tt, w')
       /\ moved sprite w w' (Basic.speed this * inject_Z (z a)) (n a)) ->
  forall w, (exists o, objects w !! sprite = Some o) ->
    exists w', for_each l body w = (Normal tt, w')
      /\ moved sprite w w'
           (Basic.speed this * inject_Z (foldr (fun a acc => (z a + acc)%Z) 0%Z l))
           (foldr (fun a acc => (n a + acc)%nat) 0%nat l).
Proof.
  intros Hbody. induction l as [|a l IH]; intros w [o Ho].
  - exists w. split; [reflexivity|]. cbn [foldr].
    apply (moved_Qeq _ _ _ 0); [unfold inject_Z; ring|]. by apply (moved_refl _ _ o).
  - destruct (Hbody a w) as (w1 & Hrun1 & Hm1); [by eauto|].
    destruct (IH w1 (moved_present _ _ _ _ _ Hm1)) as (w2 & Hrun2 & Hm2).
    exists w2. split.
    + cbn [for_each]. unfold mbind, M_bind. by rewrite Hrun1.
    + cbn [foldr]. eapply moved_Qeq; [|exact (moved_trans _ _ _ _ _ _ _ _ Hm1 Hm2)].
      rewrite inject_Z_plus. ring.
Qed.

Lemma bind_normal {A B} (m : M A) (f : A -> M B) (w w' : World) (a : A) :
  m w = (Normal a, w') -> (m ≫= f) w = f a w'.
Proof. intros H. unfold mbind, M_bind. by rewrite H. Qed.

Lemma sum_constant {A} (f : A -> Z) (v : Z) (l : list A) :
  (forall a, a ∈ l -> f a = v) ->
  foldr (fun a acc => (f a + acc)%Z) 0%Z l = (Z.of_nat (length l) * v)%Z.
Proof.
  induction l as [|a l IH]; intros Hf; [done|].
  cbn [foldr length]. rewrite IH by (intros b Hb; apply Hf; by constructor).
  rewrite (Hf a) by (by constructor). lia.
Qed.

Lemma count_constant {A} (n : nat) (l : list A) :
  foldr (fun _ acc => (n + acc)%nat) 0%nat l = (length l * n)%nat.
Proof. induction l as [|a l IH]; [done|]. cbn [foldr length]. rewrite IH. lia. Qed.

Lemma sum_shift (f : nat -> Z) (l : list nat) :
  foldr (fun i acc => (f i + acc)%Z) 0%Z (map S l) =
  foldr (fun i acc => (f (S i) + acc)%Z) 0%Z l.
Proof. induction l as [|a l IH]; [done|]. cbn [map foldr]. by rewrite IH. Qed.

Lemma sum_over_string (F : option ascii -> Z) (s : string) :
  foldr (fun i acc => (F (String.get i s) + acc)%Z) 0%Z (seq 0 (String.length s)) =
  foldr (fun c acc => (F (Some c) + acc)%Z) 0%Z (String.list_ascii_of_string s).
Proof.
  induction s as [|c s IH]; [done|].
  cbn [String.length String.list_ascii_of_string foldr seq]. rewrite <- seq_shift, sum_shift.
  cbn [String.get]. by rewrite IH.
Qed.

Lemma length_list_ascii (s : string) :
  length (String.list_ascii_of_string s) = String.length s.
Proof. induction s as [|c s IH]; [done|]. cbn. by rewrite IH. Qed.

(** The calls of [rotate] for one character of a command of [K + 1]
    characters: the first sees the character, the others [undefined]. *)
Lemma inner_steps dir (c : ascii) (K : nat) :
  foldr (fun j acc =>
           (Basic.step dir (Some (String c EmptyString) ≫= fun ci => index ci j) + acc)%Z)
    0%Z (seq 0 (S K)) =
  ((if decide (dir = "L"%string) then 1 else -1)
   * ((if decide (c = "-"%char) then -1 else 1) + Z.of_nat K))%Z.
Proof.
  cbn [seq foldr]. rewrite (sum_constant _ (if decide (dir = "L"%string) then 1 else -1)%Z).
  - rewrite length_seq. unfold Basic.step. cbn.
    destruct (decide (dir = "L"%string)), (decide (c = "-"%char)) as [->|Hc];
      destruct (decide (Some (String _ EmptyString) = Some "-"%string)) as [E|E];
      try lia; try (by destruct E); injection E as E; by destruct Hc.
  - intros j Hj%elem_of_seq. destruct j as [|j]; [lia|]. unfold Basic.step. cbn.
    destruct j; cbn; destruct (decide (dir = "L"%string)); done.
Qed.

Lemma sum_signs (sgn K : Z) (l : list ascii) :
  foldr (fun c acc => (sgn * ((if decide (c = "-"%char) then -1 else 1) + K) + acc)%Z) 0%Z l =
  (sgn * (Z.of_nat (length l) * (1 + K)
          - 2 * Z.of_nat (length (filter (fun c => c = "-"%char) l))))%Z.
Proof.
  induction l as [|c l IH]; [cbn; lia|].
  cbn [foldr length]. rewrite IH, filter_cons.
  destruct (decide (c = "-"%char)); cbn [length]; lia.
Qed.

(** The [k * k] calls of [rotate] for a command add up to its displacement. *)
Lemma command_steps (input : string) :
  let dir := charAt 0 input in
  let command := slice 1 input in
  foldr (fun i acc =>
           (foldr (fun j acc' =>
                     (Basic.step dir (index command i ≫= fun ci => index ci j) + acc')%Z)
              0%Z (seq 0 (String.length command)) + acc)%Z)
    0%Z (seq 0 (String.length command)) =
  Basic.displacement input.
Proof.
  intros dir command. unfold Basic.displacement, Basic.minus_signs. fold dir command.
  cbv zeta.
  pose (F := fun oc : option ascii =>
    foldr (fun j acc' =>
             (Basic.step dir (((fun c => String c EmptyString) <$> oc)
                              ≫= fun ci => index ci j) + acc')%Z)
      0%Z (seq 0 (String.length command))).
  etrans; [exact (sum_over_string F command)|]. subst F. cbv beta.
  rewrite <- (length_list_ascii command).
  destruct (String.list_ascii_of_string command) as [|c0 l0]; [cbn; lia|].
  set (l := c0 :: l0). change (length l) with (S (length l0)) at 1.
  etrans; [|etrans; [apply (sum_signs (if decide (dir = "L"%string) then 1 else -1)
                              (Z.of_nat (length l0)) l)|]].
  - apply foldr_ext; [|done|done]. intros c acc.
    cbn [fmap option_fmap option_map]. by rewrite inner_steps.
  - subst l. cbn [length]. lia.
Qed.

Lemma lines_of_command (k : nat) :
  foldr (fun _ acc => (1 + foldr (fun _ acc' => (1 + acc')%nat) 0%nat (seq 0 k) + acc)%nat)
    0%nat (seq 0 k) = (k + k * k)%nat.
Proof.
  rewrite (count_constant 1 (seq 0 k)), length_seq.
  rewrite (count_constant (1 + k * 1) (seq 0 k)), length_seq. lia.
Qed.

(** One pass of the [forEach] of the first [start]. *)
Lemma command_moved this sprite (input : string) w :
  (exists o, objects w !! sprite = Some o) ->
  let dir := charAt 0 input in
  let command := slice 1 input in
  exists w',
    for_each (seq 0 (String.length command)) (fun i =>
      console_log "commands:" (inject_Z (Z.of_nat (String.length command)));;
      for_each (seq 0 (String.length command)) (fun j =>
        Basic.rotate this sprite dir (index command i ≫= fun ci => index ci j))) w
    = (Normal tt, w')
    /\ moved sprite w w' (Basic.speed this * inject_Z (Basic.displacement input))
         (Basic.lines_logged input).
Proof.
  intros Hw dir command.
  rewrite <- (command_steps input). unfold Basic.lines_logged.
  rewrite <- (lines_of_command (String.length (slice 1 input))).
  fold dir command.
  apply (for_each_moved this sprite _
           (fun i => foldr (fun j acc' =>
                       (Basic.step dir (index command i ≫= fun ci => index ci j) + acc')%Z)
                      0%Z (seq 0 (String.length command)))
           (fun _ => (1 + foldr (fun _ acc' => (1 + acc')%nat) 0%nat
                          (seq 0 (String.length command)))%nat)); [|done].
  clear w Hw. intros i w [o Ho].
  destruct (console_log_moved sprite "commands:"
              (inject_Z (Z.of_nat (String.length command))) w o Ho) as (w1 & Hrun1 & Hm1).
  destruct (for_each_moved this sprite
              (fun j => Basic.rotate this sprite dir (index command i ≫= fun ci => index ci j))
              (fun j => Basic.step dir (index command i ≫= fun ci => index ci j))
              (fun _ => 1%nat) (seq 0 (String.length command))
              (fun j w Hw => rotate_moved this sprite dir _ w Hw)
              w1 (moved_present _ _ _ _ _ Hm1)) as (w2 & Hrun2 & Hm2).
  exists w2. split.
  - by rewrite (bind_normal _ _ _ _ _ Hrun1).
  - eapply moved_Qeq; [|exact (moved_trans _ _ _ _ _ _ _ _ Hm1 Hm2)]. ring.
Qed.

(** The first [start] as a whole. *)
Lemma Basic_start_run (inputData : list string) (this : Basic.Game) (w : World) :
  let sprite := fresh (dom (objects w)) in
  exists w' o' lines,
    Basic.start inputData this w = (Normal tt, w')
    /\ objects w' !! sprite = Some o'
    /\ PIXI.x o' == Basic.speed this * inject_Z (Basic.total_displacement inputData)
    /\ PIXI.node o' = PIXI.Sprite (PIXI.texture SPRITE_URL)
    /\ PIXI.y o' = 0 /\ PIXI.alpha o' = 1 /\ PIXI.anchor o' = (0.5, 0.5)
    /\ console w' = console w ++ lines ++ [log "Final output " (PIXI.x o')]
    /\ length lines = Basic.total_lines inputData
    /\ animations w' = animations w /\ requests w' = requests w
    /\ mounted w' = mounted w /\ elapsed w' = elapsed w /\ tick w' = tick w
    /\ (forall r, r <> sprite ->
          objects w' !! r =
          objects (modify (PIXI.stage (Basic.app this)) (add_child sprite) w) !! r).
Proof.
  intros sprite.
  set (w0 := modify (PIXI.stage (Basic.app this)) (add_child sprite)
               (modify sprite (anchor_set 0.5)
                  (with_objects (insert sprite
                     (PIXI.create (PIXI.Sprite (PIXI.texture SPRITE_URL)))) w))).
  set (body := fun input : string =>
    for_each (seq 0 (String.length (slice 1 input))) (fun i =>
      console_log "commands:" (inject_Z (Z.of_nat (String.length (slice 1 input))));;
      for_each (seq 0 (String.length (slice 1 input))) (fun j =>
        Basic.rotate this sprite (charAt 0 input)
          (index (slice 1 input) i ≫= fun ci => index ci j)))).
  assert (Basic.start inputData this w =
          (for_each inputData body;; x ← read_x sprite; console_log "Final output " x) w0)
    as -> by reflexivity.
  assert (objects w0 !! sprite =
          Some (anchor_set 0.5 (PIXI.create (PIXI.Sprite (PIXI.texture SPRITE_URL)))))
    as Ho0.
  { subst w0. cbn [modify with_objects objects]. rewrite lookup_alter.
    destruct (decide (PIXI.stage (Basic.app this) = sprite)) as [->|];
      by rewrite !lookup_alter_eq, lookup_insert_eq. }
  destruct (for_each_moved this sprite body Basic.displacement Basic.lines_logged inputData
              (fun input w Hw => command_moved this sprite input w Hw) w0)
    as (w1 & Hrun & Hm); [by eauto|].
  rewrite (bind_normal _ _ _ _ _ Hrun).
  destruct Hm as (o & o1 & lines & Ho & Ho1 & Hx & Hn & Hy & Hal & Han & Hr & Hc & Hl
                  & Ha & Hq & Hmo & He & Ht).
  rewrite Ho0 in Ho. injection Ho as <-.
  exists (with_console (fun c => c ++ [log "Final output " (PIXI.x o1)]) w1), o1, lines.
  split; [unfold mbind, M_bind, read_x; by rewrite Ho1|].
  split; [done|]. split.
  { rewrite Hx. change (PIXI.x (anchor_set _ _)) with 0.
    unfold Basic.total_displacement. qring. }
  split; [by rewrite Hn|]. split; [by rewrite Hy|]. split; [by rewrite Hal|].
  split; [by rewrite Han|].
  split; [cbn [with_console console]; by rewrite Hc, <- app_assoc|].
  split; [done|]. cbn [with_console animations requests mounted elapsed tick objects].
  rewrite Ha, Hq, Hmo, He, Ht. repeat split.
  intros r Hne. rewrite (Hr r Hne). subst w0. cbn [modify with_objects objects].
  assert (sprite <> r) as Hne' by congruence.
  rewrite !(lookup_alter (add_child sprite)).
  destruct (decide (PIXI.stage (Basic.app this) = r)) as [E|E]; [subst r|];
    by rewrite lookup_alter_ne, lookup_insert_ne.
Qed.

Lemma L_commands_displacement (inputData : list string) :
  Forall (fun input => input = "L+"%string \/ input = "L-"%string) inputData ->
  Basic.total_displacement inputData = signed_sum inputData
  /\ Basic.total_lines inputData = (2 * length inputData)%nat.
Proof.
  induction 1 as [|input rest Hin _ [IH1 IH2]]; [done|].
  unfold Basic.total_displacement, Basic.total_lines in *. cbn [foldr length].
  rewrite signed_sum_cons, IH1, IH2.
  destruct Hin as [-> | ->].
  - change (Basic.displacement "L+") with 1%Z. change (Basic.lines_logged "L+") with 2%nat.
    destruct (decide (sign_token "L+" = Some "+"%char)) as [E|E]; [lia|by destruct E].
  - change (Basic.displacement "L-") with (-1)%Z.
    change (Basic.lines_logged "L-") with 2%nat.
    destruct (decide (sign_token "L-" = Some "+"%char)) as [E|E]; [discriminate E|lia].
Qed.

(** X11.  The first version of [start] moves the sprite at once.  For a
    command with [k] characters after the direction tag, [m] of them ['-'],
    [rotate] is called [k * k] times and the sprite ends [k * k - 2 * m]
    steps of [speed] further right for the tag ["L"] and as many further
    left for any other tag, so that ["L++"] moves four steps, not two, and a
    command of one character or none moves nothing.  The sprite starts at
    [x = 0]; the console receives [k + k * k] lines per command and then the
    final [x]; nothing is animated or awaited. *)
Theorem first_version_displacement
  (inputData : list string) (this : Basic.Game) (w : World) :
  exists sprite w' o' lines,
    Basic.start inputData this w = (Normal tt, w')
    /\ objects w !! sprite = None
    /\ objects w' !! sprite = Some o'
    /\ PIXI.x o' == Basic.speed this * inject_Z (Basic.total_displacement inputData)
    /\ PIXI.node o' = PIXI.Sprite (PIXI.texture SPRITE_URL)
    /\ PIXI.y o' = 0 /\ PIXI.alpha o' = 1 /\ PIXI.anchor o' = (0.5, 0.5)
    /\ console w' = console w ++ lines ++ [log "Final output " (PIXI.x o')]
    /\ length lines = Basic.total_lines inputData
    /\ animations w' = animations w /\ requests w' = requests w
    /\ mounted w' = mounted w /\ elapsed w' = elapsed w /\ tick w' = tick w.
Proof.
  destruct (Basic_start_run inputData this w)
    as (w' & o' & lines & Hrun & Ho & Hx & Hn & Hy & Hal & Han & Hc & Hl & Ha & Hq & Hm
        & He & Ht & _).
  exists (fresh (dom (objects w))), w', o', lines.
  split; [done|]. split; [apply not_elem_of_dom, is_fresh|]. repeat split; done.
Qed.

(** X12.  A command of two characters makes exactly one step in the first
    version: to the right for the tag ["L"] unless the sign is ['-'], and
    the other way round for every other tag; two lines are logged before
    the final one. *)
Theorem first_version_single_step
  (d c : ascii) (this : Basic.Game) (w : World) :
  exists sprite w' o' line1 line2,
    Basic.start [String d (String c EmptyString)] this w = (Normal tt, w')
    /\ objects w' !! sprite = Some o'
    /\ PIXI.x o' ==
       Basic.speed this *
       inject_Z ((if decide (d = "L"%char) then 1 else -1)
                 * (if decide (c = "-"%char) then -1 else 1))
    /\ console w' = console w ++ [line1; line2; log "Final output " (PIXI.x o')].
Proof.
  destruct (Basic_start_run [String d (String c EmptyString)] this w)
    as (w' & o' & lines & Hrun & Ho & Hx & _ & _ & _ & _ & Hc & Hl & _).
  destruct lines as [|line1 [|line2 [|line3 lines]]]; try done.
  exists (fresh (dom (objects w))), w', o', line1, line2.
  split; [done|]. split; [done|]. split; [|done].
  rewrite Hx. apply Qmult_comp; [reflexivity|]. apply inject_Z_injective.
  unfold Basic.total_displacement, Basic.displacement, Basic.minus_signs. cbn.
  destruct (decide (d = "L"%char)) as [->|Hd], (decide (c = "-"%char)) as [Hc'|Hc'];
    destruct (decide (_ = "L"%string)) as [E|E]; cbn; try lia;
    try (by destruct E); injection E as E; by destruct Hd.
Qed.

(** X13.  On commands ["L+"] and ["L-"] the first version and the animated
    class agree: both end at the start plus the signed sum of the commands
    times their [speed] (1 from 0 in the first version, 10 from 400 in the
    class).  They disagree elsewhere: a sign other than ['+'] and ['-']
    moves right in the first version and left in the class, and the class
    ignores the direction tag that the first version obeys. *)
Theorem versions_agree_on_L_commands
  (inputData : list string) (first : Basic.Game) (this : Game) (w w2 : World)
  (sprite2 : ref) (o2 : PIXI.DisplayObject) :
  Forall (fun input => input = "L+"%string \/ input = "L-"%string) inputData ->
  objects w2 !! sprite2 = Some o2 ->
  let chain l := movement_chain l this sprite2 (PIXI.x o2) in
  (exists sprite w' o',
     Basic.start inputData first w = (Normal tt, w')
     /\ objects w' !! sprite = Some o'
     /\ PIXI.x o' == Basic.speed first * inject_Z (signed_sum inputData))
  /\ createAnimationTimeline inputData this sprite2 w2 =
       (Normal tt, started (chain inputData) w2)
  /\ default (PIXI.x o2) (last (running_targets (chain inputData))) ==
     PIXI.x o2 + speed this * inject_Z (signed_sum inputData)
  /\ (forall c, c <> "+"%char -> c <> "-"%char ->
        Basic.displacement (String "L" (String c EmptyString)) = 1%Z
        /\ running_targets (chain [String "L" (String c EmptyString)]) =
           [PIXI.x o2 + - speed this])
  /\ (forall d, d <> "L"%char ->
        Basic.displacement (String d "+") = (-1)%Z
        /\ running_targets (chain [String d "+"]) = [PIXI.x o2 + speed this]).
Proof.
  intros Hin Ho2 chain. subst chain. cbv beta.
  destruct (L_commands_displacement inputData Hin) as [Hd _].
  split; [|split; [|split; [|split]]].
  - destruct (Basic_start_run inputData first w) as (w' & o' & lines & Hrun & Ho & Hx & _).
    exists (fresh (dom (objects w))), w', o'. by rewrite <- Hd.
  - by apply createAnimationTimeline_run.
  - rewrite movement_chain_targets. apply positions_last.
  - intros c H1 H2. rewrite movement_chain_targets. split.
    + unfold Basic.displacement, Basic.minus_signs. cbn.
      by destruct (decide (c = "-"%char)).
    + cbn. destruct (decide (Some c = Some "+"%char)) as [[= E]|E]; done.
  - intros d Hd'. rewrite movement_chain_targets. split; [|done].
    unfold Basic.displacement, Basic.minus_signs. cbn.
    destruct (decide (_ = "L"%string)) as [[= E]|E]; done.
Qed.

Lemma versions_agree_on_L_commands_witness :
  Forall (fun input => input = "L+"%string \/ input = "L-"%string)
    ["L+"; "L+"; "L-"]%string
  /\ default 400 (last (running_targets
       (movement_chain ["L+"; "L+"; "L-"]%string sample_game 0%nat 400))) ==
     400 + 10 * inject_Z (signed_sum ["L+"; "L+"; "L-"]%string).
Proof.
  assert (Forall (fun input => input = "L+"%string \/ input = "L-"%string)
            ["L+"; "L+"; "L-"]%string) as H
    by (repeat constructor; auto).
  split; [exact H|].
  apply (versions_agree_on_L_commands ["L+"; "L+"; "L-"]%string
           {| Basic.app := app sample_game; Basic.speed := 1 |} sample_game
           sample_world sample_world 0%nat sample_sprite H eq_refl).
Defined.

(** X14.  The first version on a blank page: the constructor makes the
    stage, [initialize] mounts the canvas and runs [start] to its end
    without ever suspending, so no frame is consulted; afterwards the
    sprite is the only child of the stage, its [x] is the total displacement
    of the commands in steps of [speed = 1], and the last line of the
    console is that [x]. *)
Theorem first_version_page
  (inputData : list string) (devicePixelRatio : Q) (sched : nat -> list Event) :
  exists game o' lines,
    (Basic.constructor devicePixelRatio (blank sched)).1 = Normal game
    /\ Basic.speed game = 1
    /\ PIXI.stage (Basic.app game) = 0%nat
    /\ let run := Basic.initialize inputData game
                    (Basic.constructor devicePixelRatio (blank sched)).2 in
       run.1 = Normal tt
       /\ mounted run.2 = true
       /\ objects run.2 !! 0%nat = Some (PIXI.create (PIXI.Container [1%nat]))
       /\ objects run.2 !! 1%nat = Some o'
       /\ PIXI.x o' == inject_Z (Basic.total_displacement inputData)
       /\ console run.2 = lines ++ [log "Final output " (PIXI.x o')]
       /\ length lines = Basic.total_lines inputData
       /\ animations run.2 = [] /\ requests run.2 = [] /\ tick run.2 = 0%nat.
Proof.
  set (game := {| Basic.app :=
                    {| PIXI.width := 800; PIXI.height := 600;
                       PIXI.backgroundColor := 0x1099bb;
                       PIXI.resolution :=
                         if Qeq_bool devicePixelRatio 0 then 1 else devicePixelRatio;
                       PIXI.stage := 0%nat |};
                  Basic.speed := 1 |}).
  set (w0 := with_objects (insert 0%nat (PIXI.create (PIXI.Container []))) (blank sched)).
  assert (Basic.constructor devicePixelRatio (blank sched) = (Normal game, w0)) as ->
    by reflexivity.
  cbn [fst snd].
  assert (fresh (dom (objects (with_mounted true w0))) = (1%nat : ref)) as Hfresh
    by (vm_compute; reflexivity).
  pose proof (Basic_start_run inputData game (with_mounted true w0)) as Hstart.
  cbv zeta in Hstart. rewrite Hfresh in Hstart.
  destruct Hstart
    as (w' & o' & lines & Hrun & Ho & Hx & _ & _ & _ & _ & Hc & Hl & Ha & Hq & Hm
        & _ & Ht & Hr).
  exists game, o', lines. split; [done|]. split; [done|]. split; [done|].
  assert (Basic.initialize inputData game w0 = (Normal tt, w')) as ->.
  { unfold Basic.initialize, mbind, M_bind, update. exact Hrun. }
  cbn [fst snd]. split; [done|]. split; [by rewrite Hm|].
  split.
  { etrans; [apply (Hr 0%nat); discriminate|]. vm_compute. reflexivity. }
  split; [done|].
  split; [rewrite Hx; cbn [Basic.speed game]; ring|].
  split; [by rewrite Hc|]. split; [done|].
  rewrite Ha, Hq, Ht. done.
Qed.

(** ** The time the page awaits *)

Lemma timing_still inputData devicePixelRatio texture e :
  let gone := main inputData devicePixelRatio (Resolves tt) (fun _ => Resolves texture)
                (blank quiet) in
  let failed := main inputData devicePixelRatio (Resolves tt) (fun _ => Rejects e)
                  (blank quiet) in
  let refused := main inputData devicePixelRatio (Rejects e) (fun _ => Resolves texture)
                   (blank quiet) in
  (gone.1 = Normal (fresh_game devicePixelRatio)
   /\ elapsed gone.2 == 2.4 /\ tick gone.2 = 7%nat)
  /\ (failed.1 = Normal (fresh_game devicePixelRatio)
      /\ elapsed failed.2 == 1.4 /\ tick failed.2 = 5%nat)
  /\ (refused.1 = Normal (fresh_game devicePixelRatio)
      /\ elapsed refused.2 == 1.4 /\ tick refused.2 = 4%nat).
Proof. cbv zeta. repeat split; vm_compute; reflexivity. Qed.

(** X15.  The timers and animations the page awaits add up to fixed
    amounts, whatever frames arrive: 2.4 seconds over seven suspensions
    until the game scene is reached (0.1 + 0.8 + 0.5 before the loader is
    asked, then the 0.3 of the pause and the 0.7 of the transition; the one
    second of the progress ramp is not awaited), and 1.4 seconds until the
    error label is shown when the load or the initialisation of the loader
    rejects.  Frames delivered afterwards change neither. *)
Theorem awaited_time
  (inputData : list string) (devicePixelRatio : Q) (sched : nat -> list Event)
  (texture : PIXI.Texture) (e : Error) (evs : list Event) :
  let gone := main inputData devicePixelRatio (Resolves tt) (fun _ => Resolves texture)
                (blank sched) in
  let failed := main inputData devicePixelRatio (Resolves tt) (fun _ => Rejects e)
                  (blank sched) in
  let refused := main inputData devicePixelRatio (Rejects e) (fun _ => Resolves texture)
                   (blank sched) in
  (gone.1 = Normal (fresh_game devicePixelRatio)
   /\ elapsed (run_events evs gone.2) == 2.4 /\ tick (run_events evs gone.2) = 7%nat)
  /\ (failed.1 = Normal (fresh_game devicePixelRatio)
      /\ elapsed (run_events evs failed.2) == 1.4
      /\ tick (run_events evs failed.2) = 5%nat)
  /\ (refused.1 = Normal (fresh_game devicePixelRatio)
      /\ elapsed (run_events evs refused.2) == 1.4
      /\ tick (run_events evs refused.2) = 4%nat)
  /\ MIN_LOADING_TIME == 1.
Proof.
  generalize (timing_still inputData devicePixelRatio texture e).
  generalize (main_sim inputData devicePixelRatio (Resolves tt)
                (fun _ => Resolves texture) sched).
  generalize (main_sim inputData devicePixelRatio (Resolves tt)
                (fun _ => Rejects e) sched).
  generalize (main_sim inputData devicePixelRatio (Rejects e)
                (fun _ => Resolves texture) sched).
  cbv zeta.
  generalize (main inputData devicePixelRatio (Resolves tt) (fun _ => Resolves texture)
                (blank sched)).
  generalize (main inputData devicePixelRatio (Resolves tt) (fun _ => Resolves texture)
                (blank quiet)).
  generalize (main inputData devicePixelRatio (Resolves tt) (fun _ => Rejects e)
                (blank sched)).
  generalize (main inputData devicePixelRatio (Resolves tt) (fun _ => Rejects e)
                (blank quiet)).
  generalize (main inputData devicePixelRatio (Rejects e) (fun _ => Resolves texture)
                (blank sched)).
  generalize (main inputData devicePixelRatio (Rejects e) (fun _ => Resolves texture)
                (blank quiet)).
  intros [r6 w6] [r5 w5] [r4 w4] [r3 w3] [r2 w2] [r1 w1]. cbn [fst snd].
  intros [Hr3 Hs3] [Hr2 Hs2] [Hr1 Hs1]
         ((Hg & Hge & Hgt) & (Hf & Hfe & Hft) & (Hx & Hxe & Hxt)).
  specialize (Hs1 evs). specialize (Hs2 evs). specialize (Hs3 evs).
  split; [|split; [|split]].
  - split; [congruence|].
    by rewrite (sim_elapsed _ _ Hs1), (sim_tick _ _ Hs1).
  - split; [congruence|].
    by rewrite (sim_elapsed _ _ Hs2), (sim_tick _ _ Hs2).
  - split; [congruence|].
    by rewrite (sim_elapsed _ _ Hs3), (sim_tick _ _ Hs3).
  - reflexivity.
Qed.
